(** * MODEXO x402 coordination layer: payment sessions, rate limiter,
      dynamic pricing and escrow ledger

    A shallow embedding of the in-memory services that gate the paid agent
    endpoints, and the properties the specification states about them.

    Conventions of the embedding.
    - Every module-level [Map] of the TypeScript sources is a [gmap] keyed by
      [string], but for the discount rules of the pricing service, whose
      iteration order decides a result and which are kept as an association
      list in insertion order; the module-level stores of one service are
      gathered in one record that each operation takes and returns (explicit
      state passing).
      An object stored in a map and mutated in place is modelled by writing
      the updated record back under its key.
    - [Date.now()] / [new Date()] is a parameter [now : Z] (milliseconds since
      the epoch); an operation is one atomic step observed at one reading of
      the clock.
    - Identifiers drawn from a random source ([crypto.randomUUID],
      [randomBytes]) are parameters of the operation that draws them.
    - A JavaScript [number] that holds money, a multiplier or a ratio is an
      IEEE 754 binary64 value ([spec_float] at precision 53, [emax] 1024,
      round to nearest even); timestamps, event counters and the periods
      added to timestamps (milliseconds, minutes) are [Z], which leaves
      fractional, infinite and NaN periods out of the model.
    - A list returned by iterating over a [Map] kept as a [gmap] comes in
      the order of [map_to_list], not in insertion order; statements about
      such lists are about membership and length only. *)

From Stdlib Require Import ZArith Lia Bool List Ascii String.
From Stdlib Require Import Floats.SpecFloat.
From stdpp Require Import gmap strings pretty list fin_maps.

Local Open Scope Z_scope.

(** ** JavaScript values shared by the services *)

(** A [Set<string>]: insertion-ordered, without duplicates. *)
Module JsSet.

Definition set_add (x : string) (l : list string) : list string :=
  if decide (x ∈ l) then l else l ++ [x].

Definition set_delete (x : string) (l : list string) : list string :=
  filter (fun y => y ≠ x) l.

End JsSet.

(** The [number] type where it is not an integer count or a timestamp:
    IEEE 754 binary64 with the operations of [SpecFloat]. *)
Module JsNum.

Definition number : Type := spec_float.

Definition prec : Z := 53.
Definition emax : Z := 1024.

Definition add : number -> number -> number := SFadd prec emax.
Definition sub : number -> number -> number := SFsub prec emax.
Definition mul : number -> number -> number := SFmul prec emax.
Definition div : number -> number -> number := SFdiv prec emax.

(** The binary64 value of an integer (exact below 2^53 in magnitude). *)
Definition ofZ (z : Z) : number := binary_normalize prec emax z 0 false.

(** The decimal literal n·10^-k: the correctly rounded quotient of two
    exactly representable integers. *)
Definition dec (n : Z) (k : Z) : number := div (ofZ n) (ofZ (10 ^ k)).

Definition NaN : number := S754_nan.

(** [a < b], [a <= b], [a === b]; [a > b] is [lt b a], [a >= b] is [le b a]. *)
Definition lt (a b : number) : bool := SFltb a b.
Definition le (a b : number) : bool := SFleb a b.
Definition eq (a b : number) : bool := SFeqb a b.

(** Truthiness of a number: everything but ±0 and NaN. *)
Definition truthy (a : number) : bool :=
  match a with
  | S754_zero _ | S754_nan => false
  | _ => true
  end.

(** [Math.min] and [Math.max] of two arguments: NaN when either is NaN,
    and -0 below +0. *)
Definition Math_min (a b : number) : number :=
  match SFcompare a b with
  | None => NaN
  | Some Lt => a
  | Some Gt => b
  | Some Eq => match a with S754_zero false => b | _ => a end
  end.

Definition Math_max (a b : number) : number :=
  match SFcompare a b with
  | None => NaN
  | Some Lt => b
  | Some Gt => a
  | Some Eq => match a with S754_zero true => b | _ => a end
  end.

(** [Math.round]: the integer nearest to the argument, ties towards +∞;
    a result of zero keeps the sign of the argument. *)
Definition Math_round (a : number) : number :=
  match a with
  | S754_finite s m e =>
      if 0 <=? e then a
      else
        let n := (2 * cond_Zopp s (Zpos m) + 2 ^ (- e)) / 2 ^ (1 - e) in
        if n =? 0 then S754_zero s else ofZ n
  | _ => a
  end.

(** [Math.floor]. *)
Definition Math_floor (a : number) : number :=
  match a with
  | S754_finite s m e =>
      if 0 <=? e then a
      else
        let n := cond_Zopp s (Zpos m) / 2 ^ (- e) in
        if n =? 0 then S754_zero s else ofZ n
  | _ => a
  end.

(** [x || 0] on an optional number: the number when present and truthy. *)
Definition or_zero (x : option number) : number :=
  match x with
  | Some v => if truthy v then v else ofZ 0
  | None => ofZ 0
  end.

End JsNum.

(** ** Payment sessions (session store) *)

Module Session.
Import JsSet.

Inductive SessionStatus := pending | paid | expired | used.

#[global] Instance SessionStatus_eq_dec : EqDecision SessionStatus.
Proof. solve_decision. Defined.

Record PaymentSession := mkSession {
  sessionId : string;
  walletAddress : string;
  agentId : string;
  resource : string;
  amountRequired : string;
  status : SessionStatus;
  createdAt : Z;
  expiresAt : Z;
  paidAt : option Z;
  transactionSignature : option string;
  usedAt : option Z
}.

(** [config] of the source. *)
Definition expirationMinutes : Z := 5.
Definition maxRetries : Z := 3.
Definition cleanupIntervalMs : Z := 60000.

(** The two module-level maps. A [Set<string>] keeps insertion order, so it
    is a duplicate-free list. *)
Record store := mkStore {
  sessions : gmap string PaymentSession;
  walletSessions : gmap string (list string)
}.

Definition empty_store : store := mkStore ∅ ∅.

Definition set_status (v : SessionStatus) (s : PaymentSession) : PaymentSession :=
  mkSession (sessionId s) (walletAddress s) (agentId s) (resource s)
    (amountRequired s) v (createdAt s) (expiresAt s) (paidAt s)
    (transactionSignature s) (usedAt s).

Definition set_paid (t : Z) (sig : string) (s : PaymentSession) : PaymentSession :=
  mkSession (sessionId s) (walletAddress s) (agentId s) (resource s)
    (amountRequired s) paid (createdAt s) (expiresAt s) (Some t)
    (Some sig) (usedAt s).

Definition set_used (t : Z) (s : PaymentSession) : PaymentSession :=
  mkSession (sessionId s) (walletAddress s) (agentId s) (resource s)
    (amountRequired s) used (createdAt s) (expiresAt s) (paidAt s)
    (transactionSignature s) (Some t).

Definition set_expiresAt (t : Z) (s : PaymentSession) : PaymentSession :=
  mkSession (sessionId s) (walletAddress s) (agentId s) (resource s)
    (amountRequired s) (status s) (createdAt s) t (paidAt s)
    (transactionSignature s) (usedAt s).

(** [createSession]; [sid] is the value of [crypto.randomUUID()]. *)
Definition createSession (sid walletAddr agent res amount : string) (now : Z)
    (st : store) : PaymentSession * store :=
  let session :=
    mkSession sid walletAddr agent res amount pending now
      (now + expirationMinutes * 60 * 1000) None None None in
  let ws :=
    match walletSessions st !! walletAddr with
    | None => <[walletAddr := []]> (walletSessions st)
    | Some _ => walletSessions st
    end in
  let ws' :=
    match ws !! walletAddr with
    | Some ids => <[walletAddr := set_add sid ids]> ws
    | None => ws
    end in
  (session, mkStore (<[sid := session]> (sessions st)) ws').

(** [getSession]: lazily flips an overdue pending session to expired. *)
Definition getSession (sid : string) (now : Z) (st : store)
    : option PaymentSession * store :=
  match sessions st !! sid with
  | None => (None, st)
  | Some session =>
      if bool_decide (status session = pending) && (expiresAt session <? now)
      then
        let session' := set_status expired session in
        (Some session', mkStore (<[sid := session']> (sessions st)) (walletSessions st))
      else (Some session, st)
  end.

(** [getSessionsByWallet]: [getSession] on every id of the wallet's set, in
    set order, keeping the sessions found. *)
Fixpoint getSessions_ids (ids : list string) (now : Z) (st : store)
    : list PaymentSession * store :=
  match ids with
  | [] => ([], st)
  | id :: rest =>
      let '(r, st1) := getSession id now st in
      let '(rs, st2) := getSessions_ids rest now st1 in
      (match r with Some s => s :: rs | None => rs end, st2)
  end.

Definition getSessionsByWallet (walletAddr : string) (now : Z) (st : store)
    : list PaymentSession * store :=
  match walletSessions st !! walletAddr with
  | None => ([], st)
  | Some ids => getSessions_ids ids now st
  end.

(** [markSessionPaid]. *)
Definition markSessionPaid (sid sig : string) (now : Z) (st : store)
    : bool * store :=
  match sessions st !! sid with
  | None => (false, st)
  | Some session =>
      if decide (status session = pending) then
        if expiresAt session <? now then
          (false, mkStore (<[sid := set_status expired session]> (sessions st))
                    (walletSessions st))
        else
          (true, mkStore (<[sid := set_paid now sig session]> (sessions st))
                   (walletSessions st))
      else (false, st)
  end.

(** [markSessionUsed]. *)
Definition markSessionUsed (sid : string) (now : Z) (st : store) : bool * store :=
  match sessions st !! sid with
  | None => (false, st)
  | Some session =>
      if decide (status session = paid) then
        (true, mkStore (<[sid := set_used now session]> (sessions st))
                 (walletSessions st))
      else (false, st)
  end.

(** The result object of [validateSession]. *)
Record validation := mkValidation {
  valid : bool;
  reason : option string;
  vsession : option PaymentSession
}.

Definition validateSession (sid : string) (now : Z) (st : store)
    : validation * store :=
  let '(r, st') := getSession sid now st in
  (match r with
   | None => mkValidation false (Some "Session not found"%string) None
   | Some session =>
       match status session with
       | expired => mkValidation false (Some "Session expired"%string) None
       | used => mkValidation false (Some "Session already used"%string) None
       | pending => mkValidation false (Some "Payment not completed"%string) None
       | paid => mkValidation true None (Some session)
       end
   end, st').

(** One iteration of the loop of [cleanupExpiredSessions]. *)
Definition cleanup_entry (now : Z) (sid : string) (session : PaymentSession)
    (acc : Z * store) : Z * store :=
  let '(cleaned, st) := acc in
  if (expiresAt session + 3600000 <? now) && negb (bool_decide (status session = paid))
  then
    let ws :=
      match walletSessions st !! walletAddress session with
      | Some ids =>
          let ids' := set_delete sid ids in
          match ids' with
          | [] => delete (walletAddress session) (walletSessions st)
          | _ => <[walletAddress session := ids']> (walletSessions st)
          end
      | None => walletSessions st
      end in
    (cleaned + 1, mkStore (delete sid (sessions st)) ws)
  else (cleaned, st).

Definition cleanupExpiredSessions (now : Z) (st : store) : Z * store :=
  map_fold (cleanup_entry now) (0, st) (sessions st).

(** [extendSession]; the number of minutes is an integer. *)
Definition extendSession (sid : string) (minutes : Z) (st : store) : bool * store :=
  match sessions st !! sid with
  | None => (false, st)
  | Some session =>
      if decide (status session = pending) then
        (true, mkStore
                 (<[sid := set_expiresAt (expiresAt session + minutes * 60 * 1000) session]>
                    (sessions st))
                 (walletSessions st))
      else (false, st)
  end.

(** The operations of the module that write to the store, as commands. *)
Inductive op :=
| CreateSession (sid walletAddr agent res amount : string)
| GetSession (sid : string)
| GetSessionsByWallet (walletAddr : string)
| MarkSessionPaid (sid sig : string)
| MarkSessionUsed (sid : string)
| ValidateSession (sid : string)
| CleanupExpiredSessions
| ExtendSession (sid : string) (minutes : Z).

Definition exec (o : op) (now : Z) (st : store) : store :=
  match o with
  | CreateSession sid w a r amt => snd (createSession sid w a r amt now st)
  | GetSession sid => snd (getSession sid now st)
  | GetSessionsByWallet w => snd (getSessionsByWallet w now st)
  | MarkSessionPaid sid sig => snd (markSessionPaid sid sig now st)
  | MarkSessionUsed sid => snd (markSessionUsed sid now st)
  | ValidateSession sid => snd (validateSession sid now st)
  | CleanupExpiredSessions => snd (cleanupExpiredSessions now st)
  | ExtendSession sid minutes => snd (extendSession sid minutes st)
  end.

(** [crypto.randomUUID] returns an identifier that no stored session has. *)
Definition fresh_id (o : op) (st : store) : Prop :=
  match o with
  | CreateSession sid _ _ _ _ => sessions st !! sid = None
  | _ => True
  end.

(** The edges of the status graph: pending→paid, pending→expired, paid→used. *)
Inductive edge : SessionStatus -> SessionStatus -> Prop :=
| edge_paid : edge pending paid
| edge_expired : edge pending expired
| edge_used : edge paid used.

(** A step of the status field: it stays, or follows one edge. *)
Definition moves (a b : SessionStatus) : Prop := a = b ∨ edge a b.

(** A run: commands with the clock reading of each. *)
Fixpoint run (ops : list (op * Z)) (st : store) : store :=
  match ops with
  | [] => st
  | (o, now) :: rest => run rest (exec o now st)
  end.

(** The id a command stores a new session under, if it creates one. *)
Definition created_id (o : op) : option string :=
  match o with
  | CreateSession sid _ _ _ _ => Some sid
  | _ => None
  end.

(** The test of the loop of [cleanupExpiredSessions]: more than an hour past
    its expiry, and not paid. *)
Definition removable (now : Z) (s : PaymentSession) : bool :=
  (expiresAt s + 3600000 <? now) && negb (bool_decide (status s = paid)).

End Session.

(** ** Rate limiter (server/services/x402-ratelimit.ts) *)

Module RateLimit.

Definition WINDOW_SIZE_MS : Z := 60000.
Definition MAX_REQUESTS_PER_WINDOW : Z := 100.
Definition MAX_PAYMENTS_PER_WINDOW : Z := 20.
Definition MAX_EXECUTIONS_PER_WINDOW : Z := 50.
Definition COOLDOWN_PERIOD_MS : Z := 300000.
Definition MAX_HISTORY_SIZE : Z := 10000.

Inductive RateLimitType := request | payment | execution.

#[global] Instance RateLimitType_eq_dec : EqDecision RateLimitType.
Proof. solve_decision. Defined.

Record RateLimitBucket := mkBucket {
  walletAddress : string;
  type : RateLimitType;
  windowStart : Z;
  count : Z;
  blocked : bool;
  blockedUntil : option Z;
  violations : Z
}.

Record UsageRecord := mkUsage {
  uWalletAddress : string;
  uAgentId : string;
  timestamp : Z;
  uType : RateLimitType;
  uAmount : option JsNum.number;
  success : bool
}.

Record WalletUsageStats := mkStats {
  sWalletAddress : string;
  sTotalRequests : Z;
  sTotalPayments : Z;
  sTotalExecutions : Z;
  totalSpent : JsNum.number;
  lastActivity : Z;
  isBlocked : bool;
  sViolations : Z
}.

Record GlobalUsageMetrics := mkGlobal {
  totalRequests : Z;
  totalPayments : Z;
  totalExecutions : Z;
  blockedWallets : Z;
  totalViolations : Z;
  requestsPerMinute : Z
}.

(** The module-level stores. *)
Record state := mkState {
  rateLimitBuckets : gmap string RateLimitBucket;
  usageHistory : list UsageRecord;
  walletStats : gmap string WalletUsageStats;
  globalMetrics : GlobalUsageMetrics
}.

Definition initial_state : state :=
  mkState ∅ [] ∅ (mkGlobal 0 0 0 0 0 0).

Definition type_name (t : RateLimitType) : string :=
  match t with
  | request => "request"
  | payment => "payment"
  | execution => "execution"
  end.

Definition getBucketKey (w : string) (t : RateLimitType) : string :=
  w +:+ ":" +:+ type_name t.

Definition getMaxForType (t : RateLimitType) : Z :=
  match t with
  | request => MAX_REQUESTS_PER_WINDOW
  | payment => MAX_PAYMENTS_PER_WINDOW
  | execution => MAX_EXECUTIONS_PER_WINDOW
  end.

(** The result object of [checkRateLimit]. *)
Record verdict := mkVerdict {
  allowed : bool;
  remaining : Z;
  resetIn : Z
}.

(** [bucket?.blocked && bucket.blockedUntil]: the block's end when the
    bucket is blocked and the end is a truthy number. *)
Definition block_end (b : RateLimitBucket) : option Z :=
  if blocked b then
    match blockedUntil b with
    | Some u => if u =? 0 then None else Some u
    | None => None
    end
  else None.

Definition unblock (b : RateLimitBucket) : RateLimitBucket :=
  mkBucket (walletAddress b) (type b) (windowStart b) (count b) false None
    (violations b).

(** The fresh bucket of a new window; it inherits the violations. *)
Definition new_window (w : string) (t : RateLimitType) (now : Z)
    (old : option RateLimitBucket) : RateLimitBucket :=
  mkBucket w t now 0 false None
    (match old with Some b => violations b | None => 0 end).

(** [if (!bucket || now - bucket.windowStart >= WINDOW_SIZE_MS) { ... set }]:
    the bucket to work on and the map after the possible write. *)
Definition current_window (w : string) (t : RateLimitType) (now : Z)
    (old : option RateLimitBucket) (m : gmap string RateLimitBucket)
    : RateLimitBucket * gmap string RateLimitBucket :=
  match old with
  | Some b =>
      if WINDOW_SIZE_MS <=? now - windowStart b
      then (new_window w t now old, <[getBucketKey w t := new_window w t now old]> m)
      else (b, m)
  | None => (new_window w t now old, <[getBucketKey w t := new_window w t now old]> m)
  end.

Definition with_buckets (m : gmap string RateLimitBucket) (st : state) : state :=
  mkState m (usageHistory st) (walletStats st) (globalMetrics st).

Definition checkRateLimit (w : string) (t : RateLimitType) (now : Z) (st : state)
    : verdict * state :=
  let key := getBucketKey w t in
  let found := rateLimitBuckets st !! key in
  let proceed (old : option RateLimitBucket) (m : gmap string RateLimitBucket) :=
    let '(bucket, m') := current_window w t now old m in
    let max := getMaxForType t in
    (mkVerdict (count bucket <? max) (Z.max 0 (max - count bucket))
       (WINDOW_SIZE_MS - (now - windowStart bucket)),
     with_buckets m' st) in
  match found with
  | Some b =>
      match block_end b with
      | Some u =>
          if now <? u then (mkVerdict false 0 (u - now), st)
          else proceed (Some (unblock b)) (<[key := unblock b]> (rateLimitBuckets st))
      | None => proceed (Some b) (rateLimitBuckets st)
      end
  | None => proceed None (rateLimitBuckets st)
  end.

(** [updateWalletStats]. *)
Definition updateWalletStats (w : string) (t : RateLimitType)
    (amt : option JsNum.number) (now : Z)
    (m : gmap string WalletUsageStats) : gmap string WalletUsageStats :=
  let stats :=
    match m !! w with
    | Some s => s
    | None => mkStats w 0 0 0 (JsNum.ofZ 0) now false 0
    end in
  let stats' :=
    match t with
    | request =>
        mkStats (sWalletAddress stats) (sTotalRequests stats + 1) (sTotalPayments stats)
          (sTotalExecutions stats) (totalSpent stats) now (isBlocked stats)
          (sViolations stats)
    | payment =>
        mkStats (sWalletAddress stats) (sTotalRequests stats) (sTotalPayments stats + 1)
          (sTotalExecutions stats)
          (match amt with
           | Some a => if JsNum.truthy a then JsNum.add (totalSpent stats) a
                       else totalSpent stats
           | None => totalSpent stats
           end)
          now (isBlocked stats) (sViolations stats)
    | execution =>
        mkStats (sWalletAddress stats) (sTotalRequests stats) (sTotalPayments stats)
          (sTotalExecutions stats + 1) (totalSpent stats) now (isBlocked stats)
          (sViolations stats)
    end in
  <[w := stats']> m.

(** [updateGlobalMetrics], over the history as it is after the push. *)
Definition updateGlobalMetrics (t : RateLimitType) (now : Z)
    (history : list UsageRecord) (g : GlobalUsageMetrics) : GlobalUsageMetrics :=
  let recent :=
    Z.of_nat (length (filter (fun r => now - 60000 < timestamp r ∧ uType r = request)
                        history)) in
  match t with
  | request =>
      mkGlobal (totalRequests g + 1) (totalPayments g) (totalExecutions g)
        (blockedWallets g) (totalViolations g) recent
  | payment =>
      mkGlobal (totalRequests g) (totalPayments g + 1) (totalExecutions g)
        (blockedWallets g) (totalViolations g) recent
  | execution =>
      mkGlobal (totalRequests g) (totalPayments g) (totalExecutions g + 1)
        (blockedWallets g) (totalViolations g) recent
  end.

(** [usageHistory.push(record); if (length > MAX_HISTORY_SIZE) shift()]. *)
Definition push_history (r : UsageRecord) (h : list UsageRecord) : list UsageRecord :=
  let h' := h ++ [r] in
  if MAX_HISTORY_SIZE <? Z.of_nat (length h') then tail h' else h'.

Definition recordUsage (w agent : string) (t : RateLimitType)
    (amt : option JsNum.number) (ok : bool) (now : Z) (st : state) : bool * state :=
  let key := getBucketKey w t in
  let '(bucket, m) :=
    current_window w t now (rateLimitBuckets st !! key) (rateLimitBuckets st) in
  let max := getMaxForType t in
  let g := globalMetrics st in
  if max <=? count bucket then
    let v := violations bucket + 1 in
    let g1 :=
      mkGlobal (totalRequests g) (totalPayments g) (totalExecutions g)
        (blockedWallets g) (totalViolations g + 1) (requestsPerMinute g) in
    if 3 <=? v then
      (false,
       mkState
         (<[key := mkBucket (walletAddress bucket) (type bucket) (windowStart bucket)
                     (count bucket) true (Some (now + COOLDOWN_PERIOD_MS)) v]> m)
         (usageHistory st) (walletStats st)
         (mkGlobal (totalRequests g1) (totalPayments g1) (totalExecutions g1)
            (blockedWallets g1 + 1) (totalViolations g1) (requestsPerMinute g1)))
    else
      (false,
       mkState
         (<[key := mkBucket (walletAddress bucket) (type bucket) (windowStart bucket)
                     (count bucket) (blocked bucket) (blockedUntil bucket) v]> m)
         (usageHistory st) (walletStats st) g1)
  else
    let history := push_history (mkUsage w agent now t amt ok) (usageHistory st) in
    (true,
     mkState
       (<[key := mkBucket (walletAddress bucket) (type bucket) (windowStart bucket)
                   (count bucket + 1) (blocked bucket) (blockedUntil bucket)
                   (violations bucket)]> m)
       history
       (updateWalletStats w t amt now (walletStats st))
       (updateGlobalMetrics t now history g)).

Definition isWalletBlocked (w : string) (st : state) : bool :=
  existsb
    (fun t => match rateLimitBuckets st !! getBucketKey w t with
              | Some b => blocked b
              | None => false
              end)
    [request; payment; execution].

(** One iteration of the loop of [unblockWallet]. *)
Definition unblock_type (w : string) (t : RateLimitType)
    (acc : bool * gmap string RateLimitBucket) : bool * gmap string RateLimitBucket :=
  let '(unblocked, m) := acc in
  match m !! getBucketKey w t with
  | Some b =>
      if blocked b then
        (true, <[getBucketKey w t :=
                   mkBucket (walletAddress b) (type b) (windowStart b) (count b)
                     false None 0]> m)
      else (unblocked, m)
  | None => (unblocked, m)
  end.

Definition unblockWallet (w : string) (st : state) : bool * state :=
  let '(unblocked, m) :=
    unblock_type w execution
      (unblock_type w payment (unblock_type w request (false, rateLimitBuckets st))) in
  if unblocked then
    let g := globalMetrics st in
    (true,
     mkState m (usageHistory st)
       (match walletStats st !! w with
        | Some s =>
            <[w := mkStats (sWalletAddress s) (sTotalRequests s) (sTotalPayments s)
                     (sTotalExecutions s) (totalSpent s) (lastActivity s) false 0]>
              (walletStats st)
        | None => walletStats st
        end)
       (mkGlobal (totalRequests g) (totalPayments g) (totalExecutions g)
          (Z.max 0 (blockedWallets g - 1)) (totalViolations g) (requestsPerMinute g)))
  else (false, with_buckets m st).

(** [cleanupOldData]: drops the buckets whose window began before the
    cutoff and that are not blocked. *)
Definition stale (cutoff : Z) (b : RateLimitBucket) : bool :=
  (windowStart b <? cutoff) && negb (blocked b).

Definition cleanupOldData (maxAgeMs : Z) (now : Z) (st : state) : Z * state :=
  let cutoff := now - maxAgeMs in
  (Z.of_nat (size (filter (fun kv => stale cutoff (snd kv) = true) (rateLimitBuckets st))),
   with_buckets (filter (fun kv => stale cutoff (snd kv) = false) (rateLimitBuckets st)) st).

(** The operations that write to the stores, as commands. *)
Inductive op :=
| CheckRateLimit (w : string) (t : RateLimitType)
| RecordUsage (w agent : string) (t : RateLimitType) (amt : option JsNum.number)
    (ok : bool)
| UnblockWallet (w : string)
| CleanupOldData (maxAgeMs : Z).

Definition exec (o : op) (now : Z) (st : state) : state :=
  match o with
  | CheckRateLimit w t => snd (checkRateLimit w t now st)
  | RecordUsage w agent t amt ok => snd (recordUsage w agent t amt ok now st)
  | UnblockWallet w => snd (unblockWallet w st)
  | CleanupOldData age => snd (cleanupOldData age now st)
  end.

Fixpoint run (ops : list (op * Z)) (st : state) : state :=
  match ops with
  | [] => st
  | (o, now) :: rest => run rest (exec o now st)
  end.

End RateLimit.

(** ** Dynamic pricing (server/services/x402-pricing.ts) *)

Module Pricing.
Import JsNum.

Definition BASE_PRICE_LAMPORTS : number := ofZ 100000.
Definition MIN_PRICE_MULTIPLIER : number := dec 5 1.
Definition MAX_PRICE_MULTIPLIER : number := ofZ 3.
Definition PRICE_UPDATE_INTERVAL_MS : Z := 60000.
Definition DEMAND_WINDOW_MS : Z := 300000.

(** The literals 1.1 and 0.95 of [updateDynamicPricing]. *)
Definition UP_FACTOR : number := dec 11 1.
Definition DOWN_FACTOR : number := dec 95 2.

Inductive PricingTier := free | basic | standard | premium | enterprise.
Inductive PricingModel := per_request | per_token | per_minute | flat_rate.

Record AgentPricing := mkPricing {
  agentId : string;
  basePrice : number;
  model : PricingModel;
  tier : PricingTier;
  dynamicPricing : bool;
  currentMultiplier : number;
  lastUpdated : Z;
  customRates : option (list (string * number))
}.

Record DemandMetrics := mkDemand {
  dAgentId : string;
  requestCount : number;
  windowStart : Z;
  peakRequests : number;
  averageRequests : number
}.

Record PricingHistory := mkHistory {
  hAgentId : string;
  timestamp : Z;
  price : number;
  multiplier : number;
  reason : string
}.

Inductive DiscountType := volume | loyalty | promotional | wallet_specific.

Record DiscountRule := mkRule {
  id : string;
  name : string;
  type : DiscountType;
  discountPercent : number;
  minVolume : option number;
  walletAddresses : option (list string);
  validUntil : option Z;
  active : bool
}.

(** The module-level stores. [discountRules] is iterated by
    [calculateWalletDiscount], so it keeps the insertion order of the
    JavaScript [Map]: a list of entries with distinct keys. *)
Record state := mkState {
  agentPricing : gmap string AgentPricing;
  demandMetrics : gmap string DemandMetrics;
  pricingHistory : gmap string (list PricingHistory);
  discountRules : list (string * DiscountRule);
  walletVolume : gmap string number
}.

Definition initial_state : state := mkState ∅ ∅ ∅ [] ∅.

(** [Map.prototype.get] and [Map.prototype.set] on the ordered entries: a
    new key goes to the end, an old key keeps its place. *)
Fixpoint rules_get (k : string) (l : list (string * DiscountRule)) : option DiscountRule :=
  match l with
  | [] => None
  | (k', v) :: rest => if bool_decide (k' = k) then Some v else rules_get k rest
  end.

Fixpoint rules_set (k : string) (v : DiscountRule) (l : list (string * DiscountRule))
    : list (string * DiscountRule) :=
  match l with
  | [] => [(k, v)]
  | (k', v') :: rest =>
      if bool_decide (k' = k) then (k, v) :: rest else (k', v') :: rules_set k v rest
  end.

Definition tierMultipliers (t : PricingTier) : number :=
  match t with
  | free => ofZ 0
  | basic => ofZ 1
  | standard => dec 15 1
  | premium => dec 25 1
  | enterprise => ofZ 4
  end.

Definition modelDefaults (m : PricingModel) : number :=
  match m with
  | per_request => BASE_PRICE_LAMPORTS
  | per_token => Math_floor (div BASE_PRICE_LAMPORTS (ofZ 1000))
  | per_minute => mul BASE_PRICE_LAMPORTS (ofZ 10)
  | flat_rate => mul BASE_PRICE_LAMPORTS (ofZ 100)
  end.

(** The [options] argument of [registerAgentPricing]; an absent field is
    [None]. *)
Record RegisterOptions := mkOptions {
  oBasePrice : option number;
  oModel : option PricingModel;
  oTier : option PricingTier;
  oDynamicPricing : option bool;
  oCustomRates : option (list (string * number))
}.

Definition no_options : RegisterOptions := mkOptions None None None None None.

Definition registerAgentPricing (agent : string) (options : RegisterOptions)
    (now : Z) (st : state) : AgentPricing * state :=
  let model_ := match oModel options with Some m => m | None => per_request end in
  let pricing :=
    mkPricing agent
      (match oBasePrice options with
       | Some b => if truthy b then b else modelDefaults model_
       | None => modelDefaults model_
       end)
      model_
      (match oTier options with Some t => t | None => standard end)
      (match oDynamicPricing options with Some false => false | _ => true end)
      (ofZ 1) now (oCustomRates options) in
  (pricing,
   mkState (<[agent := pricing]> (agentPricing st))
     (<[agent := mkDemand agent (ofZ 0) now (ofZ 0) (ofZ 0)]> (demandMetrics st))
     (<[agent := []]> (pricingHistory st))
     (discountRules st) (walletVolume st)).

Definition getAgentPricing (agent : string) (st : state) : option AgentPricing :=
  agentPricing st !! agent.

(** Whether a rule applies to a wallet of the given volume. *)
Definition rule_applies (rule : DiscountRule) (wallet : string) (vol : number) : bool :=
  match type rule with
  | volume =>
      match minVolume rule with
      | Some mv => le mv vol
      | None => false
      end
  | wallet_specific =>
      match walletAddresses rule with
      | Some ws => bool_decide (wallet ∈ ws)
      | None => false
      end
  | loyalty => lt (ofZ 0) vol
  | promotional => true
  end.

(** [rule.validUntil && now > rule.validUntil]. *)
Definition rule_lapsed (rule : DiscountRule) (now : Z) : bool :=
  match validUntil rule with
  | Some u => negb (u =? 0) && (u <? now)
  | None => false
  end.

(** The loop of [calculateWalletDiscount] over the rules in order. *)
Fixpoint discount_loop (rules : list DiscountRule) (wallet : string) (vol : number)
    (baseAmount : number) (now : Z) (maxDiscount : number) : number :=
  match rules with
  | [] => maxDiscount
  | rule :: rest =>
      discount_loop rest wallet vol baseAmount now
        (if negb (active rule) then maxDiscount
         else if rule_lapsed rule now then maxDiscount
         else if rule_applies rule wallet vol then
           Math_max maxDiscount
             (mul baseAmount (div (discountPercent rule) (ofZ 100)))
         else maxDiscount)
  end.

Definition calculateWalletDiscount (wallet : string) (baseAmount : number)
    (now : Z) (st : state) : number :=
  discount_loop (snd <$> discountRules st) wallet
    (or_zero (walletVolume st !! wallet)) baseAmount now (ofZ 0).

(** The result object of [calculatePrice]; [breakdown] lists the keys of
    the object in the order they are written. *)
Record quote := mkQuote {
  qprice : number;
  breakdown : list (string * number)
}.

(** [calculatePrice]. [units] is [None] when the argument is omitted
    (default 1), [wallet] is [None] when no wallet address is passed. *)
Definition calculatePrice (agent : string) (units : option number)
    (wallet : option string) (now : Z) (st : state) : quote :=
  let units_ := match units with Some u => u | None => ofZ 1 end in
  match agentPricing st !! agent with
  | None => mkQuote (ofZ 0) [("error"%string, ofZ 1)]
  | Some pricing =>
      let tierMultiplier := tierMultipliers (tier pricing) in
      if eq tierMultiplier (ofZ 0) then
        mkQuote (ofZ 0) [("tier"%string, ofZ 0); ("free"%string, ofZ 1)]
      else
        let baseAmount0 := mul (mul (basePrice pricing) units_) tierMultiplier in
        let breakdown0 :=
          [("base"%string, mul (basePrice pricing) units_);
           ("tierMultiplier"%string, tierMultiplier)] in
        let '(baseAmount1, breakdown1) :=
          if dynamicPricing pricing then
            (mul baseAmount0 (currentMultiplier pricing),
             breakdown0 ++ [("demandMultiplier"%string, currentMultiplier pricing)])
          else (baseAmount0, breakdown0) in
        let '(baseAmount2, breakdown2) :=
          match wallet with
          | Some w =>
              if bool_decide (w = ""%string) then (baseAmount1, breakdown1)
              else
                let discount := calculateWalletDiscount w baseAmount1 now st in
                if lt (ofZ 0) discount then
                  (sub baseAmount1 discount,
                   breakdown1 ++ [("discount"%string, SFopp discount)])
                else (baseAmount1, breakdown1)
          | None => (baseAmount1, breakdown1)
          end in
        mkQuote (Math_max (ofZ 0) (Math_round baseAmount2)) breakdown2
  end.

(** [history.push(entry); if (history.length > 100) history.shift()]. *)
Definition push_history (h : PricingHistory) (l : list PricingHistory)
    : list PricingHistory :=
  let l' := l ++ [h] in
  if 100 <? Z.of_nat (length l') then tail l' else l'.

(** The multiplier [updateDynamicPricing] computes from the current one and
    the demand ratio. *)
Definition next_multiplier (current demandRatio : number) : number :=
  if lt (dec 15 1) demandRatio then
    Math_min MAX_PRICE_MULTIPLIER (mul current UP_FACTOR)
  else if lt demandRatio (dec 5 1) then
    Math_max MIN_PRICE_MULTIPLIER (mul current DOWN_FACTOR)
  else current.

Definition demand_ratio (metrics : DemandMetrics) : number :=
  if lt (ofZ 0) (averageRequests metrics)
  then div (requestCount metrics) (averageRequests metrics)
  else ofZ 1.

Definition updateDynamicPricing (agent : string) (now : Z) (st : state) : state :=
  match agentPricing st !! agent, demandMetrics st !! agent with
  | Some pricing, Some metrics =>
      if negb (dynamicPricing pricing) then st
      else if now - lastUpdated pricing <? PRICE_UPDATE_INTERVAL_MS then st
      else
        let demandRatio := demand_ratio metrics in
        let newMultiplier := next_multiplier (currentMultiplier pricing) demandRatio in
        if negb (eq newMultiplier (currentMultiplier pricing)) then
          let entry :=
            mkHistory agent now (mul (basePrice pricing) newMultiplier) newMultiplier
              (if lt (dec 15 1) demandRatio then "high_demand" else "low_demand") in
          mkState
            (<[agent := mkPricing (agentId pricing) (basePrice pricing) (model pricing)
                          (tier pricing) (dynamicPricing pricing) newMultiplier now
                          (customRates pricing)]> (agentPricing st))
            (demandMetrics st)
            (match pricingHistory st !! agent with
             | Some h => <[agent := push_history entry h]> (pricingHistory st)
             | None => pricingHistory st
             end)
            (discountRules st) (walletVolume st)
        else st
  | _, _ => st
  end.

Definition recordRequest (agent wallet : string) (amount : number) (now : Z)
    (st : state) : state :=
  match demandMetrics st !! agent with
  | None => st
  | Some metrics =>
      let metrics1 :=
        if DEMAND_WINDOW_MS <? now - windowStart metrics then
          mkDemand (dAgentId metrics) (ofZ 0) now (peakRequests metrics)
            (div (add (averageRequests metrics) (requestCount metrics)) (ofZ 2))
        else metrics in
      let count := add (requestCount metrics1) (ofZ 1) in
      let metrics2 :=
        mkDemand (dAgentId metrics1) count (windowStart metrics1)
          (Math_max (peakRequests metrics1) count) (averageRequests metrics1) in
      let currentVolume := or_zero (walletVolume st !! wallet) in
      updateDynamicPricing agent now
        (mkState (agentPricing st) (<[agent := metrics2]> (demandMetrics st))
           (pricingHistory st) (discountRules st)
           (<[wallet := add currentVolume amount]> (walletVolume st)))
  end.

(** The [updates] argument of [updateAgentPricing]; an [undefined] field is
    [None]. *)
Record PricingUpdates := mkUpdates {
  uBasePrice : option number;
  uModel : option PricingModel;
  uTier : option PricingTier;
  uDynamicPricing : option bool;
  uCustomRates : option (list (string * number))
}.

Definition updateAgentPricing (agent : string) (updates : PricingUpdates)
    (now : Z) (st : state) : bool * state :=
  match agentPricing st !! agent with
  | None => (false, st)
  | Some pricing =>
      (true,
       mkState
         (<[agent :=
              mkPricing (agentId pricing)
                (match uBasePrice updates with Some b => b | None => basePrice pricing end)
                (match uModel updates with Some m => m | None => model pricing end)
                (match uTier updates with Some t => t | None => tier pricing end)
                (match uDynamicPricing updates with
                 | Some d => d | None => dynamicPricing pricing end)
                (currentMultiplier pricing) now
                (match uCustomRates updates with
                 | Some c => Some c | None => customRates pricing end)]>
            (agentPricing st))
         (demandMetrics st) (pricingHistory st) (discountRules st) (walletVolume st))
  end.

(** The [options] argument of [createDiscountRule]. *)
Record RuleOptions := mkRuleOptions {
  oMinVolume : option number;
  oWalletAddresses : option (list string);
  oValidUntil : option Z
}.

Definition createDiscountRule (name_ : string) (type_ : DiscountType)
    (percent : number) (options : RuleOptions) (now : Z) (st : state)
    : DiscountRule * state :=
  let rule :=
    mkRule ("x402_discount_" +:+ pretty now) name_ type_
      (Math_min (ofZ 100) (Math_max (ofZ 0) percent))
      (oMinVolume options) (oWalletAddresses options) (oValidUntil options) true in
  (rule,
   mkState (agentPricing st) (demandMetrics st) (pricingHistory st)
     (rules_set (id rule) rule (discountRules st)) (walletVolume st)).

Definition deactivateDiscountRule (ruleId : string) (st : state) : bool * state :=
  match rules_get ruleId (discountRules st) with
  | None => (false, st)
  | Some rule =>
      (true,
       mkState (agentPricing st) (demandMetrics st) (pricingHistory st)
         (rules_set ruleId
            (mkRule (id rule) (name rule) (type rule) (discountPercent rule)
               (minVolume rule) (walletAddresses rule) (validUntil rule) false)
            (discountRules st))
         (walletVolume st))
  end.

Definition getDiscountRules (st : state) : list DiscountRule :=
  snd <$> discountRules st.

(** [getActiveDiscounts]: the rules the loop of [calculateWalletDiscount]
    would count for the wallet. *)
Definition getActiveDiscounts (wallet : string) (now : Z) (st : state)
    : list DiscountRule :=
  filter
    (fun rule =>
       active rule && negb (rule_lapsed rule now)
       && rule_applies rule wallet (or_zero (walletVolume st !! wallet)) = true)
    (snd <$> discountRules st).

Definition getWalletVolume (wallet : string) (st : state) : number :=
  or_zero (walletVolume st !! wallet).

(** The result object of [estimateCost]. *)
Record estimate := mkEstimate {
  estimated : number;
  eMin : number;
  eMax : number
}.

Definition estimateCost (agent : string) (estimatedUnits : number)
    (wallet : option string) (now : Z) (st : state) : estimate :=
  let q := calculatePrice agent (Some estimatedUnits) wallet now st in
  match agentPricing st !! agent with
  | None => mkEstimate (ofZ 0) (ofZ 0) (ofZ 0)
  | Some _ =>
      mkEstimate (qprice q)
        (Math_round (mul (qprice q) MIN_PRICE_MULTIPLIER))
        (Math_round (mul (qprice q) MAX_PRICE_MULTIPLIER))
  end.

(** The operations that write to the stores, as commands. *)
Inductive op :=
| RegisterAgentPricing (agent : string) (options : RegisterOptions)
| RecordRequest (agent wallet : string) (amount : number)
| UpdateAgentPricing (agent : string) (updates : PricingUpdates)
| CreateDiscountRule (name_ : string) (type_ : DiscountType) (percent : number)
    (options : RuleOptions)
| DeactivateDiscountRule (ruleId : string).

Definition exec (o : op) (now : Z) (st : state) : state :=
  match o with
  | RegisterAgentPricing agent options => snd (registerAgentPricing agent options now st)
  | RecordRequest agent wallet amount => recordRequest agent wallet amount now st
  | UpdateAgentPricing agent updates => snd (updateAgentPricing agent updates now st)
  | CreateDiscountRule n t p options => snd (createDiscountRule n t p options now st)
  | DeactivateDiscountRule ruleId => snd (deactivateDiscountRule ruleId st)
  end.

Fixpoint run (ops : list (op * Z)) (st : state) : state :=
  match ops with
  | [] => st
  | (o, now) :: rest => run rest (exec o now st)
  end.

End Pricing.

(** ** Escrow ledger (server/services/x402-escrow.ts) *)

Module Escrow.
Import JsSet.

Definition ESCROW_EXPIRY_MS : Z := 86400000.
Definition MAX_ESCROW_AMOUNT : JsNum.number := JsNum.ofZ 1000.
Definition MIN_ESCROW_AMOUNT : JsNum.number := JsNum.dec 1 3.
Definition ESCROW_FEE_PERCENT : JsNum.number := JsNum.dec 5 1.

Inductive EscrowStatus := held | released | refunded | disputed | expired.

#[global] Instance EscrowStatus_eq_dec : EqDecision EscrowStatus.
Proof. solve_decision. Defined.

Record EscrowAccount := mkEscrow {
  id : string;
  depositor : string;
  beneficiary : string;
  amount : JsNum.number;
  fee : JsNum.number;
  status : EscrowStatus;
  createdAt : Z;
  expiresAt : Z;
  releasedAt : option Z;
  releaseCondition : string;
  metadata : option (list (string * string))
}.

Inductive Resolution := release | refund | split.

Record EscrowDispute := mkDispute {
  escrowId : string;
  initiatedBy : string;
  reason : string;
  evidence : list string;
  dCreatedAt : Z;
  resolvedAt : option Z;
  resolution : option Resolution
}.

Record EscrowMetrics := mkMetrics {
  totalEscrows : Z;
  activeEscrows : Z;
  totalReleased : Z;
  totalRefunded : Z;
  totalDisputed : Z;
  totalFeesCollected : JsNum.number;
  averageHoldTime : JsNum.number
}.

(** The module-level stores. *)
Record state := mkState {
  escrowAccounts : gmap string EscrowAccount;
  escrowsByDepositor : gmap string (list string);
  escrowsByBeneficiary : gmap string (list string);
  activeDisputes : gmap string EscrowDispute;
  escrowMetrics : EscrowMetrics
}.

Definition initial_metrics : EscrowMetrics :=
  mkMetrics 0 0 0 0 0 (JsNum.ofZ 0) (JsNum.ofZ 0).

Definition initial_state : state := mkState ∅ ∅ ∅ ∅ initial_metrics.

(** [escrow.status = v; escrow.releasedAt = t]. *)
Definition close_escrow (v : EscrowStatus) (t : Z) (e : EscrowAccount) : EscrowAccount :=
  mkEscrow (id e) (depositor e) (beneficiary e) (amount e) (fee e) v
    (createdAt e) (expiresAt e) (Some t) (releaseCondition e) (metadata e).

Definition set_status (v : EscrowStatus) (e : EscrowAccount) : EscrowAccount :=
  mkEscrow (id e) (depositor e) (beneficiary e) (amount e) (fee e) v
    (createdAt e) (expiresAt e) (releasedAt e) (releaseCondition e) (metadata e).

Definition set_expiresAt (t : Z) (e : EscrowAccount) : EscrowAccount :=
  mkEscrow (id e) (depositor e) (beneficiary e) (amount e) (fee e) (status e)
    (createdAt e) t (releasedAt e) (releaseCondition e) (metadata e).

(** The character class [1-9A-HJ-NP-Za-km-z]. *)
Definition base58_char (c : ascii) : bool :=
  let n := Z.of_nat (nat_of_ascii c) in
  ((49 <=? n) && (n <=? 57)) || ((65 <=? n) && (n <=? 72))
  || ((74 <=? n) && (n <=? 78)) || ((80 <=? n) && (n <=? 90))
  || ((97 <=? n) && (n <=? 107)) || ((109 <=? n) && (n <=? 122)).

Fixpoint all_base58 (a : string) : bool :=
  match a with
  | EmptyString => true
  | String c rest => base58_char c && all_base58 rest
  end.

(** [validateSolanaAddress]: the test of /^[1-9A-HJ-NP-Za-km-z]{32,44}$/. *)
Definition validateSolanaAddress (address : string) : bool :=
  all_base58 address
  && (32 <=? Z.of_nat (String.length address))
  && (Z.of_nat (String.length address) <=? 44).

(** [generateEscrowId]; [token] is the hex rendering of the random bytes. *)
Definition generateEscrowId (now : Z) (token : string) : string :=
  "x402_escrow_" +:+ pretty now +:+ "_" +:+ token.

Definition calculateEscrowFee (amt : JsNum.number) : JsNum.number :=
  JsNum.mul amt (JsNum.div ESCROW_FEE_PERCENT (JsNum.ofZ 100)).

(** [map.has(k) || map.set(k, new Set()); map.get(k).add(x)] *)
Definition index_add (k x : string) (m : gmap string (list string))
    : gmap string (list string) :=
  match m !! k with
  | None => <[k := set_add x []]> m
  | Some ids => <[k := set_add x ids]> m
  end.

(** [createEscrow]; [token] is the hex rendering of the random bytes of the
    id, and the expiry period [expiryMs] is a whole number of milliseconds
    (the default [ESCROW_EXPIRY_MS] when the caller gives none), so that
    [expiresAt] is an exact timestamp. *)
Definition createEscrow (dep ben : string) (amt : JsNum.number)
    (cond : string) (expiryMs : Z) (meta : option (list (string * string)))
    (now : Z) (token : string) (st : state) : option EscrowAccount * state :=
  if negb (validateSolanaAddress dep) || negb (validateSolanaAddress ben) then (None, st)
  else if JsNum.lt amt MIN_ESCROW_AMOUNT || JsNum.lt MAX_ESCROW_AMOUNT amt then (None, st)
  else if bool_decide (dep = ben) then (None, st)
  else
    let escrow :=
      mkEscrow (generateEscrowId now token) dep ben amt (calculateEscrowFee amt)
        held now (now + expiryMs) None cond meta in
    let m := escrowMetrics st in
    (Some escrow,
     mkState (<[id escrow := escrow]> (escrowAccounts st))
       (index_add dep (id escrow) (escrowsByDepositor st))
       (index_add ben (id escrow) (escrowsByBeneficiary st))
       (activeDisputes st)
       (mkMetrics (totalEscrows m + 1) (activeEscrows m + 1) (totalReleased m)
          (totalRefunded m) (totalDisputed m) (totalFeesCollected m)
          (averageHoldTime m))).

Definition getEscrow (eid : string) (st : state) : option EscrowAccount :=
  escrowAccounts st !! eid.

(** [updateAverageHoldTime], on the metrics as they are when it is called. *)
Definition updateAverageHoldTime (e : EscrowAccount) (now : Z) (m : EscrowMetrics)
    : EscrowMetrics :=
  let released :=
    match releasedAt e with
    | Some t => if t =? 0 then now else t
    | None => now
    end in
  let holdTime := released - createdAt e in
  let completedCount := totalReleased m + totalRefunded m in
  let totalTime := JsNum.mul (averageHoldTime m) (JsNum.ofZ (completedCount - 1)) in
  mkMetrics (totalEscrows m) (activeEscrows m) (totalReleased m) (totalRefunded m)
    (totalDisputed m) (totalFeesCollected m)
    (JsNum.div (JsNum.add totalTime (JsNum.ofZ holdTime)) (JsNum.ofZ completedCount)).

Definition releaseEscrow (eid authorizedBy : string) (now : Z) (st : state)
    : bool * state :=
  match escrowAccounts st !! eid with
  | None => (false, st)
  | Some escrow =>
      if negb (bool_decide (status escrow = held)) then (false, st)
      else if negb (bool_decide (authorizedBy = depositor escrow)) then (false, st)
      else
        let escrow' := close_escrow released now escrow in
        let m := escrowMetrics st in
        let m' :=
          mkMetrics (totalEscrows m) (activeEscrows m - 1) (totalReleased m + 1)
            (totalRefunded m) (totalDisputed m)
            (JsNum.add (totalFeesCollected m) (fee escrow')) (averageHoldTime m) in
        (true,
         mkState (<[eid := escrow']> (escrowAccounts st)) (escrowsByDepositor st)
           (escrowsByBeneficiary st) (activeDisputes st)
           (updateAverageHoldTime escrow' now m'))
  end.

Definition refundEscrow (eid reason_ : string) (now : Z) (st : state)
    : bool * state :=
  match escrowAccounts st !! eid with
  | None => (false, st)
  | Some escrow =>
      if negb (bool_decide (status escrow = held))
         && negb (bool_decide (status escrow = disputed)) then (false, st)
      else
        let escrow' := close_escrow refunded now escrow in
        let m := escrowMetrics st in
        let m' :=
          mkMetrics (totalEscrows m) (activeEscrows m - 1) (totalReleased m)
            (totalRefunded m + 1) (totalDisputed m) (totalFeesCollected m)
            (averageHoldTime m) in
        (true,
         mkState (<[eid := escrow']> (escrowAccounts st)) (escrowsByDepositor st)
           (escrowsByBeneficiary st) (activeDisputes st)
           (updateAverageHoldTime escrow' now m'))
  end.

Definition initiateDispute (eid by_ reason_ : string) (evid : list string)
    (now : Z) (st : state) : option EscrowDispute * state :=
  match escrowAccounts st !! eid with
  | None => (None, st)
  | Some escrow =>
      if negb (bool_decide (status escrow = held)) then (None, st)
      else if negb (bool_decide (by_ = depositor escrow))
              && negb (bool_decide (by_ = beneficiary escrow)) then (None, st)
      else
        match activeDisputes st !! eid with
        | Some d => (Some d, st)
        | None =>
            let dispute := mkDispute eid by_ reason_ evid now None None in
            let m := escrowMetrics st in
            (Some dispute,
             mkState (<[eid := set_status disputed escrow]> (escrowAccounts st))
               (escrowsByDepositor st) (escrowsByBeneficiary st)
               (<[eid := dispute]> (activeDisputes st))
               (mkMetrics (totalEscrows m) (activeEscrows m) (totalReleased m)
                  (totalRefunded m) (totalDisputed m + 1) (totalFeesCollected m)
                  (averageHoldTime m)))
        end
  end.

(** [resolveDispute]. The dispute object receives [resolvedAt] and
    [resolution] and is then removed from [activeDisputes]; the stores keep
    no trace of it. *)
Definition resolveDispute (eid : string) (res : Resolution) (now : Z) (st : state)
    : bool * state :=
  match activeDisputes st !! eid, escrowAccounts st !! eid with
  | Some dispute, Some escrow =>
      if negb (bool_decide (status escrow = disputed)) then (false, st)
      else
        let m := escrowMetrics st in
        let '(escrow', m1) :=
          match res with
          | release =>
              (close_escrow released now escrow,
               mkMetrics (totalEscrows m) (activeEscrows m) (totalReleased m + 1)
                 (totalRefunded m) (totalDisputed m) (totalFeesCollected m)
                 (averageHoldTime m))
          | refund =>
              (close_escrow refunded now escrow,
               mkMetrics (totalEscrows m) (activeEscrows m) (totalReleased m)
                 (totalRefunded m + 1) (totalDisputed m) (totalFeesCollected m)
                 (averageHoldTime m))
          | split =>
              (close_escrow released now escrow,
               mkMetrics (totalEscrows m) (activeEscrows m) (totalReleased m + 1)
                 (totalRefunded m) (totalDisputed m) (totalFeesCollected m)
                 (averageHoldTime m))
          end in
        (true,
         mkState (<[eid := escrow']> (escrowAccounts st)) (escrowsByDepositor st)
           (escrowsByBeneficiary st) (delete eid (activeDisputes st))
           (mkMetrics (totalEscrows m1) (activeEscrows m1 - 1) (totalReleased m1)
              (totalRefunded m1) (totalDisputed m1) (totalFeesCollected m1)
              (averageHoldTime m1)))
  | _, _ => (false, st)
  end.

(** The test of the sweep: held and past its expiry. *)
Definition overdue (now : Z) (e : EscrowAccount) : bool :=
  bool_decide (status e = held) && (expiresAt e <? now).

(** [checkExpiredEscrows]. The ids are returned in the order of the map's
    entries; the insertion order of the JavaScript [Map] is not kept by a
    [gmap], so the order of the returned list is that of [map_to_list]. *)
Definition checkExpiredEscrows (now : Z) (st : state) : list string * state :=
  let expired_ids :=
    fst <$> filter (fun kv => overdue now (snd kv) = true) (map_to_list (escrowAccounts st)) in
  let m := escrowMetrics st in
  (expired_ids,
   mkState ((fun e => if overdue now e then set_status expired e else e) <$> escrowAccounts st)
     (escrowsByDepositor st) (escrowsByBeneficiary st) (activeDisputes st)
     (mkMetrics (totalEscrows m) (activeEscrows m - Z.of_nat (length expired_ids))
        (totalReleased m) (totalRefunded m) (totalDisputed m) (totalFeesCollected m)
        (averageHoldTime m))).

(** [extendEscrowExpiry]; the added time is a whole number of milliseconds. *)
Definition extendEscrowExpiry (eid : string) (additionalMs : Z) (st : state)
    : bool * state :=
  match escrowAccounts st !! eid with
  | None => (false, st)
  | Some escrow =>
      if negb (bool_decide (status escrow = held)) then (false, st)
      else
        (true,
         mkState (<[eid := set_expiresAt (expiresAt escrow + additionalMs) escrow]>
                    (escrowAccounts st))
           (escrowsByDepositor st) (escrowsByBeneficiary st) (activeDisputes st)
           (escrowMetrics st))
  end.

Definition calculateNetAmount (e : EscrowAccount) : JsNum.number :=
  JsNum.sub (amount e) (fee e).

(** The operations that write to the stores, as commands. *)
Inductive op :=
| CreateEscrow (dep ben : string) (amt : JsNum.number) (cond : string)
    (expiryMs : Z) (meta : option (list (string * string))) (token : string)
| ReleaseEscrow (eid authorizedBy : string)
| RefundEscrow (eid reason_ : string)
| InitiateDispute (eid by_ reason_ : string) (evid : list string)
| ResolveDispute (eid : string) (res : Resolution)
| CheckExpiredEscrows
| ExtendEscrowExpiry (eid : string) (additionalMs : Z).

Definition exec (o : op) (now : Z) (st : state) : state :=
  match o with
  | CreateEscrow dep ben amt cond expiryMs meta token =>
      snd (createEscrow dep ben amt cond expiryMs meta now token st)
  | ReleaseEscrow eid a => snd (releaseEscrow eid a now st)
  | RefundEscrow eid r => snd (refundEscrow eid r now st)
  | InitiateDispute eid b r ev => snd (initiateDispute eid b r ev now st)
  | ResolveDispute eid res => snd (resolveDispute eid res now st)
  | CheckExpiredEscrows => snd (checkExpiredEscrows now st)
  | ExtendEscrowExpiry eid ms => snd (extendEscrowExpiry eid ms st)
  end.

(** A run: commands with the clock reading of each. *)
Fixpoint run (ops : list (op * Z)) (st : state) : state :=
  match ops with
  | [] => st
  | (o, now) :: rest => run rest (exec o now st)
  end.

(** The generated id (a millisecond stamp and 96 random bits) names no
    escrow that is already stored. *)
Definition fresh_id (o : op) (now : Z) (st : state) : Prop :=
  match o with
  | CreateEscrow _ _ _ _ _ _ token =>
      escrowAccounts st !! generateEscrowId now token = None
  | _ => True
  end.

Fixpoint fresh_run (ops : list (op * Z)) (st : state) : Prop :=
  match ops with
  | [] => True
  | (o, now) :: rest => fresh_id o now st ∧ fresh_run rest (exec o now st)
  end.

(** The test of [getActiveEscrows]: held or disputed. *)
Definition is_active (e : EscrowAccount) : bool :=
  bool_decide (status e = held) || bool_decide (status e = disputed).

(** [getActiveEscrows]. The escrows come in the order of [map_to_list], not
    in the insertion order of the JavaScript [Map]; only the members of the
    list and their number are meaningful. *)
Definition getActiveEscrows (st : state) : list EscrowAccount :=
  filter (fun e => is_active e = true) (snd <$> map_to_list (escrowAccounts st)).

Definition getDisputeStatus (eid : string) (st : state) : option EscrowDispute :=
  activeDisputes st !! eid.

(** The 58 characters of the base58 alphabet. *)
Definition base58_alphabet : string :=
  "123456789ABCDEFGHJKLMNPQRSTUVWXYZabcdefghijkmnopqrstuvwxyz".

(** The loop shared by [getDepositorEscrows] and [getBeneficiaryEscrows]:
    the stored escrows of the ids of the set, in set order. *)
Definition escrows_of (ids : list string) (st : state) : list EscrowAccount :=
  omap (fun eid => escrowAccounts st !! eid) ids.

Definition getDepositorEscrows (dep : string) (st : state) : list EscrowAccount :=
  match escrowsByDepositor st !! dep with
  | None => []
  | Some ids => escrows_of ids st
  end.

Definition getBeneficiaryEscrows (ben : string) (st : state) : list EscrowAccount :=
  match escrowsByBeneficiary st !! ben with
  | None => []
  | Some ids => escrows_of ids st
  end.

End Escrow.

(** ** Transaction states ([@shared/x402]) *)

Module Transaction.

Definition TRANSACTION_EXPIRY_MS : Z := 120000.

Inductive TransactionStatus := pending | confirmed | failed | expired.

#[global] Instance TransactionStatus_eq_dec : EqDecision TransactionStatus.
Proof. solve_decision. Defined.

Record TransactionState := mkTransaction {
  id : string;
  status : TransactionStatus;
  createdAt : Z;
  confirmedAt : option Z;
  blockHeight : option Z;
  retryCount : Z
}.

(** The module-level [transactionStates]. *)
Abbreviation store := (gmap string TransactionState).

Definition set_status (x : TransactionStatus) (t : TransactionState) : TransactionState :=
  mkTransaction (id t) x (createdAt t) (confirmedAt t) (blockHeight t) (retryCount t).

Definition createTransaction (tid : string) (now : Z) (m : store)
    : TransactionState * store :=
  let state := mkTransaction tid pending now None None 0 in
  (state, <[tid := state]> m).

Definition confirmTransaction (tid : string) (height : Z) (now : Z) (m : store)
    : bool * store :=
  match m !! tid with
  | None => (false, m)
  | Some state =>
      if negb (bool_decide (status state = pending)) then (false, m)
      else (true,
            <[tid := mkTransaction (id state) confirmed (createdAt state)
                       (Some now) (Some height) (retryCount state)]> m)
  end.

Definition failTransaction (tid : string) (m : store) : bool * store :=
  match m !! tid with
  | None => (false, m)
  | Some state => (true, <[tid := set_status failed state]> m)
  end.

(** The test of [checkExpiredTransactions]. *)
Definition lapsed (now : Z) (t : TransactionState) : bool :=
  bool_decide (status t = pending) && (TRANSACTION_EXPIRY_MS <? now - createdAt t).

(** [checkExpiredTransactions]. The ids come in the order of [map_to_list],
    not in the insertion order of the JavaScript [Map]; only the members of
    the list are meaningful. *)
Definition checkExpiredTransactions (now : Z) (m : store) : list string * store :=
  (fst <$> filter (fun kv => lapsed now (snd kv) = true) (map_to_list m),
   (fun t => if lapsed now t then set_status expired t else t) <$> m).

Definition getTransactionState (tid : string) (m : store) : option TransactionState :=
  m !! tid.

(** The test of [clearCompletedTransactions]. *)
Definition completed (t : TransactionState) : bool :=
  bool_decide (status t = confirmed) || bool_decide (status t = failed)
  || bool_decide (status t = expired).

(** One iteration of the loop of [clearCompletedTransactions]. *)
Definition clear_entry (tid : string) (t : TransactionState) (acc : Z * store)
    : Z * store :=
  let '(cleared, m) := acc in
  if completed t then (cleared + 1, delete tid m) else (cleared, m).

Definition clearCompletedTransactions (m : store) : Z * store :=
  map_fold clear_entry (0, m) m.

(** The calls that change the store. *)
Inductive op :=
| Create (tid : string)
| Confirm (tid : string) (height : Z)
| Fail (tid : string)
| Sweep
| Clear.

Definition exec (o : op) (now : Z) (m : store) : store :=
  match o with
  | Create tid => snd (createTransaction tid now m)
  | Confirm tid height => snd (confirmTransaction tid height now m)
  | Fail tid => snd (failTransaction tid m)
  | Sweep => snd (checkExpiredTransactions now m)
  | Clear => snd (clearCompletedTransactions m)
  end.

(** What a call may do to the status of a stored transaction. *)
Definition moves (o : op) (a b : TransactionStatus) : Prop :=
  match o with
  | Create _ => b = pending
  | Confirm _ _ => a = pending ∧ b = confirmed
  | Fail _ => b = failed
  | Sweep => a = pending ∧ b = expired
  | Clear => False
  end.

End Transaction.

(** * Properties *)

(** ** Payment sessions *)

Module SessionSpec.
Import Session.

(** What a lazy expiry check does to one stored session. *)
Definition lazily_expired (x y : PaymentSession) : Prop :=
  y = x ∨ (status x = pending ∧ y = set_status expired x).

Lemma lazily_expired_trans x y z :
  lazily_expired x y → lazily_expired y z → lazily_expired x z.
Proof.
  intros [-> | [Hx ->]] [-> | [Hy ->]]; unfold lazily_expired; auto.
Qed.

Lemma lazily_expired_moves x y :
  lazily_expired x y → moves (status x) (status y).
Proof.
  intros [-> | [Hx ->]]; [by left |].
  right. rewrite Hx. simpl. constructor.
Qed.

Lemma getSession_lookup sid now st k x :
  sessions st !! k = Some x →
  ∃ y, sessions (snd (getSession sid now st)) !! k = Some y ∧ lazily_expired x y.
Proof.
  intros Hk. unfold getSession.
  destruct (sessions st !! sid) as [s|] eqn:Hs; simpl.
  - destruct (bool_decide (status s = pending) && (expiresAt s <? now)) eqn:Hc; simpl.
    + apply andb_true_iff in Hc as [Hp _]. apply bool_decide_eq_true in Hp.
      destruct (decide (sid = k)) as [-> | Hne].
      * rewrite lookup_insert_eq. rewrite Hk in Hs. injection Hs as <-.
        eexists; split; [done | by right].
      * rewrite lookup_insert_ne by done. eexists; split; [done | by left].
    + eexists; split; [done | by left].
  - eexists; split; [done | by left].
Qed.

Lemma getSessions_ids_lookup ids now st k x :
  sessions st !! k = Some x →
  ∃ y, sessions (snd (getSessions_ids ids now st)) !! k = Some y ∧ lazily_expired x y.
Proof.
  revert st x. induction ids as [| id rest IH]; intros st x Hk; simpl.
  - eexists; split; [done | by left].
  - destruct (getSession_lookup id now st k x Hk) as (y & Hy & Hxy).
    destruct (getSession id now st) as [r st1]. simpl in Hy.
    destruct (IH st1 y Hy) as (z & Hz & Hyz).
    destruct (getSessions_ids rest now st1) as [rs st2]. simpl in *.
    exists z. split; [done | by eapply lazily_expired_trans].
Qed.

Lemma cleanup_sessions_sub now st k y :
  sessions (snd (cleanupExpiredSessions now st)) !! k = Some y →
  sessions st !! k = Some y.
Proof.
  unfold cleanupExpiredSessions.
  apply (map_fold_weak_ind
           (fun (acc : Z * store) (_ : gmap string PaymentSession) =>
              sessions (snd acc) !! k = Some y → sessions st !! k = Some y)).
  - done.
  - intros sid s m [c st'] _ IH. unfold cleanup_entry.
    destruct (_ && _); simpl; [| exact IH].
    intros H. apply IH. simpl.
    apply lookup_delete_Some in H as [_ H]. exact H.
Qed.

(** One step of any operation moves the status of a stored session along
    at most one edge of the graph. *)
Lemma exec_moves o now st k x y :
  fresh_id o st →
  sessions st !! k = Some x →
  sessions (exec o now st) !! k = Some y →
  moves (status x) (status y).
Proof.
  intros Hfresh Hx Hy. destruct o; simpl in *.
  - destruct (decide (sid = k)) as [-> | Hne]; [congruence |].
    rewrite lookup_insert_ne in Hy by done. left. congruence.
  - destruct (getSession_lookup sid now st k x Hx) as (z & Hz & Hl).
    rewrite Hz in Hy. injection Hy as ->. by apply lazily_expired_moves.
  - unfold getSessionsByWallet in Hy.
    destruct (walletSessions st !! walletAddr) as [ids|]; simpl in Hy.
    + destruct (getSessions_ids_lookup ids now st k x Hx) as (z & Hz & Hl).
      rewrite Hz in Hy. injection Hy as ->. by apply lazily_expired_moves.
    + left. congruence.
  - unfold markSessionPaid in Hy.
    destruct (sessions st !! sid) as [s|] eqn:Hs; simpl in Hy; [| left; congruence].
    destruct (decide (status s = pending)) as [Hp|]; [| left; simpl in Hy; congruence].
    destruct (expiresAt s <? now); simpl in Hy;
      (destruct (decide (sid = k)) as [-> | Hne];
       [ rewrite lookup_insert_eq in Hy; injection Hy as <-;
         rewrite Hx in Hs; injection Hs as <-; right; rewrite Hp; simpl; constructor
       | rewrite lookup_insert_ne in Hy by done; left; congruence ]).
  - unfold markSessionUsed in Hy.
    destruct (sessions st !! sid) as [s|] eqn:Hs; simpl in Hy; [| left; congruence].
    destruct (decide (status s = paid)) as [Hp|]; [| left; simpl in Hy; congruence].
    simpl in Hy. destruct (decide (sid = k)) as [-> | Hne].
    + rewrite lookup_insert_eq in Hy. injection Hy as <-.
      rewrite Hx in Hs. injection Hs as <-. right. rewrite Hp. simpl. constructor.
    + rewrite lookup_insert_ne in Hy by done. left. congruence.
  - unfold validateSession in Hy.
    destruct (getSession_lookup sid now st k x Hx) as (z & Hz & Hl).
    destruct (getSession sid now st) as [r st']. simpl in *.
    rewrite Hz in Hy. injection Hy as ->. by apply lazily_expired_moves.
  - apply cleanup_sessions_sub in Hy. left. congruence.
  - unfold extendSession in Hy.
    destruct (sessions st !! sid) as [s|] eqn:Hs; simpl in Hy; [| left; congruence].
    destruct (decide (status s = pending)) as [Hp|]; [| left; simpl in Hy; congruence].
    simpl in Hy. destruct (decide (sid = k)) as [-> | Hne].
    + rewrite lookup_insert_eq in Hy. injection Hy as <-.
      rewrite Hx in Hs. injection Hs as <-. by left.
    + rewrite lookup_insert_ne in Hy by done. left. congruence.
Qed.

(** A concrete store: one pending session created at time 1000, which
    expires at 301000. *)
Definition demo_store : store :=
  snd (createSession "s-1" "wallet-1" "agent-1" "/api/x" "0.01" 1000 empty_store).

Definition demo_session : PaymentSession :=
  fst (createSession "s-1" "wallet-1" "agent-1" "/api/x" "0.01" 1000 empty_store).

(** C1. The status of a payment session only moves along pending→paid,
    pending→expired and paid→used. [createSession] stores the new session
    as pending. [markSessionPaid] on a pending session returns true and
    stores it with status paid (with [paidAt] and the signature), or, when
    its expiry has passed, returns false and stores it with status expired;
    on a session that is not pending it returns false and changes nothing.
    [getSession] stores an overdue pending session with status expired and
    leaves any other session as it is. [markSessionUsed] on a paid session
    returns true and stores it with status used (with [usedAt]); on any
    other session it returns false and changes nothing. And one step of any
    operation of the module moves the status of a stored session along at
    most one of the three edges, so that an expired or used session keeps
    its status. *)
Theorem session_status_transitions :
  (∀ sid w a r amt now st,
     status (fst (createSession sid w a r amt now st)) = pending ∧
     sessions (snd (createSession sid w a r amt now st)) !! sid
       = Some (fst (createSession sid w a r amt now st)))
  ∧ (∀ sid sig now st s,
       sessions st !! sid = Some s → status s = pending →
       markSessionPaid sid sig now st
       = if expiresAt s <? now
         then (false,
               mkStore
                 (<[sid := mkSession (sessionId s) (walletAddress s) (agentId s)
                             (resource s) (amountRequired s) expired (createdAt s)
                             (expiresAt s) (paidAt s) (transactionSignature s)
                             (usedAt s)]> (sessions st))
                 (walletSessions st))
         else (true,
               mkStore
                 (<[sid := mkSession (sessionId s) (walletAddress s) (agentId s)
                             (resource s) (amountRequired s) paid (createdAt s)
                             (expiresAt s) (Some now) (Some sig) (usedAt s)]>
                    (sessions st))
                 (walletSessions st)))
  ∧ (∀ sid sig now st s,
       sessions st !! sid = Some s → status s ≠ pending →
       markSessionPaid sid sig now st = (false, st))
  ∧ (∀ sid now st s,
       sessions st !! sid = Some s →
       getSession sid now st
       = if bool_decide (status s = pending) && (expiresAt s <? now)
         then (Some (mkSession (sessionId s) (walletAddress s) (agentId s)
                       (resource s) (amountRequired s) expired (createdAt s)
                       (expiresAt s) (paidAt s) (transactionSignature s) (usedAt s)),
               mkStore
                 (<[sid := mkSession (sessionId s) (walletAddress s) (agentId s)
                             (resource s) (amountRequired s) expired (createdAt s)
                             (expiresAt s) (paidAt s) (transactionSignature s)
                             (usedAt s)]> (sessions st))
                 (walletSessions st))
         else (Some s, st))
  ∧ (∀ sid now st s,
       sessions st !! sid = Some s → status s = paid →
       markSessionUsed sid now st
       = (true,
          mkStore
            (<[sid := mkSession (sessionId s) (walletAddress s) (agentId s)
                        (resource s) (amountRequired s) used (createdAt s)
                        (expiresAt s) (paidAt s) (transactionSignature s)
                        (Some now)]> (sessions st))
            (walletSessions st)))
  ∧ (∀ sid now st s,
       sessions st !! sid = Some s → status s ≠ paid →
       markSessionUsed sid now st = (false, st))
  ∧ (∀ o now st k x y,
       fresh_id o st →
       sessions st !! k = Some x →
       sessions (exec o now st) !! k = Some y →
       moves (status x) (status y))
  ∧ (∀ o now st k x y,
       fresh_id o st →
       sessions st !! k = Some x →
       sessions (exec o now st) !! k = Some y →
       status x = expired ∨ status x = used →
       status y = status x).
Proof.
  split; [| split; [| split; [| split; [| split; [| split; [| split]]]]]].
  - intros. simpl. split; [done | apply lookup_insert_eq].
  - intros sid sig now st s Hs Hp. unfold markSessionPaid. rewrite Hs.
    destruct (decide (status s = pending)); [| done].
    by destruct (expiresAt s <? now).
  - intros sid sig now st s Hs Hp. unfold markSessionPaid. rewrite Hs.
    by destruct (decide (status s = pending)).
  - intros sid now st s Hs. unfold getSession. rewrite Hs.
    by destruct (bool_decide (status s = pending) && (expiresAt s <? now)).
  - intros sid now st s Hs Hp. unfold markSessionUsed. rewrite Hs.
    by destruct (decide (status s = paid)).
  - intros sid now st s Hs Hp. unfold markSessionUsed. rewrite Hs.
    by destruct (decide (status s = paid)).
  - apply exec_moves.
  - intros o now st k x y Hf Hx Hy Hterm.
    destruct (exec_moves o now st k x y Hf Hx Hy) as [H | H]; [congruence |].
    destruct H, Hterm; discriminate.
Qed.

Lemma session_status_transitions_witness :
  markSessionPaid "s-1" "sig" 2000 demo_store
  = (true,
     mkStore
       (<["s-1" := mkSession "s-1" "wallet-1" "agent-1" "/api/x" "0.01" paid 1000
                     301000 (Some 2000) (Some "sig") None]> (sessions demo_store))
       (walletSessions demo_store))
  ∧ markSessionUsed "s-1" 3000 (snd (markSessionPaid "s-1" "sig" 2000 demo_store))
    = (true,
       mkStore
         (<["s-1" := mkSession "s-1" "wallet-1" "agent-1" "/api/x" "0.01" used 1000
                       301000 (Some 2000) (Some "sig") (Some 3000)]>
            (sessions (snd (markSessionPaid "s-1" "sig" 2000 demo_store))))
         (walletSessions (snd (markSessionPaid "s-1" "sig" 2000 demo_store))))
  ∧ moves (status demo_session)
      (status (mkSession "s-1" "wallet-1" "agent-1" "/api/x" "0.01" paid 1000
                 301000 (Some 2000) (Some "sig") None)).
Proof.
  split; [| split].
  - refine (proj1 (proj2 session_status_transitions)
              "s-1" "sig" 2000 demo_store demo_session _ _).
    + vm_compute. reflexivity.
    + reflexivity.
  - refine (proj1 (proj2 (proj2 (proj2 (proj2 session_status_transitions))))
              "s-1" 3000 (snd (markSessionPaid "s-1" "sig" 2000 demo_store))
              (mkSession "s-1" "wallet-1" "agent-1" "/api/x" "0.01" paid 1000
                 301000 (Some 2000) (Some "sig") None) _ _).
    + vm_compute. reflexivity.
    + reflexivity.
  - refine (proj1 (proj2 (proj2 (proj2 (proj2 (proj2 (proj2
                     session_status_transitions))))))
              (MarkSessionPaid "s-1" "sig") 2000 demo_store "s-1" demo_session
              (mkSession "s-1" "wallet-1" "agent-1" "/api/x" "0.01" paid 1000
                 301000 (Some 2000) (Some "sig") None) _ _ _).
    + exact I.
    + vm_compute. reflexivity.
    + vm_compute. reflexivity.
Defined.

(** C2. [markSessionPaid] on a pending session whose expiry is strictly in
    the past returns false and stores the session as expired, with every
    other field (among them [paidAt] and [transactionSignature]) as it was;
    no other session and no wallet index changes. *)
Theorem markSessionPaid_after_expiry sid sig now st s :
  sessions st !! sid = Some s →
  status s = pending →
  expiresAt s < now →
  markSessionPaid sid sig now st
    = (false, mkStore (<[sid := set_status expired s]> (sessions st))
                (walletSessions st))
  ∧ (∀ s', sessions (snd (markSessionPaid sid sig now st)) !! sid = Some s' →
       status s' = expired ∧
       paidAt s' = paidAt s ∧
       transactionSignature s' = transactionSignature s).
Proof.
  intros Hs Hp Hexp.
  assert (Heq : markSessionPaid sid sig now st
    = (false, mkStore (<[sid := set_status expired s]> (sessions st))
                (walletSessions st))).
  { unfold markSessionPaid. rewrite Hs.
    destruct (decide (status s = pending)); [| done].
    apply Z.ltb_lt in Hexp. by rewrite Hexp. }
  split; [exact Heq |].
  intros s'. rewrite Heq. simpl. rewrite lookup_insert_eq.
  intros [= <-]. done.
Qed.

Lemma markSessionPaid_after_expiry_witness :
  markSessionPaid "s-1" "sig" 400000 demo_store
    = (false, mkStore (<["s-1" := set_status expired demo_session]> (sessions demo_store))
                (walletSessions demo_store))
  ∧ (∀ s', sessions (snd (markSessionPaid "s-1" "sig" 400000 demo_store)) !! "s-1" = Some s' →
       status s' = expired ∧
       paidAt s' = paidAt demo_session ∧
       transactionSignature s' = transactionSignature demo_session).
Proof.
  apply (markSessionPaid_after_expiry "s-1" "sig" 400000 demo_store demo_session).
  - vm_compute. reflexivity.
  - reflexivity.
  - vm_compute. reflexivity.
Defined.

End SessionSpec.

(** ** Escrow ledger *)

Module EscrowSpec.
Import Escrow.

(** The status changes one command can make to the escrow stored under
    [eid]. *)
Definition may_change (o : op) (eid : string) (a b : EscrowStatus) : Prop :=
  match o with
  | ReleaseEscrow i _ => i = eid ∧ a = held ∧ b = released
  | RefundEscrow i _ => i = eid ∧ (a = held ∨ a = disputed) ∧ b = refunded
  | InitiateDispute i _ _ _ => i = eid ∧ a = held ∧ b = disputed
  | ResolveDispute i res =>
      i = eid ∧ a = disputed ∧
      b = match res with refund => refunded | _ => released end
  | CheckExpiredEscrows => a = held ∧ b = expired
  | _ => False
  end.

Ltac case_bool_decide_all :=
  repeat match goal with
  | |- context [bool_decide ?P] => destruct (bool_decide_reflect P); simpl
  | H : context [bool_decide ?P] |- _ =>
      destruct (bool_decide_reflect P); simpl in H
  end.

Ltac lookup_at i k :=
  let E := fresh "E" in
  destruct (decide (i = k)) as [E | E];
  [ first [subst i | rewrite E in *]; rewrite ?lookup_insert_eq
  | rewrite ?lookup_insert_ne by done ].

(** Every command keeps a stored escrow stored, and changes its status only
    as [may_change] allows. *)
Lemma exec_lookup o now st eid e :
  fresh_id o now st →
  escrowAccounts st !! eid = Some e →
  ∃ e', escrowAccounts (exec o now st) !! eid = Some e' ∧
        (status e' = status e ∨ may_change o eid (status e) (status e')).
Proof.
  intros Hfresh He. destruct o; cbn [exec fresh_id may_change] in *.
  - unfold createEscrow.
    destruct (_ || _); [eauto |]. destruct (_ || _); [eauto |].
    destruct (bool_decide _); [eauto |]. simpl.
    lookup_at (generateEscrowId now token) eid; [congruence | eauto].
  - unfold releaseEscrow.
    destruct (escrowAccounts st !! eid0) as [x|] eqn:Hx; [| eauto].
    case_bool_decide_all; eauto.
    lookup_at eid0 eid; [| eauto].
    assert (x = e) as -> by congruence.
    eexists; split; [done |]. right. simpl. auto.
  - unfold refundEscrow.
    destruct (escrowAccounts st !! eid0) as [x|] eqn:Hx; [| eauto].
    destruct (negb (bool_decide (status x = held))
              && negb (bool_decide (status x = disputed))) eqn:Hc; [eauto |].
    simpl. lookup_at eid0 eid; [| eauto].
    assert (x = e) as -> by congruence.
    eexists; split; [done |]. right. simpl. split; [done |]. split; [| done].
    apply andb_false_iff in Hc as [Hc | Hc]; apply negb_false_iff in Hc;
      apply bool_decide_eq_true in Hc; auto.
  - unfold initiateDispute.
    destruct (escrowAccounts st !! eid0) as [x|] eqn:Hx; [| eauto].
    destruct (negb (bool_decide (status x = held))) eqn:Hh; [eauto |].
    destruct (_ && _); [eauto |].
    destruct (activeDisputes st !! eid0); [eauto |]. simpl.
    lookup_at eid0 eid; [| eauto].
    assert (x = e) as -> by congruence.
    apply negb_false_iff, bool_decide_eq_true in Hh.
    eexists; split; [done |]. right. simpl. auto.
  - unfold resolveDispute.
    destruct (activeDisputes st !! eid0) as [d|]; [| eauto].
    destruct (escrowAccounts st !! eid0) as [x|] eqn:Hx; [| eauto].
    destruct (negb (bool_decide (status x = disputed))) eqn:Hd; [eauto |].
    apply negb_false_iff, bool_decide_eq_true in Hd.
    destruct res; simpl; (lookup_at eid0 eid; [| eauto]);
      assert (x = e) as -> by congruence;
      (eexists; split; [done |]); right; simpl; auto.
  - unfold checkExpiredEscrows. cbn [snd escrowAccounts].
    rewrite lookup_fmap, He. simpl. eexists; split; [done |].
    unfold overdue. destruct (bool_decide_reflect (status e = held)); simpl; [| auto].
    destruct (expiresAt e <? now); simpl; auto.
  - unfold extendEscrowExpiry.
    destruct (escrowAccounts st !! eid0) as [x|] eqn:Hx; [| eauto].
    destruct (negb (bool_decide (status x = held))); [eauto |]. simpl.
    lookup_at eid0 eid; [| eauto].
    assert (x = e) as -> by congruence. eauto.
Qed.

(** A status other than held and disputed is final. *)
Lemma exec_final o now st eid e :
  fresh_id o now st →
  escrowAccounts st !! eid = Some e →
  status e ≠ held → status e ≠ disputed →
  ∃ e', escrowAccounts (exec o now st) !! eid = Some e' ∧ status e' = status e.
Proof.
  intros Hf He Hh Hd.
  destruct (exec_lookup o now st eid e Hf He) as (e' & He' & [Hs | Hc]); [eauto |].
  exfalso. destruct o; simpl in Hc; intuition.
Qed.

Lemma run_final ops st eid e :
  fresh_run ops st →
  escrowAccounts st !! eid = Some e →
  status e ≠ held → status e ≠ disputed →
  ∃ e', escrowAccounts (run ops st) !! eid = Some e' ∧ status e' = status e.
Proof.
  revert st e. induction ops as [| [o now] rest IH]; intros st e Hf He Hh Hd; simpl.
  - eauto.
  - destruct Hf as [Hf Hrest].
    destruct (exec_final o now st eid e Hf He Hh Hd) as (e1 & He1 & Hs1).
    destruct (IH _ e1 Hrest He1) as (e2 & He2 & Hs2); [congruence | congruence |].
    exists e2. split; [done | congruence].
Qed.

(** Two addresses of the base58 pattern, and the ledger after an escrow of
    10 between them was created at time 1000 and disputed at time 2000. *)
Definition addr_a : string := "11111111111111111111111111111111".
Definition addr_b : string := "22222222222222222222222222222222".

Definition created_demo : state :=
  snd (createEscrow addr_a addr_b (JsNum.ofZ 10) "cond" ESCROW_EXPIRY_MS None
         1000 "00aa" initial_state).

Definition demo_id : string := generateEscrowId 1000 "00aa".

Definition disputed_demo : state :=
  snd (initiateDispute demo_id addr_b "late" [] 2000 created_demo).

Definition status_of (eid : string) (st : state) : option EscrowStatus :=
  status <$> escrowAccounts st !! eid.

(** C3. [releaseEscrow] returns false and changes nothing when the caller
    is not the recorded depositor; and once it has returned true for an id,
    the escrow is released and, whatever commands run afterwards (each
    created escrow receiving a fresh id), every later [releaseEscrow] on
    that id returns false and changes nothing: it succeeds at most once. *)
Theorem releaseEscrow_depositor_once (eid : string) :
  (∀ a now st e,
     escrowAccounts st !! eid = Some e → a ≠ depositor e →
     releaseEscrow eid a now st = (false, st))
  ∧ (∀ a now st st1,
       releaseEscrow eid a now st = (true, st1) →
       status_of eid st1 = Some released ∧
       ∀ ops a' now',
         fresh_run ops st1 →
         releaseEscrow eid a' now' (run ops st1) = (false, run ops st1)).
Proof.
  split.
  - intros a now st e He Hne. unfold releaseEscrow. rewrite He.
    destruct (negb (bool_decide (status e = held))); [done |].
    by rewrite bool_decide_eq_false_2.
  - intros a now st st1 Hrel.
    assert (H1 : ∃ e1, escrowAccounts st1 !! eid = Some e1 ∧ status e1 = released).
    { unfold releaseEscrow in Hrel.
      destruct (escrowAccounts st !! eid) as [e|]; [| done].
      destruct (negb (bool_decide (status e = held))); [done |].
      destruct (negb (bool_decide (a = depositor e))); [done |].
      injection Hrel as <-. simpl. rewrite lookup_insert_eq. eauto. }
    destruct H1 as (e1 & He1 & Hs1). split.
    + unfold status_of. by rewrite He1; simpl; rewrite Hs1.
    + intros ops a' now' Hfresh.
      destruct (run_final ops st1 eid e1 Hfresh He1) as (e2 & He2 & Hs2);
        [congruence | congruence |].
      unfold releaseEscrow. rewrite He2.
      rewrite bool_decide_eq_false_2 by congruence. done.
Qed.

Lemma releaseEscrow_depositor_once_witness :
  releaseEscrow demo_id addr_b 1500 created_demo = (false, created_demo)
  ∧ status_of demo_id (snd (releaseEscrow demo_id addr_a 1500 created_demo))
      = Some released
  ∧ fst (releaseEscrow demo_id addr_a 1600
           (run [(ExtendEscrowExpiry demo_id 5, 1550)]
              (snd (releaseEscrow demo_id addr_a 1500 created_demo)))) = false.
Proof.
  pose proof (releaseEscrow_depositor_once demo_id) as [Hdep Honce].
  split.
  - apply (Hdep addr_b 1500 created_demo
             (mkEscrow demo_id addr_a addr_b (JsNum.ofZ 10) (JsNum.dec 5 2) held
                1000 (1000 + ESCROW_EXPIRY_MS) None "cond" None)).
    + vm_compute. reflexivity.
    + discriminate.
  - destruct (Honce addr_a 1500 created_demo
                (snd (releaseEscrow demo_id addr_a 1500 created_demo))) as [Hs Hlater].
    + vm_compute. reflexivity.
    + split; [exact Hs |].
      rewrite (Hlater [(ExtendEscrowExpiry demo_id 5, 1550)] addr_a 1600).
      * reflexivity.
      * simpl. auto.
Defined.

(** C4, as the code has it. A disputed escrow keeps its status under
    [releaseEscrow], under the expiry sweep [checkExpiredEscrows], and under
    every command other than a refund or a dispute resolution of that very
    escrow; [refundEscrow] on a disputed escrow returns true and stores it
    as refunded; [resolveDispute] with an active dispute record returns true
    and stores it as refunded (resolution refund) or released (resolutions
    release and split). *)
Theorem disputed_frozen_but_for_refund_and_resolution st eid e :
  escrowAccounts st !! eid = Some e →
  status e = disputed →
  (∀ a now, releaseEscrow eid a now st = (false, st))
  ∧ (∀ now, status_of eid (snd (checkExpiredEscrows now st)) = Some disputed)
  ∧ (∀ o now,
       fresh_id o now st →
       (∀ r, o ≠ RefundEscrow eid r) →
       (∀ res, o ≠ ResolveDispute eid res) →
       status_of eid (exec o now st) = Some disputed)
  ∧ (∀ r now,
       fst (refundEscrow eid r now st) = true ∧
       status_of eid (snd (refundEscrow eid r now st)) = Some refunded)
  ∧ (∀ res now d,
       activeDisputes st !! eid = Some d →
       fst (resolveDispute eid res now st) = true ∧
       status_of eid (snd (resolveDispute eid res now st))
         = Some match res with refund => refunded | _ => released end).
Proof.
  intros He Hd.
  assert (Hfrozen : ∀ o now,
       fresh_id o now st →
       (∀ r, o ≠ RefundEscrow eid r) →
       (∀ res, o ≠ ResolveDispute eid res) →
       status_of eid (exec o now st) = Some disputed).
  { intros o now Hf Hr Hres.
    destruct (exec_lookup o now st eid e Hf He) as (e' & He' & Hs).
    unfold status_of. rewrite He'. simpl. f_equal.
    destruct Hs as [Hs | Hc]; [congruence |].
    exfalso. rewrite Hd in Hc.
    destruct o; simpl in Hc; try (by intuition discriminate).
    - destruct Hc as (-> & _). by eapply Hr.
    - destruct Hc as (-> & _). by eapply Hres. }
  repeat split.
  - intros a now. unfold releaseEscrow. rewrite He.
    by rewrite bool_decide_eq_false_2 by congruence.
  - intros now. by apply (Hfrozen CheckExpiredEscrows now).
  - exact Hfrozen.
  - unfold refundEscrow. rewrite He, Hd. done.
  - unfold refundEscrow, status_of. rewrite He, Hd. simpl.
    by rewrite lookup_insert_eq.
  - unfold resolveDispute. rewrite H, He, Hd. by destruct res.
  - unfold resolveDispute, status_of. rewrite H, He, Hd.
    destruct res; simpl; by rewrite lookup_insert_eq.
Qed.

Lemma disputed_frozen_but_for_refund_and_resolution_witness :
  releaseEscrow demo_id addr_a 3000 disputed_demo = (false, disputed_demo)
  ∧ status_of demo_id (snd (refundEscrow demo_id "r" 3000 disputed_demo))
      = Some refunded.
Proof.
  destruct (disputed_frozen_but_for_refund_and_resolution disputed_demo demo_id
              (set_status disputed
                 (mkEscrow demo_id addr_a addr_b (JsNum.ofZ 10) (JsNum.dec 5 2) held
                    1000 (1000 + ESCROW_EXPIRY_MS) None "cond" None)))
    as (Hrel & _ & _ & Hrefund & _).
  - vm_compute. reflexivity.
  - reflexivity.
  - split; [apply Hrel | apply Hrefund].
Defined.

(** C4, as stated, fails: the disputed escrow of [disputed_demo] is not
    frozen under [refundEscrow], which returns true and stores it as
    refunded. *)
Lemma refundEscrow_unfreezes_disputed :
  status_of demo_id disputed_demo = Some disputed
  ∧ fst (refundEscrow demo_id "changed my mind" 3000 disputed_demo) = true
  ∧ status_of demo_id (snd (refundEscrow demo_id "changed my mind" 3000 disputed_demo))
      = Some refunded.
Proof. vm_compute. auto. Qed.

(** C5. On a disputed escrow with an active dispute record,
    [resolveDispute] with resolution split returns true, stores the escrow
    as released and adds one to [totalReleased]; the resulting stores are
    exactly those of resolution release. *)
Theorem resolveDispute_split_is_release eid now st e d :
  escrowAccounts st !! eid = Some e →
  status e = disputed →
  activeDisputes st !! eid = Some d →
  fst (resolveDispute eid split now st) = true
  ∧ status_of eid (snd (resolveDispute eid split now st)) = Some released
  ∧ totalReleased (escrowMetrics (snd (resolveDispute eid split now st)))
      = totalReleased (escrowMetrics st) + 1
  ∧ resolveDispute eid split now st = resolveDispute eid release now st.
Proof.
  intros He Hs Hd. unfold resolveDispute, status_of. rewrite Hd, He, Hs. simpl.
  rewrite lookup_insert_eq. done.
Qed.

Lemma resolveDispute_split_is_release_witness :
  fst (resolveDispute demo_id split 3000 disputed_demo) = true
  ∧ status_of demo_id (snd (resolveDispute demo_id split 3000 disputed_demo))
      = Some released
  ∧ totalReleased (escrowMetrics (snd (resolveDispute demo_id split 3000 disputed_demo)))
      = totalReleased (escrowMetrics disputed_demo) + 1
  ∧ resolveDispute demo_id split 3000 disputed_demo
      = resolveDispute demo_id release 3000 disputed_demo.
Proof.
  apply (resolveDispute_split_is_release demo_id 3000 disputed_demo
           (set_status disputed
              (mkEscrow demo_id addr_a addr_b (JsNum.ofZ 10) (JsNum.dec 5 2) held
                 1000 (1000 + ESCROW_EXPIRY_MS) None "cond" None))
           (mkDispute demo_id addr_b "late" [] 2000 None None)).
  - vm_compute. reflexivity.
  - reflexivity.
  - vm_compute. reflexivity.
Defined.

Lemma amount_10_in_range :
  JsNum.lt (JsNum.ofZ 10) MIN_ESCROW_AMOUNT
  || JsNum.lt MAX_ESCROW_AMOUNT (JsNum.ofZ 10) = false.
Proof. vm_compute. reflexivity. Qed.

(** In binary64, 10 * (0.5 / 100) is the double written 0.05. *)
Lemma fee_of_10 : calculateEscrowFee (JsNum.ofZ 10) = JsNum.dec 5 2.
Proof. vm_compute. reflexivity. Qed.

(** C9. For distinct addresses [a] and [b] of the base58 pattern,
    [createEscrow a b 10 "cond"] (default expiry, no metadata) returns a
    record that is held and whose fee is the double 0.05; [refundEscrow] on
    the id of that record then returns true, stores it as refunded and
    lowers [activeEscrows] by exactly one. *)
Theorem createEscrow_then_refund a b now token reason_ now' st :
  validateSolanaAddress a = true →
  validateSolanaAddress b = true →
  a ≠ b →
  ∃ e st1 st2,
    createEscrow a b (JsNum.ofZ 10) "cond" ESCROW_EXPIRY_MS None now token st
      = (Some e, st1)
    ∧ status e = held
    ∧ fee e = JsNum.dec 5 2
    ∧ refundEscrow (id e) reason_ now' st1 = (true, st2)
    ∧ status_of (id e) st2 = Some refunded
    ∧ activeEscrows (escrowMetrics st2) = activeEscrows (escrowMetrics st1) - 1.
Proof.
  intros Ha Hb Hab. unfold createEscrow.
  rewrite Ha, Hb, amount_10_in_range, fee_of_10.
  rewrite bool_decide_eq_false_2 by done.
  cbn [negb orb]. do 3 eexists. split; [reflexivity |].
  split; [reflexivity |]. split; [reflexivity |].
  unfold refundEscrow, status_of. cbn [id escrowAccounts].
  rewrite lookup_insert_eq. cbn [status negb bool_decide andb].
  split; [reflexivity |]. cbn [snd escrowAccounts].
  rewrite lookup_insert_eq. split; [reflexivity |].
  cbn. lia.
Qed.

Lemma createEscrow_then_refund_witness :
  ∃ e st1 st2,
    createEscrow addr_a addr_b (JsNum.ofZ 10) "cond" ESCROW_EXPIRY_MS None 1000 "00aa"
      initial_state = (Some e, st1)
    ∧ status e = held
    ∧ fee e = JsNum.dec 5 2
    ∧ refundEscrow (id e) "no longer needed" 2000 st1 = (true, st2)
    ∧ status_of (id e) st2 = Some refunded
    ∧ activeEscrows (escrowMetrics st2) = activeEscrows (escrowMetrics st1) - 1.
Proof.
  apply (createEscrow_then_refund addr_a addr_b 1000 "00aa" "no longer needed" 2000
           initial_state).
  - vm_compute. reflexivity.
  - vm_compute. reflexivity.
  - discriminate.
Defined.

End EscrowSpec.

(** ** Rate limiter *)

Module RateLimitSpec.
Import RateLimit.

Lemma append_nil (s : string) : "" +:+ s = s.
Proof. reflexivity. Qed.

Lemma append_cons (c : ascii) (s t : string) :
  String c s +:+ t = String c (s +:+ t).
Proof. reflexivity. Qed.

Lemma length_append (s t : string) :
  String.length (s +:+ t) = (String.length s + String.length t)%nat.
Proof.
  induction s as [| c s IH]; [done |].
  rewrite append_cons. simpl. by rewrite IH.
Qed.

(** Two strings that end in tails of the same length end in the same tail. *)
Lemma append_tail_inj (t t' : string) :
  String.length t = String.length t' →
  ∀ s s', s +:+ t = s' +:+ t' → t = t'.
Proof.
  intros Hlen. induction s as [| c s IH]; intros s' Heq.
  - destruct s' as [| c' s']; [done |].
    apply (f_equal String.length) in Heq.
    rewrite !length_append in Heq. simpl in Heq. lia.
  - destruct s' as [| c' s'].
    + apply (f_equal String.length) in Heq.
      rewrite !length_append in Heq. simpl in Heq. lia.
    + rewrite !append_cons in Heq. injection Heq as _ Heq. by eapply IH.
Qed.

Lemma append_assoc (a b c : string) : (a +:+ b) +:+ c = a +:+ (b +:+ c).
Proof.
  induction a as [| x a IH]; [done |].
  rewrite !append_cons. by rewrite IH.
Qed.

(** The last two characters of a key give its type. *)
Definition type_stem (t : RateLimitType) : string :=
  match t with
  | request => "reque"
  | payment => "payme"
  | execution => "executi"
  end.

Definition type_tail (t : RateLimitType) : string :=
  match t with
  | request => "st"
  | payment => "nt"
  | execution => "on"
  end.

Lemma getBucketKey_split w t :
  getBucketKey w t = (w +:+ ":" +:+ type_stem t) +:+ type_tail t.
Proof.
  unfold getBucketKey. rewrite !append_assoc. f_equal. by destruct t.
Qed.

(** [getBucketKey] determines the type. *)
Lemma getBucketKey_type w t w' t' :
  getBucketKey w t = getBucketKey w' t' → t = t'.
Proof.
  rewrite !getBucketKey_split. intros Heq.
  apply append_tail_inj in Heq; [| by destruct t, t'].
  by destruct t, t'.
Qed.

(** What holds of every bucket stored under key [k]. *)
Definition bucket_ok (k : string) (b : RateLimitBucket) : Prop :=
  k = getBucketKey (walletAddress b) (type b)
  ∧ 0 <= count b <= getMaxForType (type b)
  ∧ 0 <= violations b.

Definition buckets_ok (m : gmap string RateLimitBucket) : Prop :=
  ∀ k b, m !! k = Some b → bucket_ok k b.

Lemma getMaxForType_pos t : 0 < getMaxForType t.
Proof. by destruct t. Qed.

Lemma buckets_ok_insert m k b :
  buckets_ok m → bucket_ok k b → buckets_ok (<[k := b]> m).
Proof.
  intros Hm Hb k' b' Hk'.
  destruct (decide (k = k')) as [-> | Hne].
  - rewrite lookup_insert_eq in Hk'. by injection Hk' as <-.
  - rewrite lookup_insert_ne in Hk' by done. by apply Hm.
Qed.

Lemma new_window_ok w t now old :
  (∀ b, old = Some b → 0 <= violations b) →
  bucket_ok (getBucketKey w t) (new_window w t now old).
Proof.
  intros Hv. unfold bucket_ok, new_window. simpl.
  pose proof (getMaxForType_pos t). repeat split; try lia.
  destruct old as [b|]; [by apply Hv | lia].
Qed.

(** [current_window], called with the bucket found under the key, returns
    the bucket the map it returns has under the key, and keeps the buckets
    well formed. *)
Lemma current_window_spec w t now old m :
  buckets_ok m →
  m !! getBucketKey w t = old →
  ∀ b m', current_window w t now old m = (b, m') →
    buckets_ok m' ∧ m' !! getBucketKey w t = Some b
    ∧ (b = new_window w t now old
       ∨ (old = Some b ∧ m' = m ∧ now - windowStart b < WINDOW_SIZE_MS)).
Proof.
  intros Hm Hold b m' Hcw. unfold current_window in Hcw.
  assert (Hnew : bucket_ok (getBucketKey w t) (new_window w t now old)).
  { apply new_window_ok. intros b0 Hb0. subst old. by apply (Hm _ _ Hb0). }
  destruct old as [b0|].
  - destruct (Z.leb_spec WINDOW_SIZE_MS (now - windowStart b0)).
    + injection Hcw as <- <-. split; [by apply buckets_ok_insert |].
      split; [by rewrite lookup_insert_eq | by left].
    + injection Hcw as <- <-. split; [done |]. split; [done |]. right. done.
  - injection Hcw as <- <-. split; [by apply buckets_ok_insert |].
    split; [by rewrite lookup_insert_eq | by left].
Qed.

Lemma unblock_ok k b : bucket_ok k b → bucket_ok k (unblock b).
Proof. done. Qed.

Lemma checkRateLimit_ok w t now st :
  buckets_ok (rateLimitBuckets st) →
  buckets_ok (rateLimitBuckets (snd (checkRateLimit w t now st))).
Proof.
  intros Hm. unfold checkRateLimit.
  destruct (rateLimitBuckets st !! getBucketKey w t) as [b|] eqn:Hb.
  - destruct (block_end b) as [u|].
    + destruct (now <? u); [done |].
      destruct (current_window w t now (Some (unblock b))
                  (<[getBucketKey w t := unblock b]> (rateLimitBuckets st)))
        as [b1 m1] eqn:Hcw.
      apply current_window_spec in Hcw as (Hok & _).
      * done.
      * apply buckets_ok_insert; [done |]. apply unblock_ok. by apply Hm.
      * by rewrite lookup_insert_eq.
    + destruct (current_window w t now (Some b) (rateLimitBuckets st))
        as [b1 m1] eqn:Hcw.
      apply current_window_spec in Hcw as (Hok & _); done.
  - destruct (current_window w t now None (rateLimitBuckets st))
      as [b1 m1] eqn:Hcw.
    apply current_window_spec in Hcw as (Hok & _); done.
Qed.

Lemma recordUsage_ok w agent t amt ok now st :
  buckets_ok (rateLimitBuckets st) →
  buckets_ok (rateLimitBuckets (snd (recordUsage w agent t amt ok now st))).
Proof.
  intros Hm. unfold recordUsage.
  destruct (current_window w t now (rateLimitBuckets st !! getBucketKey w t)
              (rateLimitBuckets st)) as [b m] eqn:Hcw.
  apply current_window_spec in Hcw as (Hok & Hb & _); [| done | done].
  destruct (Hok _ _ Hb) as (Hkey & Hcount & Hviol).
  destruct (Z.leb_spec (getMaxForType t) (count b)).
  - destruct (3 <=? violations b + 1); simpl;
      (apply buckets_ok_insert; [done |]); unfold bucket_ok; simpl;
      repeat split; (done || lia).
  - simpl. apply buckets_ok_insert; [done |]. unfold bucket_ok. simpl.
    assert (type b = t) as Ht by (symmetry; by eapply getBucketKey_type).
    rewrite Ht in *. repeat split; (done || lia).
Qed.

Lemma unblock_type_ok w t acc :
  buckets_ok (snd acc) → buckets_ok (snd (unblock_type w t acc)).
Proof.
  destruct acc as [u m]. simpl. intros Hm.
  destruct (m !! getBucketKey w t) as [b|] eqn:Hb; [| done].
  destruct (blocked b); [| done]. simpl.
  apply buckets_ok_insert; [done |].
  destruct (Hm _ _ Hb) as (Hkey & Hcount & Hviol).
  unfold bucket_ok. simpl. repeat split; (done || lia).
Qed.

Lemma unblockWallet_ok w st :
  buckets_ok (rateLimitBuckets st) →
  buckets_ok (rateLimitBuckets (snd (unblockWallet w st))).
Proof.
  intros Hm. unfold unblockWallet.
  assert (Hok : buckets_ok
            (snd (unblock_type w execution
                    (unblock_type w payment
                       (unblock_type w request (false, rateLimitBuckets st))))))
    by (do 3 apply unblock_type_ok; done).
  destruct (unblock_type w execution _) as [u m].
  by destruct u.
Qed.

Lemma cleanupOldData_ok age now st :
  buckets_ok (rateLimitBuckets st) →
  buckets_ok (rateLimitBuckets (snd (cleanupOldData age now st))).
Proof.
  intros Hm k b Hk. simpl in Hk.
  apply map_lookup_filter_Some in Hk as [Hk _]. by apply Hm.
Qed.

Lemma exec_ok o now st :
  buckets_ok (rateLimitBuckets st) →
  buckets_ok (rateLimitBuckets (exec o now st)).
Proof.
  destruct o; simpl.
  - apply checkRateLimit_ok.
  - apply recordUsage_ok.
  - apply unblockWallet_ok.
  - apply cleanupOldData_ok.
Qed.

Lemma run_ok ops st :
  buckets_ok (rateLimitBuckets st) →
  buckets_ok (rateLimitBuckets (run ops st)).
Proof.
  revert st. induction ops as [| [o now] rest IH]; intros st Hm; simpl; [done |].
  by apply IH, exec_ok.
Qed.

Lemma initial_ok : buckets_ok (rateLimitBuckets initial_state).
Proof. intros k b Hk. simpl in Hk. by rewrite lookup_empty in Hk. Qed.

(** A bucket at its ceiling inside its window makes [checkRateLimit] deny. *)
Lemma checkRateLimit_at_ceiling w t now st b :
  rateLimitBuckets st !! getBucketKey w t = Some b →
  getMaxForType t <= count b →
  now - windowStart b < WINDOW_SIZE_MS →
  allowed (fst (checkRateLimit w t now st)) = false.
Proof.
  intros Hb Hfull Hwin. unfold checkRateLimit. rewrite Hb.
  assert (Hexp : (WINDOW_SIZE_MS <=? now - windowStart b) = false)
    by (apply Z.leb_gt; lia).
  assert (Hlt : (count b <? getMaxForType t) = false) by (apply Z.ltb_ge; lia).
  destruct (block_end b) as [u|].
  - destruct (now <? u); [done |].
    unfold current_window. simpl. rewrite Hexp. simpl. exact Hlt.
  - unfold current_window. rewrite Hexp. simpl. exact Hlt.
Qed.

(** Twenty accepted payments of one wallet at time 1000. *)
Definition payments_demo : list (op * Z) :=
  replicate 20 (RecordUsage "wallet-1" "agent-1" payment None true, 1000).

(** C6. After any sequence of [recordUsage], [checkRateLimit],
    [unblockWallet] and [cleanupOldData] calls from the empty stores, the
    bucket of a wallet and type has a count of at most the ceiling of the
    type (100, 20, 50), and when the count has reached the ceiling and the
    window of the bucket is still open, [checkRateLimit] returns
    allowed = false. *)
Theorem count_within_ceiling ops w t b :
  rateLimitBuckets (run ops initial_state) !! getBucketKey w t = Some b →
  count b <= getMaxForType t
  ∧ getMaxForType request = 100 ∧ getMaxForType payment = 20
  ∧ getMaxForType execution = 50
  ∧ ∀ now,
      getMaxForType t <= count b →
      now - windowStart b < WINDOW_SIZE_MS →
      allowed (fst (checkRateLimit w t now (run ops initial_state))) = false.
Proof.
  intros Hb.
  destruct (run_ok ops initial_state initial_ok _ _ Hb) as (Hkey & Hcount & _).
  apply getBucketKey_type in Hkey. subst t.
  split; [lia |]. do 3 (split; [done |]).
  intros now. by apply checkRateLimit_at_ceiling.
Qed.

Lemma count_within_ceiling_witness :
  count (mkBucket "wallet-1" payment 1000 20 false None 0) <= getMaxForType payment
  ∧ getMaxForType request = 100 ∧ getMaxForType payment = 20
  ∧ getMaxForType execution = 50
  ∧ ∀ now,
      getMaxForType payment <= count (mkBucket "wallet-1" payment 1000 20 false None 0) →
      now - windowStart (mkBucket "wallet-1" payment 1000 20 false None 0)
        < WINDOW_SIZE_MS →
      allowed (fst (checkRateLimit "wallet-1" payment now
                      (run payments_demo initial_state))) = false.
Proof.
  apply (count_within_ceiling payments_demo "wallet-1" payment).
  vm_compute. reflexivity.
Defined.

Lemma append_head_inj (t s s' : string) : s +:+ t = s' +:+ t → s = s'.
Proof.
  revert s'. induction s as [| c s IH]; intros s' Heq.
  - destruct s' as [| c' s']; [done |].
    apply (f_equal String.length) in Heq.
    rewrite !length_append in Heq. cbn in Heq. lia.
  - destruct s' as [| c' s'].
    + apply (f_equal String.length) in Heq.
      rewrite !length_append in Heq. cbn in Heq. lia.
    + rewrite !append_cons in Heq. injection Heq as -> Heq.
      f_equal. by apply IH.
Qed.

Lemma getBucketKey_inj w t w' t' :
  getBucketKey w t = getBucketKey w' t' → w = w' ∧ t = t'.
Proof.
  intros Heq. pose proof (getBucketKey_type _ _ _ _ Heq) as <-.
  split; [| done]. unfold getBucketKey in Heq.
  rewrite <- !append_assoc in Heq.
  apply append_head_inj in Heq. by apply append_head_inj in Heq.
Qed.

Lemma current_window_other w t now old m k :
  k ≠ getBucketKey w t →
  snd (current_window w t now old m) !! k = m !! k.
Proof.
  intros Hk. unfold current_window.
  destruct old as [b|]; [destruct (_ <=? _) |]; cbn;
    rewrite ?lookup_insert_ne by done; done.
Qed.

Lemma unblock_type_lookup w t acc k :
  snd (unblock_type w t acc) !! k
  = if decide (k = getBucketKey w t) then
      match snd acc !! k with
      | Some b =>
          Some (if blocked b
                then mkBucket (walletAddress b) (type b) (windowStart b) (count b)
                       false None 0
                else b)
      | None => None
      end
    else snd acc !! k.
Proof.
  destruct acc as [u m]. unfold unblock_type. cbn [snd].
  destruct (decide (k = getBucketKey w t)) as [-> | Hne].
  - destruct (m !! getBucketKey w t) as [b|] eqn:Hb; cbn; rewrite ?Hb; [| done].
    destruct (blocked b); cbn; rewrite ?lookup_insert_eq, ?Hb; done.
  - destruct (m !! getBucketKey w t) as [b|]; [| done].
    destruct (blocked b); cbn; [by rewrite lookup_insert_ne | done].
Qed.







(** A rejected [recordUsage]: the bucket of the key was at its ceiling in
    its open window, and the call adds one violation to it, blocking it for
    the cooldown from [now] once the violations reach three. *)
Lemma recordUsage_rejected w agent t amt ok now st st' :
  buckets_ok (rateLimitBuckets st) →
  recordUsage w agent t amt ok now st = (false, st') →
  ∃ b,
    rateLimitBuckets st !! getBucketKey w t = Some b
    ∧ rateLimitBuckets st' !! getBucketKey w t
      = Some (if 3 <=? violations b + 1
              then mkBucket (walletAddress b) (type b) (windowStart b) (count b)
                     true (Some (now + COOLDOWN_PERIOD_MS)) (violations b + 1)
              else mkBucket (walletAddress b) (type b) (windowStart b) (count b)
                     (blocked b) (blockedUntil b) (violations b + 1)).
Proof.
  intros Hm Hrec. unfold recordUsage in Hrec.
  destruct (current_window w t now (rateLimitBuckets st !! getBucketKey w t)
              (rateLimitBuckets st)) as [b m] eqn:Hcw.
  apply current_window_spec in Hcw as (Hok & Hb & Hcase); [| done | done].
  destruct (Z.leb_spec (getMaxForType t) (count b)) as [Hfull |]; [| done].
  destruct Hcase as [-> | (Hold & -> & _)].
  { simpl in Hfull. pose proof (getMaxForType_pos t). lia. }
  exists b. split; [done |].
  destruct (3 <=? violations b + 1); injection Hrec as <-; simpl;
    by rewrite lookup_insert_eq.
Qed.



(** The stores after twenty accepted payments at time 1000 and three
    rejected ones at times 1001, 1002 and 1003. *)
Definition rejected_once : state :=
  snd (recordUsage "wallet-1" "agent-1" payment None true 1001
         (run payments_demo initial_state)).
Definition rejected_twice : state :=
  snd (recordUsage "wallet-1" "agent-1" payment None true 1002 rejected_once).
Definition rejected_thrice : state :=
  snd (recordUsage "wallet-1" "agent-1" payment None true 1003 rejected_twice).





End RateLimitSpec.

(** ** Dynamic pricing *)

Module PricingSpec.
Import JsNum Pricing.

(** *** Rounding a product to binary64 *)

Lemma digits2_pos_log2 (p : positive) :
  Zpos (digits2_pos p) = Z.log2 (Zpos p) + 1.
Proof.
  assert (Hsize : ∀ q, digits2_pos q = Pos.size q).
  { induction q as [q IH | q IH |]; simpl; congruence. }
  destruct p as [p | p |]; simpl; rewrite ?Hsize; lia.
Qed.

Lemma digits2_pos_bounds (p : positive) (k : Z) :
  0 < k → 2 ^ (k - 1) <= Zpos p < 2 ^ k → Zpos (digits2_pos p) = k.
Proof.
  intros Hk Hb. rewrite digits2_pos_log2.
  assert (Hl : Z.log2 (Zpos p) = k - 1).
  { apply Z.log2_unique; [lia |]. replace (Z.succ (k - 1)) with k by lia. exact Hb. }
  lia.
Qed.

Lemma shr_1_m (mrs : shr_record) :
  0 <= shr_m mrs → shr_m (shr_1 mrs) = shr_m mrs / 2 ∧ 0 <= shr_m (shr_1 mrs).
Proof.
  destruct mrs as [m r s]. simpl. intros Hm.
  rewrite <- Z.div2_div.
  destruct m as [| p | p]; [done | | lia].
  destruct p; simpl; split; (done || lia).
Qed.

Lemma iter_shr_1_m (p : positive) :
  ∀ mrs, 0 <= shr_m mrs →
    shr_m (SpecFloat.iter_pos shr_1 p mrs) = shr_m mrs / 2 ^ Zpos p
    ∧ 0 <= shr_m (SpecFloat.iter_pos shr_1 p mrs).
Proof.
  induction p as [p IH | p IH |]; intros mrs Hm; simpl.
  - destruct (shr_1_m mrs Hm) as [E1 N1].
    destruct (IH _ N1) as [E2 N2]. destruct (IH _ N2) as [E3 N3].
    split; [| done]. rewrite E3, E2, E1.
    rewrite !Z.div_div by lia.
    f_equal.
    replace (Z.pos p~1) with (1 + Z.pos p + Z.pos p) by lia.
    rewrite !Z.pow_add_r by lia. lia.
  - destruct (IH _ Hm) as [E2 N2]. destruct (IH _ N2) as [E3 N3].
    split; [| done]. rewrite E3, E2.
    rewrite !Z.div_div by lia.
    f_equal.
    replace (Z.pos p~0) with (Z.pos p + Z.pos p) by lia.
    rewrite !Z.pow_add_r by lia. lia.
  - destruct (shr_1_m mrs Hm) as [E1 N1]. split; [| done].
    rewrite E1. done.
Qed.

Lemma round_nearest_even_cases (m : Z) (l : location) :
  round_nearest_even m l = m ∨ round_nearest_even m l = m + 1.
Proof.
  destruct l as [| []]; simpl; auto. destruct (Z.even m); auto.
Qed.

Lemma fexp_normal (x : Z) : -1021 <= x → fexp 53 1024 x = x - 53.
Proof. intros Hx. unfold fexp, emin. lia. Qed.

Lemma shr_fexp_exact_53 (r : positive) (e : Z) :
  2 ^ 52 <= Zpos r < 2 ^ 53 → -1074 <= e →
  shr_fexp 53 1024 (Zpos r) e loc_Exact = (Build_shr_record (Zpos r) false false, e).
Proof.
  intros Hr He. unfold shr_fexp.
  change (Zdigits2 (Zpos r)) with (Zpos (digits2_pos r)).
  rewrite (digits2_pos_bounds r 53) by (done || lia).
  rewrite fexp_normal by lia.
  replace (53 + e - 53 - e) with 0 by lia. reflexivity.
Qed.

Lemma shr_fexp_exact_54 (e : Z) :
  -1074 <= e →
  shr_fexp 53 1024 (2 ^ 53) e loc_Exact = (Build_shr_record (2 ^ 52) false false, e + 1).
Proof.
  intros He. unfold shr_fexp.
  change (Zdigits2 (2 ^ 53)) with 54.
  rewrite fexp_normal by lia.
  replace (54 + e - 53 - e) with 1 by lia. reflexivity.
Qed.

(** Rounding a positive integer of [n + 53] bits ([n >= 1]) to 53 bits. *)
Lemma binary_round_aux_wide (P np : positive) (ex : Z) :
  2 ^ (Zpos np + 52) <= Zpos P < 2 ^ (Zpos np + 53) →
  -1074 <= ex + Zpos np <= 900 →
  ∃ r e2,
    binary_round_aux 53 1024 false (Zpos P) ex loc_Exact = S754_finite false r e2
    ∧ 2 ^ 52 <= Zpos r < 2 ^ 53
    ∧ 2 ^ 52 <= Zpos P / 2 ^ Zpos np < 2 ^ 53
    ∧ (((Zpos r = Zpos P / 2 ^ Zpos np ∨ Zpos r = Zpos P / 2 ^ Zpos np + 1)
        ∧ e2 = ex + Zpos np)
       ∨ (Zpos P / 2 ^ Zpos np + 1 = 2 ^ 53 ∧ Zpos r = 2 ^ 52
          ∧ e2 = ex + Zpos np + 1)).
Proof.
  intros HP Hex.
  assert (Hq : 2 ^ 52 <= Zpos P / 2 ^ Zpos np < 2 ^ 53).
  { rewrite !Z.pow_add_r in HP by lia. split.
    - apply Z.div_le_lower_bound; lia.
    - apply Z.div_lt_upper_bound; lia. }
  unfold binary_round_aux.
  assert (Hfirst : shr_fexp 53 1024 (Zpos P) ex loc_Exact
            = (SpecFloat.iter_pos shr_1 np (Build_shr_record (Zpos P) false false),
               ex + Zpos np)).
  { unfold shr_fexp.
    change (Zdigits2 (Zpos P)) with (Zpos (digits2_pos P)).
    rewrite (digits2_pos_bounds P (Zpos np + 53)); [| lia |].
    - rewrite fexp_normal by lia.
      replace (Z.pos np + 53 + ex - 53 - ex) with (Zpos np) by lia. reflexivity.
    - replace (Z.pos np + 53 - 1) with (Z.pos np + 52) by lia. exact HP. }
  rewrite Hfirst.
  destruct (iter_shr_1_m np (Build_shr_record (Zpos P) false false)) as [Em _];
    [simpl; lia |].
  cbn [shr_m] in Em.
  set (mrs := SpecFloat.iter_pos shr_1 np (Build_shr_record (Zpos P) false false)) in *.
  rewrite Em.
  set (q := Zpos P / 2 ^ Zpos np) in *.
  destruct (round_nearest_even_cases q (loc_of_shr_record mrs)) as [-> | ->].
  - destruct q as [| r |] eqn:Eq; [lia | | lia].
    rewrite shr_fexp_exact_53 by lia. cbn [shr_m].
    replace (ex + Zpos np <=? 1024 - 53) with true by (symmetry; apply Z.leb_le; lia).
    exists r, (ex + Zpos np). split; [reflexivity | lia].
  - destruct (Z.eq_dec (q + 1) (2 ^ 53)) as [Ewrap | Hno].
    + rewrite Ewrap. rewrite shr_fexp_exact_54 by lia. cbn [shr_m].
      change (2 ^ 52) with (Zpos (2 ^ 52)%positive).
      cbv iota beta.
      replace (ex + Zpos np + 1 <=? 1024 - 53) with true by (symmetry; apply Z.leb_le; lia).
      exists (2 ^ 52)%positive, (ex + Zpos np + 1).
      change (Zpos (2 ^ 52)%positive) with (2 ^ 52) in *.
      split; [reflexivity | lia].
    + destruct (q + 1) as [| r |] eqn:Eq; [lia | | lia].
      rewrite shr_fexp_exact_53 by lia. cbn [shr_m].
      replace (ex + Zpos np <=? 1024 - 53) with true by (symmetry; apply Z.leb_le; lia).
      exists r, (ex + Zpos np). split; [reflexivity | lia].
Qed.

Ltac eval_pows :=
  repeat match goal with
  | |- context [Z.pow 2 ?k] =>
      let v := eval vm_compute in (Z.pow 2 k) in
      lazymatch v with Zpos ?p => is_ground p; change (Z.pow 2 k) with v end
  | H : context [Z.pow 2 ?k] |- _ =>
      let v := eval vm_compute in (Z.pow 2 k) in
      lazymatch v with Zpos ?p => is_ground p; change (Z.pow 2 k) with v in H end
  end.

Lemma MIN_value : MIN_PRICE_MULTIPLIER = S754_finite false 4503599627370496 (-53).
Proof. vm_compute. reflexivity. Qed.
Lemma MAX_value : MAX_PRICE_MULTIPLIER = S754_finite false 6755399441055744 (-51).
Proof. vm_compute. reflexivity. Qed.
Lemma UP_value : UP_FACTOR = S754_finite false 4953959590107546 (-52).
Proof. vm_compute. reflexivity. Qed.
Lemma DOWN_value : DOWN_FACTOR = S754_finite false 8556839292003942 (-53).
Proof. vm_compute. reflexivity. Qed.

(** The normal binary64 numbers between 0.5 and 3, by mantissa and exponent. *)
Definition in_band (m : number) : Prop :=
  ∃ mm e, m = S754_finite false mm e
    ∧ 2 ^ 52 <= Zpos mm < 2 ^ 53
    ∧ (e = -53 ∨ e = -52 ∨ (e = -51 ∧ Zpos mm <= 3 * 2 ^ 51)).

Lemma compare_cont_Z (a b : positive) :
  Pos.compare_cont Eq a b = (Zpos a ?= Zpos b).
Proof. reflexivity. Qed.

(** Comparison of positive finite numbers: by exponent, then by mantissa
    (the order of canonical representations). *)
Lemma SFcompare_finite_pos (m1 m2 : positive) (e1 e2 : Z) :
  SFcompare (S754_finite false m1 e1) (S754_finite false m2 e2)
  = Some (match e1 ?= e2 with
          | Lt => Lt
          | Gt => Gt
          | Eq => Zpos m1 ?= Zpos m2
          end).
Proof. reflexivity. Qed.

Lemma in_band_le (m : number) :
  in_band m →
  le MIN_PRICE_MULTIPLIER m = true ∧ le m MAX_PRICE_MULTIPLIER = true.
Proof.
  intros (mm & e & -> & Hmm & He).
  rewrite MIN_value, MAX_value. unfold le, SFleb.
  rewrite !SFcompare_finite_pos.
  eval_pows.
  destruct He as [-> | [-> | [-> Hle]]].
  - rewrite !Z.compare_refl. split; [| reflexivity].
    destruct (Z.compare_spec 4503599627370496 (Zpos mm)); [done | done | lia].
  - split; reflexivity.
  - rewrite !Z.compare_refl. split; [reflexivity |].
    destruct (Z.compare_spec (Zpos mm) 6755399441055744); [done | done | lia].
Qed.

Lemma in_band_MAX : in_band MAX_PRICE_MULTIPLIER.
Proof.
  rewrite MAX_value. exists 6755399441055744%positive, (-51).
  split; [done |]. eval_pows. lia.
Qed.

Lemma in_band_MIN : in_band MIN_PRICE_MULTIPLIER.
Proof.
  rewrite MIN_value. exists 4503599627370496%positive, (-53).
  split; [done |]. eval_pows. lia.
Qed.

(** Clamping from above a normal number that is at least 0.5. *)
Lemma min_band (r : positive) (e2 : Z) :
  2 ^ 52 <= Zpos r < 2 ^ 53 → -53 <= e2 →
  in_band (Math_min MAX_PRICE_MULTIPLIER (S754_finite false r e2)).
Proof.
  intros Hr He. unfold Math_min.
  pose proof in_band_MAX as HMAX. rewrite MAX_value in *.
  rewrite SFcompare_finite_pos.
  destruct (Z.compare_spec (-51) e2) as [<- | Hlt | Hgt].
  - destruct (Z.compare_spec 6755399441055744 (Zpos r)) as [E | Hlt | Hgt];
      [exact HMAX | exact HMAX |].
    exists r, (-51). split; [done |]. eval_pows. lia.
  - exact HMAX.
  - exists r, e2. split; [done |]. eval_pows. lia.
Qed.

(** Clamping from below a normal number that is at most 3. *)
Lemma max_band (r : positive) (e2 : Z) :
  2 ^ 52 <= Zpos r < 2 ^ 53 →
  e2 < -51 ∨ (e2 = -51 ∧ Zpos r <= 3 * 2 ^ 51) →
  in_band (Math_max MIN_PRICE_MULTIPLIER (S754_finite false r e2)).
Proof.
  intros Hr He. unfold Math_max.
  pose proof in_band_MIN as HMIN. rewrite MIN_value in *.
  rewrite SFcompare_finite_pos.
  destruct (Z.compare_spec (-53) e2) as [<- | Hlt | Hgt].
  - destruct (Z.compare_spec 4503599627370496 (Zpos r)) as [E | Hlt | Hgt];
      [exact HMIN | | exact HMIN].
    exists r, (-53). split; [done |]. eval_pows. lia.
  - exists r, e2. split; [done |]. eval_pows. lia.
  - exact HMIN.
Qed.

(** A demand increase keeps the multiplier in the band. *)
Lemma mul_up_band (m : number) :
  in_band m → in_band (Math_min MAX_PRICE_MULTIPLIER (mul m UP_FACTOR)).
Proof.
  intros (mm & e & -> & Hmm & He). rewrite UP_value.
  unfold mul, prec, emax. cbn [SFmul xorb].
  set (C := 4953959590107546%positive).
  assert (HP : Zpos (mm * C) = Zpos mm * 4953959590107546) by (subst C; lia).
  eval_pows.
  destruct (Z.lt_ge_cases (Zpos (mm * C)) (2 ^ 105)) as [Hlow | Hhigh].
  - destruct (binary_round_aux_wide (mm * C) 52 (e + -52))
      as (r & e2 & -> & Hr & Hq & Hcase).
    + eval_pows. lia.
    + lia.
    + apply min_band; [done |]. lia.
  - destruct (binary_round_aux_wide (mm * C) 53 (e + -52))
      as (r & e2 & -> & Hr & Hq & Hcase).
    + eval_pows. lia.
    + lia.
    + apply min_band; [done |]. lia.
Qed.

(** A demand decrease keeps the multiplier in the band. *)
Lemma mul_down_band (m : number) :
  in_band m → in_band (Math_max MIN_PRICE_MULTIPLIER (mul m DOWN_FACTOR)).
Proof.
  intros (mm & e & -> & Hmm & He). rewrite DOWN_value.
  unfold mul, prec, emax. cbn [SFmul xorb].
  set (C := 8556839292003942%positive).
  assert (HP : Zpos (mm * C) = Zpos mm * 8556839292003942) by (subst C; lia).
  eval_pows.
  destruct (Z.lt_ge_cases (Zpos (mm * C)) (2 ^ 105)) as [Hlow | Hhigh].
  - destruct (binary_round_aux_wide (mm * C) 52 (e + -53))
      as (r & e2 & -> & Hr & Hq & Hcase).
    + eval_pows. lia.
    + lia.
    + apply max_band; [done |]. eval_pows. lia.
  - destruct (binary_round_aux_wide (mm * C) 53 (e + -53))
      as (r & e2 & -> & Hr & Hq & Hcase).
    + eval_pows. lia.
    + lia.
    + assert (Hlt : Zpos (mm * C) / 2 ^ 53 < Zpos mm).
      { apply Z.div_lt_upper_bound; [done |]. eval_pows. lia. }
      apply max_band; [done |]. eval_pows. lia.
Qed.

Lemma in_band_one : in_band (ofZ 1).
Proof.
  exists 4503599627370496%positive, (-52). split; [done |]. eval_pows. lia.
Qed.

Lemma next_multiplier_cases (current ratio : number) :
  next_multiplier current ratio = current
  ∨ next_multiplier current ratio
    = Math_min MAX_PRICE_MULTIPLIER (mul current UP_FACTOR)
  ∨ next_multiplier current ratio
    = Math_max MIN_PRICE_MULTIPLIER (mul current DOWN_FACTOR).
Proof.
  unfold next_multiplier.
  destruct (lt (dec 15 1) ratio); [auto |].
  destruct (lt ratio (dec 5 1)); auto.
Qed.

Lemma next_multiplier_band (current ratio : number) :
  in_band current → in_band (next_multiplier current ratio).
Proof.
  intros Hb.
  destruct (next_multiplier_cases current ratio) as [-> | [-> | ->]];
    [done | by apply mul_up_band | by apply mul_down_band].
Qed.

(** Every stored multiplier is a normal number between 0.5 and 3. *)
Definition pricing_ok (st : state) : Prop :=
  ∀ a p, agentPricing st !! a = Some p → in_band (currentMultiplier p).

Lemma pricing_ok_insert st a p :
  pricing_ok st → in_band (currentMultiplier p) →
  ∀ a' p', <[a := p]> (agentPricing st) !! a' = Some p' →
    in_band (currentMultiplier p').
Proof.
  intros Hst Hp a' p' Hl.
  destruct (decide (a = a')) as [-> | Hne].
  - rewrite lookup_insert_eq in Hl. by injection Hl as <-.
  - rewrite lookup_insert_ne in Hl by done. by eapply Hst.
Qed.

(** What [updateDynamicPricing] does to the pricing record of an agent. *)
Lemma updateDynamicPricing_lookup agent now st a p :
  agentPricing st !! a = Some p →
  ∃ p', agentPricing (updateDynamicPricing agent now st) !! a = Some p'
        ∧ (p' = p
           ∨ (a = agent ∧ ∃ ratio,
                currentMultiplier p' = next_multiplier (currentMultiplier p) ratio)).
Proof.
  intros Hp. unfold updateDynamicPricing.
  destruct (agentPricing st !! agent) as [pr|] eqn:Hpr; [| eauto].
  destruct (demandMetrics st !! agent) as [me|]; [| eauto].
  destruct (negb (dynamicPricing pr)); [eauto |].
  destruct (now - lastUpdated pr <? PRICE_UPDATE_INTERVAL_MS); [eauto |].
  destruct (negb (eq _ _)); [| eauto]. cbn [agentPricing].
  destruct (decide (agent = a)) as [-> | Hne].
  - rewrite lookup_insert_eq. eexists; split; [done |]. right.
    split; [done |]. assert (pr = p) as -> by congruence.
    by exists (demand_ratio me).
  - rewrite lookup_insert_ne by done. eauto.
Qed.

Lemma recordRequest_lookup agent wallet amount now st a p :
  agentPricing st !! a = Some p →
  ∃ p', agentPricing (recordRequest agent wallet amount now st) !! a = Some p'
        ∧ (p' = p
           ∨ (a = agent ∧ ∃ ratio,
                currentMultiplier p' = next_multiplier (currentMultiplier p) ratio)).
Proof.
  intros Hp. unfold recordRequest.
  destruct (demandMetrics st !! agent) as [me|]; [| eauto].
  by apply updateDynamicPricing_lookup.
Qed.

Lemma updateDynamicPricing_absent agent now st a :
  agentPricing st !! a = None →
  agentPricing (updateDynamicPricing agent now st) !! a = None.
Proof.
  intros Ha. unfold updateDynamicPricing.
  destruct (agentPricing st !! agent) as [pr|] eqn:Hpr; [| done].
  destruct (demandMetrics st !! agent) as [me|]; [| done].
  destruct (negb (dynamicPricing pr)); [done |].
  destruct (now - lastUpdated pr <? PRICE_UPDATE_INTERVAL_MS); [done |].
  destruct (negb (eq _ _)); [| done]. cbn [agentPricing].
  destruct (decide (agent = a)) as [-> | Hne]; [congruence |].
  by rewrite lookup_insert_ne.
Qed.

Lemma recordRequest_absent agent wallet amount now st a :
  agentPricing st !! a = None →
  agentPricing (recordRequest agent wallet amount now st) !! a = None.
Proof.
  intros Ha. unfold recordRequest.
  destruct (demandMetrics st !! agent) as [me|]; [| done].
  by apply updateDynamicPricing_absent.
Qed.

Lemma exec_pricing_ok o now st : pricing_ok st → pricing_ok (exec o now st).
Proof.
  intros Hst. destruct o; cbn [exec].
  - unfold registerAgentPricing. cbn [snd]. intros a p. cbn [agentPricing].
    apply pricing_ok_insert; [done |]. cbn [currentMultiplier]. apply in_band_one.
  - intros a p' Hp'.
    destruct (agentPricing st !! a) as [p|] eqn:Hp.
    + destruct (recordRequest_lookup agent wallet amount now st a p Hp)
        as (p'' & Hp'' & Hcase).
      assert (p'' = p') as -> by congruence.
      destruct Hcase as [-> | (_ & ratio & ->)]; [by eapply Hst |].
      apply next_multiplier_band. by eapply Hst.
    + rewrite (recordRequest_absent agent wallet amount now st a Hp) in Hp'.
      discriminate.
  - unfold updateAgentPricing.
    destruct (agentPricing st !! agent) as [pr|] eqn:Hpr; [| done].
    cbn [snd]. intros a p. cbn [agentPricing].
    apply pricing_ok_insert; [done |]. cbn [currentMultiplier]. by eapply Hst.
  - done.
  - unfold deactivateDiscountRule.
    by destruct (rules_get ruleId (discountRules st)).
Qed.

Lemma run_pricing_ok ops st : pricing_ok st → pricing_ok (run ops st).
Proof.
  revert st. induction ops as [| [o now] rest IH]; intros st Hst; [done |].
  cbn [run]. by apply IH, exec_pricing_ok.
Qed.

Lemma initial_pricing_ok : pricing_ok initial_state.
Proof. intros a p Hp. cbn in Hp. by rewrite lookup_empty in Hp. Qed.

(** One agent registered at time 0, one request at time 1 and one at time
    300002: the second request closes the demand window with an average of
    0.5 and a ratio of 2, and raises the multiplier. *)
Definition demand_demo : list (op * Z) :=
  [ (RegisterAgentPricing "agent-1" no_options, 0);
    (RecordRequest "agent-1" "wallet-1" (ofZ 5), 1);
    (RecordRequest "agent-1" "wallet-1" (ofZ 5), 300002) ].

Definition demo_pricing : AgentPricing :=
  mkPricing "agent-1" BASE_PRICE_LAMPORTS per_request standard true
    (mul (ofZ 1) UP_FACTOR) 300002 None.

(** C8. [registerAgentPricing] stores a multiplier of 1; a [recordRequest]
    leaves the multiplier of an agent as it is or replaces it by
    min(3, multiplier * 1.1) or by max(0.5, multiplier * 0.95), the products
    being rounded to binary64; and after any sequence of operations from the
    empty stores the multiplier of every registered agent is at least 0.5
    and at most 3. *)
Theorem multiplier_within_bounds :
  MIN_PRICE_MULTIPLIER = dec 5 1 ∧ MAX_PRICE_MULTIPLIER = ofZ 3
  ∧ (∀ agent options now st,
       currentMultiplier (fst (registerAgentPricing agent options now st)) = ofZ 1)
  ∧ (∀ agent wallet amount now st a p p',
       agentPricing st !! a = Some p →
       agentPricing (recordRequest agent wallet amount now st) !! a = Some p' →
       currentMultiplier p' = currentMultiplier p
       ∨ currentMultiplier p'
         = Math_min MAX_PRICE_MULTIPLIER (mul (currentMultiplier p) UP_FACTOR)
       ∨ currentMultiplier p'
         = Math_max MIN_PRICE_MULTIPLIER (mul (currentMultiplier p) DOWN_FACTOR))
  ∧ (∀ ops a p,
       agentPricing (run ops initial_state) !! a = Some p →
       le MIN_PRICE_MULTIPLIER (currentMultiplier p) = true
       ∧ le (currentMultiplier p) MAX_PRICE_MULTIPLIER = true).
Proof.
  split; [done |]. split; [done |]. split; [done |]. split.
  - intros agent wallet amount now st a p p' Hp Hp'.
    destruct (recordRequest_lookup agent wallet amount now st a p Hp)
      as (p'' & Hp'' & Hcase).
    assert (p'' = p') as -> by congruence.
    destruct Hcase as [-> | (_ & ratio & ->)]; [by left |].
    apply next_multiplier_cases.
  - intros ops a p Hp. apply in_band_le.
    by apply (run_pricing_ok ops initial_state initial_pricing_ok a p).
Qed.

Lemma multiplier_within_bounds_witness :
  le MIN_PRICE_MULTIPLIER (currentMultiplier demo_pricing) = true
  ∧ le (currentMultiplier demo_pricing) MAX_PRICE_MULTIPLIER = true.
Proof.
  apply (proj2 (proj2 (proj2 (proj2 multiplier_within_bounds)))
           demand_demo "agent-1" demo_pricing).
  vm_compute. reflexivity.
Defined.

(** C10. For an agent id with no pricing record, [calculatePrice] returns
    price 0 with breakdown {error: 1}, whatever the units and the wallet;
    the price is the same number as the price of any free-tier agent. *)
Theorem calculatePrice_unknown_agent agent units wallet now st :
  agentPricing st !! agent = None →
  calculatePrice agent units wallet now st = mkQuote (ofZ 0) [("error"%string, ofZ 1)]
  ∧ (∀ agent' units' wallet' now' p,
       agentPricing st !! agent' = Some p → tier p = free →
       qprice (calculatePrice agent' units' wallet' now' st)
       = qprice (calculatePrice agent units wallet now st)).
Proof.
  intros Hnone. unfold calculatePrice. rewrite Hnone. split; [done |].
  intros agent' units' wallet' now' p Hp Hfree. by rewrite Hp, Hfree.
Qed.

Lemma calculatePrice_unknown_agent_witness :
  calculatePrice "nobody" (Some (ofZ 7)) (Some "wallet-1"%string) 5
    (run demand_demo initial_state)
  = mkQuote (ofZ 0) [("error"%string, ofZ 1)]
  ∧ (∀ agent' units' wallet' now' p,
       agentPricing (run demand_demo initial_state) !! agent' = Some p →
       tier p = free →
       qprice (calculatePrice agent' units' wallet' now' (run demand_demo initial_state))
       = qprice (calculatePrice "nobody" (Some (ofZ 7)) (Some "wallet-1"%string) 5
                   (run demand_demo initial_state))).
Proof.
  apply (calculatePrice_unknown_agent "nobody" (Some (ofZ 7)) (Some "wallet-1"%string) 5
           (run demand_demo initial_state)).
  vm_compute. reflexivity.
Defined.

End PricingSpec.

(** * Further properties of the services *)

(** ** Payment sessions: life cycle, validation, cleanup *)

Module SessionMore.
Import Session.

(** A session created at [now] can be paid up to and including its expiry
    [now + 300000]; once paid it validates at any later time, expiry
    included; it can be used once, after which validation reports it as
    already used and neither [markSessionUsed] nor [markSessionPaid]
    succeeds again. *)
Theorem session_lifecycle sid w a r amt sig now t1 st :
  t1 <= now + 300000 →
  ∃ s2 st2 st3,
    markSessionPaid sid sig t1 (snd (createSession sid w a r amt now st)) = (true, st2)
    ∧ (∀ t2, validateSession sid t2 st2 = (mkValidation true None (Some s2), st2))
    ∧ status s2 = paid ∧ paidAt s2 = Some t1 ∧ transactionSignature s2 = Some sig
    ∧ (∀ t3, markSessionUsed sid t3 st2 = (true, st3 t3))
    ∧ (∀ t3 t4,
         validateSession sid t4 (st3 t3)
         = (mkValidation false (Some "Session already used"%string) None, st3 t3))
    ∧ (∀ t3 t4, markSessionUsed sid t4 (st3 t3) = (false, st3 t3))
    ∧ (∀ t3 t4 sig', markSessionPaid sid sig' t4 (st3 t3) = (false, st3 t3)).
Proof.
  intros Ht1.
  set (s1 := mkSession sid w a r amt pending now
               (now + expirationMinutes * 60 * 1000) None None None).
  set (st1 := snd (createSession sid w a r amt now st)).
  assert (H1 : sessions st1 !! sid = Some s1) by (cbn; apply lookup_insert_eq).
  set (s2 := set_paid t1 sig s1).
  set (st2 := mkStore (<[sid := s2]> (sessions st1)) (walletSessions st1)).
  assert (H2 : sessions st2 !! sid = Some s2) by (cbn; apply lookup_insert_eq).
  set (st3 := fun t3 => mkStore (<[sid := set_used t3 s2]> (sessions st2))
                          (walletSessions st2)).
  assert (H3 : ∀ t3, sessions (st3 t3) !! sid = Some (set_used t3 s2))
    by (intros; cbn; apply lookup_insert_eq).
  exists s2, st2, st3. repeat split.
  - unfold markSessionPaid. rewrite H1.
    destruct (decide (status s1 = pending)) as [_ | Hn]; [| by destruct Hn].
    assert ((expiresAt s1 <? t1) = false) as ->
      by (apply Z.ltb_ge; subst s1; cbn; unfold expirationMinutes; lia).
    reflexivity.
  - intros t2. unfold validateSession, getSession. rewrite H2. done.
  - intros t3. unfold markSessionUsed. rewrite H2. done.
  - intros t3 t4. unfold validateSession, getSession. rewrite H3. done.
  - intros t3 t4. unfold markSessionUsed. rewrite H3. done.
  - intros t3 t4 sig'. unfold markSessionPaid. rewrite H3. done.
Qed.

Lemma session_lifecycle_witness :
  ∃ s2 st2 st3,
    markSessionPaid "s-1" "sig" 301000
      (snd (createSession "s-1" "wallet-1" "agent-1" "/api/x" "0.01" 1000 empty_store))
    = (true, st2)
    ∧ (∀ t2, validateSession "s-1" t2 st2 = (mkValidation true None (Some s2), st2))
    ∧ status s2 = paid ∧ paidAt s2 = Some 301000
    ∧ transactionSignature s2 = Some "sig"%string
    ∧ (∀ t3, markSessionUsed "s-1" t3 st2 = (true, st3 t3))
    ∧ (∀ t3 t4,
         validateSession "s-1" t4 (st3 t3)
         = (mkValidation false (Some "Session already used"%string) None, st3 t3))
    ∧ (∀ t3 t4, markSessionUsed "s-1" t4 (st3 t3) = (false, st3 t3))
    ∧ (∀ t3 t4 sig', markSessionPaid "s-1" sig' t4 (st3 t3) = (false, st3 t3)).
Proof.
  apply (session_lifecycle "s-1" "wallet-1" "agent-1" "/api/x" "0.01" "sig" 1000 301000
           empty_store).
  lia.
Defined.

(** [validateSession] answers valid exactly for a stored session that is
    paid, and then changes nothing; the reason it gives otherwise is
    determined by what is stored and the clock: not found, expired (also for
    a pending session past its expiry, which it stores as expired), already
    used, or payment not completed. *)
Theorem validateSession_accepts_exactly_paid sid now st :
  (valid (fst (validateSession sid now st)) = true
   ↔ ∃ s, sessions st !! sid = Some s ∧ status s = paid)
  ∧ (valid (fst (validateSession sid now st)) = true →
     snd (validateSession sid now st) = st)
  ∧ reason (fst (validateSession sid now st))
    = match sessions st !! sid with
      | None => Some "Session not found"%string
      | Some s =>
          match status s with
          | paid => None
          | used => Some "Session already used"%string
          | expired => Some "Session expired"%string
          | pending =>
              if expiresAt s <? now then Some "Session expired"%string
              else Some "Payment not completed"%string
          end
      end.
Proof.
  unfold validateSession, getSession.
  destruct (sessions st !! sid) as [s|] eqn:Hs.
  - destruct (decide (status s = pending)) as [Hp | Hnp].
    + rewrite (bool_decide_eq_true_2 _ Hp), Hp. cbn [andb].
      destruct (expiresAt s <? now); cbn; rewrite ?Hp;
        (split; [| done]);
        (split; [done | intros (s' & [= <-] & ?); congruence]).
    + rewrite (bool_decide_eq_false_2 _ Hnp). cbn.
      destruct (status s) eqn:Hst; cbn; (split; [| done]);
        (split; [first [done | eauto]
                | first [done | intros (s' & [= <-] & ?); congruence]]).
  - cbn. split; [| done]. split; [done |]. by intros (s' & ? & ?).
Qed.

(** [cleanupExpiredSessions] deletes exactly the stored sessions that are
    more than an hour past their expiry and not paid, whatever their order
    in the map, and returns how many it deleted; a paid session is never
    deleted. *)
Theorem cleanupExpiredSessions_removes_stale now st :
  sessions (snd (cleanupExpiredSessions now st))
  = filter (fun kv => removable now (snd kv) = false) (sessions st)
  ∧ fst (cleanupExpiredSessions now st)
    = Z.of_nat (size (filter (fun kv => removable now (snd kv) = true) (sessions st)))
  ∧ (∀ k s, sessions st !! k = Some s → status s = paid →
       sessions (snd (cleanupExpiredSessions now st)) !! k = Some s).
Proof.
  assert (Hfold :
    (∀ k, sessions (snd (cleanupExpiredSessions now st)) !! k
          = match sessions st !! k with
            | Some s => if removable now s then None else sessions st !! k
            | None => sessions st !! k
            end)
    ∧ fst (cleanupExpiredSessions now st)
      = Z.of_nat (size (filter (fun kv => removable now (snd kv) = true) (sessions st)))).
  { unfold cleanupExpiredSessions.
    apply (map_fold_weak_ind
             (fun (acc : Z * store) (m : gmap string PaymentSession) =>
                (∀ k, sessions (snd acc) !! k
                      = match m !! k with
                        | Some s => if removable now s then None else sessions st !! k
                        | None => sessions st !! k
                        end)
                ∧ fst acc
                  = Z.of_nat (size (filter (fun kv => removable now (snd kv) = true) m)))).
    - split; [done |]. by rewrite map_filter_empty, map_size_empty.
    - intros i x m [c st'] Hi [IHl IHc]. cbn [fst snd] in *.
      unfold cleanup_entry. fold (removable now x).
      destruct (removable now x) eqn:Hrem; cbn [fst snd sessions].
      + split.
        * intros k. destruct (decide (i = k)) as [-> | Hne].
          -- by rewrite lookup_delete_eq, lookup_insert_eq, Hrem.
          -- rewrite lookup_delete_ne, lookup_insert_ne by done. apply IHl.
        * rewrite map_filter_insert_True by done.
          rewrite map_size_insert_None; [lia |].
          apply map_lookup_filter_None. by left.
      + split.
        * intros k. destruct (decide (i = k)) as [-> | Hne].
          -- rewrite lookup_insert_eq, Hrem. rewrite IHl, Hi. done.
          -- rewrite lookup_insert_ne by done. apply IHl.
        * rewrite map_filter_insert_False by (cbn; congruence).
          by rewrite delete_id. }
  destruct Hfold as [Hl Hc]. split; [| split; [exact Hc |]].
  - apply map_eq. intros k. rewrite Hl.
    destruct (sessions st !! k) as [s|] eqn:Hs.
    + destruct (removable now s) eqn:Hrem; symmetry.
      * apply map_lookup_filter_None. right. intros s' Hs'. cbn. congruence.
      * rewrite ?Hs. apply map_lookup_filter_Some. done.
    + symmetry. apply map_lookup_filter_None. by left.
  - intros k s Hs Hp. rewrite Hl, Hs.
    unfold removable. rewrite Hp. cbn. by rewrite andb_false_r.
Qed.

(** [extendSession] does not read the clock: a pending session whose expiry
    has already passed, but which no call has yet stored as expired, is
    extended like any other pending session and can then be paid; a session
    that is not pending is not extended. *)
Theorem extendSession_revives_overdue sid minutes sig now st s :
  sessions st !! sid = Some s →
  status s = pending →
  expiresAt s < now →
  now <= expiresAt s + minutes * 60 * 1000 →
  ∃ st1,
    extendSession sid minutes st = (true, st1)
    ∧ sessions st1 !! sid
      = Some (set_expiresAt (expiresAt s + minutes * 60 * 1000) s)
    ∧ fst (markSessionPaid sid sig now st) = false
    ∧ fst (markSessionPaid sid sig now st1) = true
    ∧ (∀ m, extendSession sid m (snd (getSession sid now st))
            = (false, snd (getSession sid now st))).
Proof.
  intros Hs Hp Hover Hnew.
  exists (mkStore (<[sid := set_expiresAt (expiresAt s + minutes * 60 * 1000) s]>
                     (sessions st)) (walletSessions st)).
  split; [| split; [| split; [| split]]].
  - unfold extendSession. rewrite Hs.
    destruct (decide (status s = pending)); [reflexivity | done].
  - cbn. apply lookup_insert_eq.
  - unfold markSessionPaid. rewrite Hs.
    destruct (decide (status s = pending)); [| done].
    apply Z.ltb_lt in Hover. by rewrite Hover.
  - unfold markSessionPaid. cbn [sessions]. rewrite lookup_insert_eq. cbn.
    destruct (decide (status s = pending)); [| done].
    assert ((expiresAt s + minutes * 60 * 1000 <? now) = false) as ->
      by (apply Z.ltb_ge; lia).
    done.
  - intros m. unfold getSession. rewrite Hs.
    rewrite (bool_decide_eq_true_2 _ Hp).
    apply Z.ltb_lt in Hover. rewrite Hover. cbn [andb snd].
    unfold extendSession. cbn [sessions]. rewrite lookup_insert_eq.
    destruct (decide (status (set_status expired s) = pending)) as [E |]; [| done].
    cbn in E. discriminate.
Qed.

Lemma extendSession_revives_overdue_witness :
  ∃ st1,
    extendSession "s-1" 10 SessionSpec.demo_store = (true, st1)
    ∧ sessions st1 !! "s-1"
      = Some (set_expiresAt (expiresAt SessionSpec.demo_session + 10 * 60 * 1000)
                SessionSpec.demo_session)
    ∧ fst (markSessionPaid "s-1" "sig" 400000 SessionSpec.demo_store) = false
    ∧ fst (markSessionPaid "s-1" "sig" 400000 st1) = true
    ∧ (∀ m, extendSession "s-1" m (snd (getSession "s-1" 400000 SessionSpec.demo_store))
            = (false, snd (getSession "s-1" 400000 SessionSpec.demo_store))).
Proof.
  apply (extendSession_revives_overdue "s-1" 10 "sig" 400000 SessionSpec.demo_store
           SessionSpec.demo_session).
  - vm_compute. reflexivity.
  - reflexivity.
  - vm_compute. reflexivity.
  - vm_compute. discriminate.
Defined.

(** No command but the creation of a session under [k] stores a session
    under an id that has none. *)
Lemma getSession_absent sid now st k :
  sessions st !! k = None → sessions (snd (getSession sid now st)) !! k = None.
Proof.
  intros Hk. unfold getSession.
  destruct (sessions st !! sid) as [s|] eqn:Hs; [| done].
  destruct (_ && _); [| done]. cbn.
  destruct (decide (sid = k)) as [-> | Hne]; [congruence |].
  by rewrite lookup_insert_ne.
Qed.

Lemma getSessions_ids_absent ids now st k :
  sessions st !! k = None →
  sessions (snd (getSessions_ids ids now st)) !! k = None.
Proof.
  revert st. induction ids as [| id rest IH]; intros st Hk; [done |]. cbn.
  pose proof (getSession_absent id now st k Hk) as H1.
  destruct (getSession id now st) as [r st1]. cbn in H1.
  pose proof (IH st1 H1) as H2.
  by destruct (getSessions_ids rest now st1) as [rs st2].
Qed.

Lemma exec_absent o now st k :
  created_id o ≠ Some k →
  sessions st !! k = None →
  sessions (exec o now st) !! k = None.
Proof.
  intros Hc Hk. destruct o; cbn [exec created_id] in *.
  - cbn. rewrite lookup_insert_ne; [done | congruence].
  - by apply getSession_absent.
  - unfold getSessionsByWallet.
    destruct (walletSessions st !! walletAddr); [| done].
    by apply getSessions_ids_absent.
  - unfold markSessionPaid.
    destruct (sessions st !! sid) as [s|] eqn:Hs; [| done].
    destruct (decide (status s = pending)); [| done].
    destruct (expiresAt s <? now); cbn;
      (destruct (decide (sid = k)) as [-> | Hne]; [congruence |]);
      by rewrite lookup_insert_ne.
  - unfold markSessionUsed.
    destruct (sessions st !! sid) as [s|] eqn:Hs; [| done].
    destruct (decide (status s = paid)); [| done]. cbn.
    destruct (decide (sid = k)) as [-> | Hne]; [congruence |].
    by rewrite lookup_insert_ne.
  - unfold validateSession.
    pose proof (getSession_absent sid now st k Hk) as H1.
    by destruct (getSession sid now st) as [r st'].
  - destruct (sessions (snd (cleanupExpiredSessions now st)) !! k) as [y|] eqn:Hy;
      [| done].
    apply SessionSpec.cleanup_sessions_sub in Hy. congruence.
  - unfold extendSession.
    destruct (sessions st !! sid) as [s|] eqn:Hs; [| done].
    destruct (decide (status s = pending)); [| done]. cbn.
    destruct (decide (sid = k)) as [-> | Hne]; [congruence |].
    by rewrite lookup_insert_ne.
Qed.

(** Gone or used: what a spent session id looks like. *)
Definition spent (k : string) (st : store) : Prop :=
  sessions st !! k = None ∨ ∃ s, sessions st !! k = Some s ∧ status s = used.

Lemma exec_spent o now st k :
  created_id o ≠ Some k → spent k st → spent k (exec o now st).
Proof.
  intros Hc [Hnone | (s & Hs & Hu)].
  - left. by apply exec_absent.
  - destruct (sessions (exec o now st) !! k) as [y|] eqn:Hy; [| by left].
    right. exists y. split; [done |].
    assert (Hm : moves (status s) (status y)).
    { destruct o;
        try (match type of Hy with
             | sessions (exec ?o _ _) !! _ = _ =>
                 exact (SessionSpec.exec_moves o now st k s y I Hs Hy)
             end).
      cbn in Hy, Hc. rewrite lookup_insert_ne in Hy by congruence.
      left. congruence. }
    destruct Hm as [Heq | Hedge]; [congruence |].
    rewrite Hu in Hedge. inversion Hedge.
Qed.

Lemma run_spent ops st k :
  Forall (fun on => created_id (fst on) ≠ Some k) ops →
  spent k st → spent k (run ops st).
Proof.
  revert st. induction ops as [| [o now] rest IH]; intros st Hall Hsp; [done |].
  inversion Hall as [| ? ? Ho Hrest]; subst. cbn [run].
  apply IH; [done |]. by apply exec_spent.
Qed.

(** A session is used at most once: after [markSessionUsed] has returned
    true for an id, and whatever commands run afterwards short of creating
    a session under that very id, [markSessionUsed] on the id returns false
    and changes nothing. *)
Theorem markSessionUsed_at_most_once sid t st st1 ops :
  markSessionUsed sid t st = (true, st1) →
  Forall (fun on => created_id (fst on) ≠ Some sid) ops →
  ∀ t', markSessionUsed sid t' (run ops st1) = (false, run ops st1).
Proof.
  intros Hused Hall t'.
  assert (Hsp : spent sid st1).
  { unfold markSessionUsed in Hused.
    destruct (sessions st !! sid) as [s|]; [| done].
    destruct (decide (status s = paid)); [| done].
    injection Hused as <-. right. exists (set_used t s).
    split; [cbn; apply lookup_insert_eq | done]. }
  destruct (run_spent ops st1 sid Hall Hsp) as [Hnone | (s & Hs & Hu)];
    unfold markSessionUsed.
  - by rewrite Hnone.
  - rewrite Hs. destruct (decide (status s = paid)); [congruence | done].
Qed.

(** The demo session, paid at time 2000. *)
Definition paid_demo : store :=
  snd (markSessionPaid "s-1" "sig" 2000 SessionSpec.demo_store).

Lemma markSessionUsed_at_most_once_witness :
  markSessionUsed "s-1" 6000
    (run [(GetSession "s-1", 4000); (CleanupExpiredSessions, 5000)]
       (snd (markSessionUsed "s-1" 3000 paid_demo)))
  = (false, run [(GetSession "s-1", 4000); (CleanupExpiredSessions, 5000)]
              (snd (markSessionUsed "s-1" 3000 paid_demo))).
Proof.
  apply (markSessionUsed_at_most_once "s-1" 3000 paid_demo).
  - vm_compute. reflexivity.
  - repeat constructor; discriminate.
Defined.

End SessionMore.

(** ** Rate limiter: keys, verdicts, blocks and cleanup *)

Module RateLimitMore.
Import RateLimit.

(** Buckets are isolated: two different pairs of wallet and type never
    share a key, so [recordUsage] and [checkRateLimit] for one pair leave
    the bucket of every other pair as it is (a wallet address that contains
    a colon included). *)
Theorem buckets_isolated w t w' t' :
  (w, t) ≠ (w', t') →
  getBucketKey w t ≠ getBucketKey w' t'
  ∧ (∀ agent amt ok now st,
       rateLimitBuckets (snd (recordUsage w agent t amt ok now st))
         !! getBucketKey w' t'
       = rateLimitBuckets st !! getBucketKey w' t')
  ∧ (∀ now st,
       rateLimitBuckets (snd (checkRateLimit w t now st)) !! getBucketKey w' t'
       = rateLimitBuckets st !! getBucketKey w' t').
Proof.
  intros Hne.
  assert (Hk : getBucketKey w' t' ≠ getBucketKey w t).
  { intros Heq. apply RateLimitSpec.getBucketKey_inj in Heq as [-> ->]. done. }
  split; [done |]. split.
  - intros agent amt ok now st. unfold recordUsage.
    pose proof (RateLimitSpec.current_window_other w t now
                  (rateLimitBuckets st !! getBucketKey w t) (rateLimitBuckets st)
                  _ Hk) as Hcw.
    destruct (current_window w t now _ _) as [b m]. cbn [snd] in Hcw.
    destruct (_ <=? count b); [destruct (3 <=? _) |]; cbn;
      by rewrite lookup_insert_ne.
  - intros now st. unfold checkRateLimit.
    destruct (rateLimitBuckets st !! getBucketKey w t) as [b|].
    + destruct (block_end b) as [u|].
      * destruct (now <? u); [done |].
        pose proof (RateLimitSpec.current_window_other w t now (Some (unblock b))
                      (<[getBucketKey w t := unblock b]> (rateLimitBuckets st))
                      _ Hk) as Hcw.
        destruct (current_window w t now _ _) as [b1 m1]. cbn in *.
        by rewrite Hcw, lookup_insert_ne.
      * pose proof (RateLimitSpec.current_window_other w t now (Some b) (rateLimitBuckets st)
                      _ Hk) as Hcw.
        by destruct (current_window w t now _ _) as [b1 m1].
    + pose proof (RateLimitSpec.current_window_other w t now None (rateLimitBuckets st)
                    _ Hk) as Hcw.
      by destruct (current_window w t now _ _) as [b1 m1].
Qed.

Lemma buckets_isolated_witness :
  getBucketKey "a:request" payment ≠ getBucketKey "a" request
  ∧ (∀ agent amt ok now st,
       rateLimitBuckets (snd (recordUsage "a:request" agent payment amt ok now st))
         !! getBucketKey "a" request
       = rateLimitBuckets st !! getBucketKey "a" request)
  ∧ (∀ now st,
       rateLimitBuckets (snd (checkRateLimit "a:request" payment now st))
         !! getBucketKey "a" request
       = rateLimitBuckets st !! getBucketKey "a" request).
Proof.
  apply (buckets_isolated "a:request" payment "a" request). discriminate.
Defined.

(** Every verdict of [checkRateLimit] in a reachable state: [remaining] is
    the ceiling minus the count (0 when the bucket is blocked), never
    negative nor above the ceiling; [allowed] holds exactly when something
    remains; and [resetIn] is positive. *)
Theorem checkRateLimit_verdict ops w t now :
  0 <= remaining (fst (checkRateLimit w t now (run ops initial_state)))
       <= getMaxForType t
  ∧ (allowed (fst (checkRateLimit w t now (run ops initial_state))) = true
     ↔ 0 < remaining (fst (checkRateLimit w t now (run ops initial_state))))
  ∧ 0 < resetIn (fst (checkRateLimit w t now (run ops initial_state))).
Proof.
  pose proof (RateLimitSpec.run_ok ops initial_state RateLimitSpec.initial_ok) as Hok.
  set (st := run ops initial_state) in *.
  pose proof (RateLimitSpec.getMaxForType_pos t) as Hmax.
  assert (Hgo : ∀ old m,
            RateLimitSpec.buckets_ok m → m !! getBucketKey w t = old →
            ∀ b m', current_window w t now old m = (b, m') →
              0 <= Z.max 0 (getMaxForType t - count b) <= getMaxForType t
              ∧ ((count b <? getMaxForType t) = true
                 ↔ 0 < Z.max 0 (getMaxForType t - count b))
              ∧ 0 < WINDOW_SIZE_MS - (now - windowStart b)).
  { intros old m Hm Hold b m' Hcw.
    destruct (RateLimitSpec.current_window_spec w t now old m Hm Hold b m' Hcw)
      as (Hok' & Hb & Hcase).
    destruct (Hok' _ _ Hb) as (Hkey & Hcount & _).
    apply RateLimitSpec.getBucketKey_type in Hkey. rewrite <- Hkey in Hcount.
    rewrite Z.ltb_lt.
    destruct Hcase as [-> | (_ & _ & Hwin)]; cbn; unfold WINDOW_SIZE_MS in *; lia. }
  unfold checkRateLimit.
  destruct (rateLimitBuckets st !! getBucketKey w t) as [b|] eqn:Hb.
  - destruct (block_end b) as [u|] eqn:Hu.
    + destruct (Z.ltb_spec now u); [cbn; split; [lia |]; split; [done | lia] |].
      destruct (current_window w t now (Some (unblock b))
                  (<[getBucketKey w t := unblock b]> (rateLimitBuckets st)))
        as [b1 m1] eqn:Hcw. cbn.
      eapply (Hgo _ _ _ _ b1 m1 Hcw).
    + destruct (current_window w t now (Some b) (rateLimitBuckets st))
        as [b1 m1] eqn:Hcw. cbn.
      eapply (Hgo _ _ Hok Hb b1 m1 Hcw).
  - destruct (current_window w t now None (rateLimitBuckets st))
      as [b1 m1] eqn:Hcw. cbn.
    eapply (Hgo _ _ Hok Hb b1 m1 Hcw).
  Unshelve.
  + apply RateLimitSpec.buckets_ok_insert; [done |].
    apply RateLimitSpec.unblock_ok. by apply Hok.
  + by rewrite lookup_insert_eq.
Qed.

(** [recordUsage] never looks at the block: when the window of the bucket
    has closed, the call is accepted and replaces the bucket by a fresh,
    unblocked one that keeps only the violations, also when the old bucket
    was blocked until later; [checkRateLimit] then allows again although
    the cooldown has not elapsed. *)
Theorem recordUsage_new_window_drops_block w agent t amt ok now st b u :
  rateLimitBuckets st !! getBucketKey w t = Some b →
  blocked b = true → blockedUntil b = Some u → now < u →
  WINDOW_SIZE_MS <= now - windowStart b →
  fst (recordUsage w agent t amt ok now st) = true
  ∧ rateLimitBuckets (snd (recordUsage w agent t amt ok now st)) !! getBucketKey w t
    = Some (mkBucket w t now 1 false None (violations b))
  ∧ (∀ now', now' - now < WINDOW_SIZE_MS →
       allowed (fst (checkRateLimit w t now'
                       (snd (recordUsage w agent t amt ok now st)))) = true).
Proof.
  intros Hb _ _ _ Hwin.
  assert (Hrec : recordUsage w agent t amt ok now st
            = (true,
               mkState
                 (<[getBucketKey w t := mkBucket w t now 1 false None (violations b)]>
                    (<[getBucketKey w t := new_window w t now (Some b)]>
                       (rateLimitBuckets st)))
                 (push_history (mkUsage w agent now t amt ok) (usageHistory st))
                 (updateWalletStats w t amt now (walletStats st))
                 (updateGlobalMetrics t now
                    (push_history (mkUsage w agent now t amt ok) (usageHistory st))
                    (globalMetrics st)))).
  { unfold recordUsage, current_window. rewrite Hb.
    apply Z.leb_le in Hwin. rewrite Hwin. cbn [count new_window].
    pose proof (RateLimitSpec.getMaxForType_pos t).
    assert ((getMaxForType t <=? 0) = false) as -> by (apply Z.leb_gt; lia).
    reflexivity. }
  rewrite Hrec. cbn [fst snd rateLimitBuckets].
  split; [done |]. split; [by rewrite lookup_insert_eq |].
  intros now' Hnow'. unfold checkRateLimit. cbn [rateLimitBuckets].
  rewrite lookup_insert_eq. cbn [block_end blocked].
  unfold current_window. cbn [windowStart].
  assert ((WINDOW_SIZE_MS <=? now' - now) = false) as -> by (apply Z.leb_gt; lia).
  cbn. destruct t; reflexivity.
Qed.

Lemma recordUsage_new_window_drops_block_witness :
  fst (recordUsage "wallet-1" "agent-1" payment None true 61000
         RateLimitSpec.rejected_thrice) = true
  ∧ rateLimitBuckets (snd (recordUsage "wallet-1" "agent-1" payment None true 61000
                             RateLimitSpec.rejected_thrice))
      !! getBucketKey "wallet-1" payment
    = Some (mkBucket "wallet-1" payment 61000 1 false None
              (violations (mkBucket "wallet-1" payment 1000 20 true (Some 301003) 3)))
  ∧ (∀ now', now' - 61000 < WINDOW_SIZE_MS →
       allowed (fst (checkRateLimit "wallet-1" payment now'
                       (snd (recordUsage "wallet-1" "agent-1" payment None true 61000
                               RateLimitSpec.rejected_thrice)))) = true).
Proof.
  apply (recordUsage_new_window_drops_block "wallet-1" "agent-1" payment None true
           61000 RateLimitSpec.rejected_thrice
           (mkBucket "wallet-1" payment 1000 20 true (Some 301003) 3) 301003).
  - vm_compute. reflexivity.
  - reflexivity.
  - reflexivity.
  - lia.
  - vm_compute. discriminate.
Defined.

(** Once the bucket of a reachable state carries two violations or more, a
    single rejected [recordUsage] blocks it for the full cooldown from that
    call on: the bucket it stores is blocked until [now] plus 300000 ms and
    has one violation more, its window and its count as they were. *)
Theorem rejected_call_blocks_repeat_offender ops w agent t amt ok now st' b :
  rateLimitBuckets (run ops initial_state) !! getBucketKey w t = Some b →
  2 <= violations b →
  recordUsage w agent t amt ok now (run ops initial_state) = (false, st') →
  rateLimitBuckets st' !! getBucketKey w t
  = Some (mkBucket (walletAddress b) (type b) (windowStart b) (count b) true
            (Some (now + COOLDOWN_PERIOD_MS)) (violations b + 1)).
Proof.
  intros Hb Hv Hrec.
  pose proof (RateLimitSpec.run_ok ops initial_state RateLimitSpec.initial_ok) as Hok.
  destruct (RateLimitSpec.recordUsage_rejected _ _ _ _ _ _ _ _ Hok Hrec)
    as (b' & Hb' & Hst').
  assert (b' = b) as -> by congruence.
  rewrite Hst'.
  assert ((3 <=? violations b + 1) = true) as -> by (apply Z.leb_le; lia).
  done.
Qed.

(** The stores after the block of [rejected_thrice] was cleared by
    [checkRateLimit] at time 301003 (the window is renewed, the three
    violations stay) and twenty more payments were accepted at that time. *)
Definition offender_ops : list (op * Z) :=
  RateLimitSpec.payments_demo
  ++ replicate 3 (RecordUsage "wallet-1" "agent-1" payment None true, 1001)
  ++ [(CheckRateLimit "wallet-1" payment, 301003)]
  ++ replicate 20 (RecordUsage "wallet-1" "agent-1" payment None true, 301003).

Lemma rejected_call_blocks_repeat_offender_witness :
  rateLimitBuckets
    (snd (recordUsage "wallet-1" "agent-1" payment None true 301004
            (run offender_ops initial_state)))
    !! getBucketKey "wallet-1" payment
  = Some (mkBucket "wallet-1" payment 301003 20 true
            (Some (301004 + COOLDOWN_PERIOD_MS)) (3 + 1)).
Proof.
  apply (rejected_call_blocks_repeat_offender offender_ops "wallet-1" "agent-1"
           payment None true 301004
           (snd (recordUsage "wallet-1" "agent-1" payment None true 301004
                   (run offender_ops initial_state)))
           (mkBucket "wallet-1" payment 301003 20 false None 3)).
  - vm_compute. reflexivity.
  - cbn. lia.
  - vm_compute. reflexivity.
Defined.

Lemma unblock_type_flag w t acc :
  fst (unblock_type w t acc)
  = fst acc || match snd acc !! getBucketKey w t with
               | Some b => blocked b
               | None => false
               end.
Proof.
  destruct acc as [u m]. unfold unblock_type. cbn [fst snd].
  destruct (m !! getBucketKey w t) as [b|]; [| by rewrite orb_false_r].
  destruct (blocked b); cbn; [by rewrite orb_true_r | by rewrite orb_false_r].
Qed.

(** [unblockWallet] returns whether [isWalletBlocked] held, and afterwards
    [isWalletBlocked] is false for the wallet; the buckets of every other
    wallet are as they were. *)
Theorem unblockWallet_unblocks w st :
  fst (unblockWallet w st) = isWalletBlocked w st
  ∧ isWalletBlocked w (snd (unblockWallet w st)) = false
  ∧ (∀ w' t, w' ≠ w →
       rateLimitBuckets (snd (unblockWallet w st)) !! getBucketKey w' t
       = rateLimitBuckets st !! getBucketKey w' t).
Proof.
  set (a0 := (false, rateLimitBuckets st)).
  set (a1 := unblock_type w request a0).
  set (a2 := unblock_type w payment a1).
  set (a3 := unblock_type w execution a2).
  assert (Hkeys : getBucketKey w request ≠ getBucketKey w payment
                  ∧ getBucketKey w request ≠ getBucketKey w execution
                  ∧ getBucketKey w payment ≠ getBucketKey w execution).
  { repeat split; intros Heq; apply RateLimitSpec.getBucketKey_type in Heq;
      discriminate. }
  destruct Hkeys as (Hrp & Hre & Hpe).
  assert (Hl3 : ∀ k, snd a3 !! k
            = if decide (k = getBucketKey w request ∨ k = getBucketKey w payment
                         ∨ k = getBucketKey w execution)
              then match rateLimitBuckets st !! k with
                   | Some b =>
                       Some (if blocked b
                             then mkBucket (walletAddress b) (type b) (windowStart b)
                                    (count b) false None 0
                             else b)
                   | None => None
                   end
              else rateLimitBuckets st !! k).
  { intros k. subst a3 a2 a1 a0. rewrite !RateLimitSpec.unblock_type_lookup. cbn [snd].
    repeat case_decide; subst; try done; try tauto;
      destruct (rateLimitBuckets st !! _) as [b|]; try done;
      destruct (blocked b) eqn:Eb; cbn; rewrite ?Eb; done. }
  assert (Hf3 : fst a3 = isWalletBlocked w st).
  { subst a3 a2 a1. rewrite !unblock_type_flag, !RateLimitSpec.unblock_type_lookup.
    subst a0. cbn [fst snd isWalletBlocked existsb].
    rewrite !decide_False by (intros E; symmetry in E; done || done).
    rewrite orb_false_r, orb_assoc. done. }
  assert (Hres : rateLimitBuckets (snd (unblockWallet w st)) = snd a3
                 ∧ fst (unblockWallet w st) = fst a3).
  { unfold unblockWallet. fold a0 a1 a2 a3.
    destruct a3 as [[] m]; done. }
  destruct Hres as [Hm Hf]. split; [congruence |]. split.
  - assert (Hclear : ∀ t, match snd a3 !! getBucketKey w t with
                          | Some b => blocked b
                          | None => false
                          end = false).
    { intros t. rewrite Hl3. rewrite decide_True by (destruct t; auto).
      destruct (rateLimitBuckets st !! getBucketKey w t) as [b|]; [| done].
      by destruct (blocked b) eqn:E. }
    unfold isWalletBlocked. rewrite Hm. cbn [existsb].
    by rewrite !Hclear.
  - intros w' t Hw. rewrite Hm, Hl3. rewrite decide_False; [done |].
    intros [E | [E | E]]; apply RateLimitSpec.getBucketKey_inj in E as [? _]; done.
Qed.

(** [cleanupOldData] keeps every blocked bucket and every bucket whose
    window began at or after the cutoff, unchanged, drops the others, and
    returns how many it dropped. *)
Theorem cleanupOldData_drops_stale maxAgeMs now st :
  (∀ k, rateLimitBuckets (snd (cleanupOldData maxAgeMs now st)) !! k
        = match rateLimitBuckets st !! k with
          | Some b =>
              if (windowStart b <? now - maxAgeMs) && negb (blocked b)
              then None else Some b
          | None => None
          end)
  ∧ (Z.of_nat (size (rateLimitBuckets st))
     = fst (cleanupOldData maxAgeMs now st)
       + Z.of_nat (size (rateLimitBuckets (snd (cleanupOldData maxAgeMs now st))))).
Proof.
  unfold cleanupOldData. cbn [fst snd rateLimitBuckets with_buckets].
  set (P := fun kv : string * RateLimitBucket =>
              stale (now - maxAgeMs) (snd kv) = true).
  set (Q := fun kv : string * RateLimitBucket =>
              stale (now - maxAgeMs) (snd kv) = false).
  split.
  - intros k. destruct (rateLimitBuckets st !! k) as [b|] eqn:Hb.
    + fold (stale (now - maxAgeMs) b).
      destruct (stale (now - maxAgeMs) b) eqn:Hs.
      * apply map_lookup_filter_None. right. intros b' Hb'. unfold Q. cbn.
        congruence.
      * apply map_lookup_filter_Some. done.
    + apply map_lookup_filter_None. by left.
  - assert (HQ : filter Q (rateLimitBuckets st)
                 = filter (fun kv => ¬ P kv) (rateLimitBuckets st)).
    { apply map_filter_ext. intros k b _. unfold P, Q. cbn.
      destruct (stale (now - maxAgeMs) b); split; congruence. }
    rewrite HQ.
    rewrite <- (map_filter_union_complement P (rateLimitBuckets st)) at 1.
    rewrite map_size_disj_union by apply map_disjoint_filter_complement.
    lia.
Qed.

End RateLimitMore.

(** ** Escrow ledger: validation, disputes, sweep and metrics *)

Module EscrowMore.
Import Escrow.

Lemma base58_char_alphabet (c : ascii) :
  base58_char c = bool_decide (c ∈ list_ascii_of_string base58_alphabet).
Proof.
  destruct c as [[] [] [] [] [] [] [] []]; vm_compute; reflexivity.
Qed.

Lemma all_base58_Forall (a : string) :
  all_base58 a = true
  ↔ Forall (fun c => c ∈ list_ascii_of_string base58_alphabet) (list_ascii_of_string a).
Proof.
  induction a as [| c a IH].
  - change (list_ascii_of_string "") with (@nil ascii).
    split; [intros _; constructor | done].
  - change (list_ascii_of_string (String c a)) with (c :: list_ascii_of_string a).
    cbn [all_base58].
    rewrite andb_true_iff, IH, base58_char_alphabet, bool_decide_eq_true.
    by rewrite Forall_cons.
Qed.

(** [validateSolanaAddress] accepts exactly the strings of 32 to 44
    characters that are all among the 58 characters of the base58 alphabet
    (no 0, O, I or l, no character outside ASCII letters and digits). *)
Theorem validateSolanaAddress_base58 (a : string) :
  validateSolanaAddress a = true
  ↔ (32 <= String.length a <= 44)%nat
    ∧ Forall (fun c => c ∈ list_ascii_of_string base58_alphabet)
        (list_ascii_of_string a).
Proof.
  unfold validateSolanaAddress.
  rewrite !andb_true_iff, all_base58_Forall, !Z.leb_le. split.
  - intros [[H1 H2] H3]. split; [lia | done].
  - intros [H1 H2]. split; [split |]; (done || lia).
Qed.

(** [createEscrow] stores an escrow exactly when both addresses pass
    [validateSolanaAddress], the amount is neither below 0.001 nor above
    1000, and the two addresses differ; otherwise it returns null and
    changes nothing. The escrow it returns is held, carries the arguments,
    the fee and the expiry, and is the one [getEscrow] finds under its id in
    the ledger afterwards; [totalEscrows] and [activeEscrows] grow by one.
    The two comparisons let NaN through: with valid, distinct addresses an
    escrow of amount NaN is created and stored, with fee NaN. *)
Theorem createEscrow_validation dep ben amt cond expiryMs meta now token st :
  (is_Some (fst (createEscrow dep ben amt cond expiryMs meta now token st))
   ↔ validateSolanaAddress dep = true ∧ validateSolanaAddress ben = true
     ∧ JsNum.lt amt MIN_ESCROW_AMOUNT = false
     ∧ JsNum.lt MAX_ESCROW_AMOUNT amt = false
     ∧ dep ≠ ben)
  ∧ (fst (createEscrow dep ben amt cond expiryMs meta now token st) = None →
     snd (createEscrow dep ben amt cond expiryMs meta now token st) = st)
  ∧ (∀ e, fst (createEscrow dep ben amt cond expiryMs meta now token st) = Some e →
       e = mkEscrow (generateEscrowId now token) dep ben amt (calculateEscrowFee amt)
             held now (now + expiryMs) None cond meta
       ∧ getEscrow (id e) (snd (createEscrow dep ben amt cond expiryMs meta now token st))
         = Some e
       ∧ (∀ k, k ≠ id e →
            getEscrow k (snd (createEscrow dep ben amt cond expiryMs meta now token st))
            = getEscrow k st)
       ∧ totalEscrows
           (escrowMetrics (snd (createEscrow dep ben amt cond expiryMs meta now token st)))
         = totalEscrows (escrowMetrics st) + 1
       ∧ activeEscrows
           (escrowMetrics (snd (createEscrow dep ben amt cond expiryMs meta now token st)))
         = activeEscrows (escrowMetrics st) + 1)
  ∧ (validateSolanaAddress dep = true → validateSolanaAddress ben = true →
     dep ≠ ben →
     ∃ e, fst (createEscrow dep ben JsNum.NaN cond expiryMs meta now token st) = Some e
          ∧ amount e = JsNum.NaN ∧ fee e = JsNum.NaN ∧ status e = held
          ∧ getEscrow (id e)
              (snd (createEscrow dep ben JsNum.NaN cond expiryMs meta now token st))
            = Some e).
Proof.
  unfold createEscrow, getEscrow. split; [| split; [| split]].
  - destruct (validateSolanaAddress dep) eqn:Hd,
      (validateSolanaAddress ben) eqn:Hb,
      (JsNum.lt amt MIN_ESCROW_AMOUNT) eqn:Hlo,
      (JsNum.lt MAX_ESCROW_AMOUNT amt) eqn:Hhi,
      (bool_decide_reflect (dep = ben));
      cbn [negb orb fst];
      first [ split; [intros [? [=]] | intros (? & ? & ? & ? & ?); congruence]
            | split; [done | eauto] ].
  - destruct (_ || _); [done |]. destruct (_ || _); [done |].
    by destruct (bool_decide _).
  - intros e.
    destruct (_ || _); [done |]. destruct (_ || _); [done |].
    destruct (bool_decide _); [done |].
    cbn [fst snd escrowAccounts escrowMetrics totalEscrows activeEscrows].
    intros [= <-]. cbn [id].
    split; [done |]. split; [by rewrite lookup_insert_eq |].
    split; [| done]. intros k Hk. by rewrite lookup_insert_ne.
  - intros -> -> Hne.
    assert (Hlo : JsNum.lt JsNum.NaN MIN_ESCROW_AMOUNT = false) by reflexivity.
    assert (Hhi : JsNum.lt MAX_ESCROW_AMOUNT JsNum.NaN = false)
      by (vm_compute; reflexivity).
    rewrite Hlo, Hhi, bool_decide_eq_false_2 by done.
    cbn [negb orb fst snd escrowAccounts].
    eexists. split; [reflexivity |]. cbn [amount fee status id].
    split; [done |]. split; [done |]. split; [done |]. apply lookup_insert_eq.
Qed.

Lemma createEscrow_validation_witness :
  (is_Some (fst (createEscrow EscrowSpec.addr_a EscrowSpec.addr_b (JsNum.ofZ 10)
                   "cond" ESCROW_EXPIRY_MS None 1000 "00aa" initial_state))
   ↔ validateSolanaAddress EscrowSpec.addr_a = true
     ∧ validateSolanaAddress EscrowSpec.addr_b = true
     ∧ JsNum.lt (JsNum.ofZ 10) MIN_ESCROW_AMOUNT = false
     ∧ JsNum.lt MAX_ESCROW_AMOUNT (JsNum.ofZ 10) = false
     ∧ EscrowSpec.addr_a ≠ EscrowSpec.addr_b)
  ∧ getEscrow (generateEscrowId 1000 "00aa")
      (snd (createEscrow EscrowSpec.addr_a EscrowSpec.addr_b (JsNum.ofZ 10)
              "cond" ESCROW_EXPIRY_MS None 1000 "00aa" initial_state))
    = Some (mkEscrow (generateEscrowId 1000 "00aa") EscrowSpec.addr_a EscrowSpec.addr_b
              (JsNum.ofZ 10) (calculateEscrowFee (JsNum.ofZ 10)) held 1000
              (1000 + ESCROW_EXPIRY_MS) None "cond" None)
  ∧ (∃ e, fst (createEscrow EscrowSpec.addr_a EscrowSpec.addr_b JsNum.NaN
                 "cond" ESCROW_EXPIRY_MS None 1000 "00aa" initial_state) = Some e
          ∧ amount e = JsNum.NaN ∧ fee e = JsNum.NaN ∧ status e = held
          ∧ getEscrow (id e)
              (snd (createEscrow EscrowSpec.addr_a EscrowSpec.addr_b JsNum.NaN
                      "cond" ESCROW_EXPIRY_MS None 1000 "00aa" initial_state))
            = Some e).
Proof.
  split; [| split].
  - apply (createEscrow_validation EscrowSpec.addr_a EscrowSpec.addr_b (JsNum.ofZ 10)
             "cond" ESCROW_EXPIRY_MS None 1000 "00aa" initial_state).
  - refine (proj1 (proj2 (proj1 (proj2 (proj2
              (createEscrow_validation EscrowSpec.addr_a EscrowSpec.addr_b
                 (JsNum.ofZ 10) "cond" ESCROW_EXPIRY_MS None 1000 "00aa"
                 initial_state)))
              (mkEscrow (generateEscrowId 1000 "00aa") EscrowSpec.addr_a
                 EscrowSpec.addr_b (JsNum.ofZ 10) (calculateEscrowFee (JsNum.ofZ 10))
                 held 1000 (1000 + ESCROW_EXPIRY_MS) None "cond" None) _))).
    vm_compute. reflexivity.
  - refine (proj2 (proj2 (proj2
              (createEscrow_validation EscrowSpec.addr_a EscrowSpec.addr_b
                 (JsNum.ofZ 10) "cond" ESCROW_EXPIRY_MS None 1000 "00aa"
                 initial_state))) _ _ _).
    + vm_compute. reflexivity.
    + vm_compute. reflexivity.
    + intros [=].
Defined.

(** Every disputed escrow has a dispute record. *)
Definition disputes_ok (st : state) : Prop :=
  ∀ eid e, escrowAccounts st !! eid = Some e → status e = disputed →
    is_Some (activeDisputes st !! eid).

Lemma exec_disputes_ok o now st : disputes_ok st → disputes_ok (exec o now st).
Proof.
  intros Hok. destruct o; cbn [exec].
  - unfold createEscrow.
    destruct (_ || _); [done |]. destruct (_ || _); [done |].
    destruct (bool_decide _); [done |]. cbn [snd].
    intros k e. cbn [escrowAccounts activeDisputes id].
    destruct (decide (generateEscrowId now token = k)) as [<- | Hne].
    + rewrite lookup_insert_eq. by intros [= <-].
    + rewrite lookup_insert_ne by done. apply Hok.
  - unfold releaseEscrow.
    destruct (escrowAccounts st !! eid) as [x|] eqn:Hx; [| done].
    destruct (negb _); [done |]. destruct (negb _); [done |]. cbn [snd].
    intros k e. cbn [escrowAccounts activeDisputes].
    destruct (decide (eid = k)) as [<- | Hne].
    + rewrite lookup_insert_eq. by intros [= <-].
    + rewrite lookup_insert_ne by done. apply Hok.
  - unfold refundEscrow.
    destruct (escrowAccounts st !! eid) as [x|] eqn:Hx; [| done].
    destruct (_ && _); [done |]. cbn [snd].
    intros k e. cbn [escrowAccounts activeDisputes].
    destruct (decide (eid = k)) as [<- | Hne].
    + rewrite lookup_insert_eq. by intros [= <-].
    + rewrite lookup_insert_ne by done. apply Hok.
  - unfold initiateDispute.
    destruct (escrowAccounts st !! eid) as [x|] eqn:Hx; [| done].
    destruct (negb _); [done |]. destruct (_ && _); [done |].
    destruct (activeDisputes st !! eid) as [d|] eqn:Hd; [done |]. cbn [snd].
    intros k e. cbn [escrowAccounts activeDisputes].
    destruct (decide (eid = k)) as [<- | Hne].
    + rewrite !lookup_insert_eq. eauto.
    + rewrite !lookup_insert_ne by done. apply Hok.
  - unfold resolveDispute.
    destruct (activeDisputes st !! eid) as [d|] eqn:Hd; [| done].
    destruct (escrowAccounts st !! eid) as [x|] eqn:Hx; [| done].
    destruct (negb _); [done |].
    destruct res; cbn [snd]; intros k e; cbn [escrowAccounts activeDisputes];
      (destruct (decide (eid = k)) as [<- | Hne];
       [ rewrite lookup_insert_eq; by intros [= <-]
       | rewrite lookup_insert_ne, lookup_delete_ne by done; apply Hok ]).
  - unfold checkExpiredEscrows. cbn [snd]. intros k e.
    cbn [escrowAccounts activeDisputes]. rewrite lookup_fmap.
    destruct (escrowAccounts st !! k) as [x|] eqn:Hx; [| done]. cbn.
    intros [= <-] Hs. apply (Hok k x Hx).
    destruct (overdue now x); [done | exact Hs].
  - unfold extendEscrowExpiry.
    destruct (escrowAccounts st !! eid) as [x|] eqn:Hx; [| done].
    destruct (negb _) eqn:Hh; [done |]. cbn [snd].
    intros k e. cbn [escrowAccounts activeDisputes].
    destruct (decide (eid = k)) as [<- | Hne].
    + rewrite lookup_insert_eq. intros [= <-] Hs. by apply (Hok eid x).
    + rewrite lookup_insert_ne by done. apply Hok.
Qed.

Lemma run_disputes_ok ops st : disputes_ok st → disputes_ok (run ops st).
Proof.
  revert st. induction ops as [| [o now] rest IH]; intros st Hok; [done |].
  cbn [run]. by apply IH, exec_disputes_ok.
Qed.

(** In every state reached from the empty ledger a disputed escrow has its
    dispute record, so [resolveDispute] never fails on a disputed escrow:
    with any resolution it returns true. *)
Theorem resolveDispute_succeeds_on_disputed ops eid e res now :
  escrowAccounts (run ops initial_state) !! eid = Some e →
  status e = disputed →
  is_Some (getDisputeStatus eid (run ops initial_state))
  ∧ fst (resolveDispute eid res now (run ops initial_state)) = true.
Proof.
  intros He Hs.
  assert (Hd : is_Some (activeDisputes (run ops initial_state) !! eid)).
  { eapply (run_disputes_ok ops initial_state); [| done | done].
    intros k x Hk. cbn in Hk. by rewrite lookup_empty in Hk. }
  split; [exact Hd |]. destruct Hd as [d Hd].
  unfold resolveDispute. rewrite Hd, He.
  rewrite (bool_decide_eq_true_2 _ Hs). by destruct res.
Qed.

(** The commands that led to [EscrowSpec.disputed_demo]. *)
Definition disputed_ops : list (op * Z) :=
  [ (CreateEscrow EscrowSpec.addr_a EscrowSpec.addr_b (JsNum.ofZ 10) "cond"
       ESCROW_EXPIRY_MS None "00aa", 1000);
    (InitiateDispute EscrowSpec.demo_id EscrowSpec.addr_b "late" [], 2000) ].

Lemma resolveDispute_succeeds_on_disputed_witness :
  is_Some (getDisputeStatus EscrowSpec.demo_id (run disputed_ops initial_state))
  ∧ fst (resolveDispute EscrowSpec.demo_id refund 3000 (run disputed_ops initial_state))
    = true.
Proof.
  apply (resolveDispute_succeeds_on_disputed disputed_ops EscrowSpec.demo_id
           (set_status disputed
              (mkEscrow EscrowSpec.demo_id EscrowSpec.addr_a EscrowSpec.addr_b
                 (JsNum.ofZ 10) (JsNum.dec 5 2) held 1000 (1000 + ESCROW_EXPIRY_MS)
                 None "cond" None))
           refund 3000).
  - vm_compute. reflexivity.
  - reflexivity.
Defined.

(** [refundEscrow] on a disputed escrow does not close the dispute: the
    record stays in [activeDisputes] (and [getDisputeStatus] keeps returning
    it), while [resolveDispute] and a new [initiateDispute] on that escrow
    fail and change nothing. *)
Theorem refundEscrow_leaves_dispute_record eid r now st e d :
  escrowAccounts st !! eid = Some e →
  status e = disputed →
  activeDisputes st !! eid = Some d →
  getDisputeStatus eid (snd (refundEscrow eid r now st)) = Some d
  ∧ (∀ res now',
       resolveDispute eid res now' (snd (refundEscrow eid r now st))
       = (false, snd (refundEscrow eid r now st)))
  ∧ (∀ by_ reason_ evid now',
       initiateDispute eid by_ reason_ evid now' (snd (refundEscrow eid r now st))
       = (None, snd (refundEscrow eid r now st))).
Proof.
  intros He Hs Hd. unfold refundEscrow, getDisputeStatus. rewrite He.
  rewrite (bool_decide_eq_true_2 _ Hs).
  rewrite (bool_decide_eq_false_2 (status e = held)) by congruence.
  cbn [negb andb snd activeDisputes].
  split; [exact Hd |]. split.
  - intros res now'. unfold resolveDispute. cbn [activeDisputes escrowAccounts].
    rewrite Hd, lookup_insert_eq.
    by rewrite (bool_decide_eq_false_2 (status (close_escrow refunded now e) = disputed)).
  - intros by_ reason_ evid now'. unfold initiateDispute. cbn [escrowAccounts].
    rewrite lookup_insert_eq.
    by rewrite (bool_decide_eq_false_2 (status (close_escrow refunded now e) = held)).
Qed.

Lemma refundEscrow_leaves_dispute_record_witness :
  getDisputeStatus EscrowSpec.demo_id
    (snd (refundEscrow EscrowSpec.demo_id "r" 3000 EscrowSpec.disputed_demo))
  = Some (mkDispute EscrowSpec.demo_id EscrowSpec.addr_b "late" [] 2000 None None)
  ∧ (∀ res now',
       resolveDispute EscrowSpec.demo_id res now'
         (snd (refundEscrow EscrowSpec.demo_id "r" 3000 EscrowSpec.disputed_demo))
       = (false, snd (refundEscrow EscrowSpec.demo_id "r" 3000 EscrowSpec.disputed_demo)))
  ∧ (∀ by_ reason_ evid now',
       initiateDispute EscrowSpec.demo_id by_ reason_ evid now'
         (snd (refundEscrow EscrowSpec.demo_id "r" 3000 EscrowSpec.disputed_demo))
       = (None, snd (refundEscrow EscrowSpec.demo_id "r" 3000 EscrowSpec.disputed_demo))).
Proof.
  apply (refundEscrow_leaves_dispute_record EscrowSpec.demo_id "r" 3000
           EscrowSpec.disputed_demo
           (set_status disputed
              (mkEscrow EscrowSpec.demo_id EscrowSpec.addr_a EscrowSpec.addr_b
                 (JsNum.ofZ 10) (JsNum.dec 5 2) held 1000 (1000 + ESCROW_EXPIRY_MS)
                 None "cond" None))).
  - vm_compute. reflexivity.
  - reflexivity.
  - vm_compute. reflexivity.
Defined.

(** [initiateDispute] on a held escrow without a dispute record: a caller
    who is neither the depositor nor the beneficiary gets null and changes
    nothing; the depositor or the beneficiary gets the new dispute, the
    escrow becomes disputed and [totalDisputed] grows by one while
    [activeEscrows] stays. On an escrow that is already disputed it returns
    null, not the existing dispute. *)
Theorem initiateDispute_parties_only eid by_ reason_ evid now st e :
  escrowAccounts st !! eid = Some e →
  (status e = held → by_ ≠ depositor e → by_ ≠ beneficiary e →
   initiateDispute eid by_ reason_ evid now st = (None, st))
  ∧ (status e = held → by_ = depositor e ∨ by_ = beneficiary e →
     activeDisputes st !! eid = None →
     fst (initiateDispute eid by_ reason_ evid now st)
     = Some (mkDispute eid by_ reason_ evid now None None)
     ∧ EscrowSpec.status_of eid (snd (initiateDispute eid by_ reason_ evid now st))
       = Some disputed
     ∧ totalDisputed (escrowMetrics (snd (initiateDispute eid by_ reason_ evid now st)))
       = totalDisputed (escrowMetrics st) + 1
     ∧ activeEscrows (escrowMetrics (snd (initiateDispute eid by_ reason_ evid now st)))
       = activeEscrows (escrowMetrics st))
  ∧ (status e = disputed →
     initiateDispute eid by_ reason_ evid now st = (None, st)).
Proof.
  intros He. unfold initiateDispute, EscrowSpec.status_of. rewrite He.
  split; [| split].
  - intros Hs Hd Hb. rewrite (bool_decide_eq_true_2 _ Hs).
    by rewrite !bool_decide_eq_false_2 by done.
  - intros Hs Hparty Hnone. rewrite (bool_decide_eq_true_2 _ Hs), Hnone.
    assert (negb (bool_decide (by_ = depositor e))
            && negb (bool_decide (by_ = beneficiary e)) = false) as ->.
    { destruct Hparty as [Hp | Hp]; rewrite (bool_decide_eq_true_2 _ Hp);
        cbn; by rewrite ?andb_false_r. }
    cbn. rewrite lookup_insert_eq. done.
  - intros Hs. by rewrite (bool_decide_eq_false_2 (status e = held)) by congruence.
Qed.

Lemma initiateDispute_parties_only_witness :
  initiateDispute EscrowSpec.demo_id "mallory" "why not" [] 2000 EscrowSpec.created_demo
  = (None, EscrowSpec.created_demo).
Proof.
  refine (proj1 (initiateDispute_parties_only EscrowSpec.demo_id "mallory" "why not"
                   [] 2000 EscrowSpec.created_demo
                   (mkEscrow EscrowSpec.demo_id EscrowSpec.addr_a EscrowSpec.addr_b
                      (JsNum.ofZ 10) (JsNum.dec 5 2) held 1000
                      (1000 + ESCROW_EXPIRY_MS) None "cond" None) _) _ _ _).
  - vm_compute. reflexivity.
  - reflexivity.
  - discriminate.
  - discriminate.
Defined.

(** *** The sweep and the metrics *)

Definition act (kv : string * EscrowAccount) : Prop := is_active (snd kv) = true.

Definition expire (now : Z) (e : EscrowAccount) : EscrowAccount :=
  if overdue now e then set_status expired e else e.

Lemma is_active_status (e : EscrowAccount) :
  is_active e = match status e with
                | held | disputed => true
                | _ => false
                end.
Proof. unfold is_active. by destruct (status e). Qed.

Lemma size_filter_insert_fresh (m : gmap string EscrowAccount) k y :
  m !! k = None →
  Z.of_nat (size (filter act (<[k := y]> m)))
  = Z.of_nat (size (filter act m)) + (if is_active y then 1 else 0).
Proof.
  intros Hk. destruct (is_active y) eqn:Hy.
  - rewrite map_filter_insert_True by done.
    rewrite map_size_insert_None; [lia |].
    apply map_lookup_filter_None. by left.
  - rewrite map_filter_insert_False by (unfold act; cbn; congruence).
    rewrite delete_id by done. lia.
Qed.

Lemma size_filter_insert_stored (m : gmap string EscrowAccount) k x y :
  m !! k = Some x →
  Z.of_nat (size (filter act (<[k := y]> m)))
  = Z.of_nat (size (filter act m))
    - (if is_active x then 1 else 0) + (if is_active y then 1 else 0).
Proof.
  intros Hk.
  rewrite <- (insert_delete_eq m k y).
  rewrite <- (insert_delete_id m k x Hk) at 2.
  rewrite !size_filter_insert_fresh by apply lookup_delete_eq. lia.
Qed.

Lemma active_list_size (m : gmap string EscrowAccount) :
  length (filter (fun e => is_active e = true) (snd <$> map_to_list m))
  = size (filter act m).
Proof.
  induction m as [| k x m Hk IH] using map_ind.
  - by rewrite map_to_list_empty, map_filter_empty, map_size_empty.
  - apply Nat2Z.inj. rewrite size_filter_insert_fresh by done.
    rewrite map_to_list_insert by done. cbn [fmap list_fmap snd].
    rewrite filter_cons. rewrite <- IH.
    destruct (decide (is_active x = true)) as [-> | Hn]; cbn [length].
    + lia.
    + apply not_true_is_false in Hn. rewrite Hn. lia.
Qed.

Lemma sweep_count now (m : gmap string EscrowAccount) :
  Z.of_nat (size (filter act (expire now <$> m)))
  = Z.of_nat (size (filter act m))
    - Z.of_nat (length (filter (fun kv => overdue now (snd kv) = true)
                          (map_to_list m))).
Proof.
  induction m as [| k x m Hk IH] using map_ind.
  - rewrite fmap_empty, map_to_list_empty, map_filter_empty, map_size_empty. done.
  - rewrite fmap_insert.
    rewrite !size_filter_insert_fresh by (by rewrite ?lookup_fmap, Hk).
    rewrite map_to_list_insert by done. rewrite filter_cons. rewrite IH.
    unfold expire. cbn [snd].
    destruct (decide (overdue now x = true)) as [Ho | Hn].
    + rewrite Ho. cbn [length].
      unfold overdue in Ho. apply andb_true_iff in Ho as [Hh _].
      apply bool_decide_eq_true in Hh.
      rewrite !is_active_status. cbn [status set_status]. rewrite Hh. lia.
    + apply not_true_is_false in Hn. rewrite Hn. lia.
Qed.

(** [checkExpiredEscrows] turns exactly the held escrows whose expiry is
    strictly before [now] into expired ones and returns their ids, each
    once; [activeEscrows] drops by their number; a second sweep at the same
    time returns nothing and changes nothing. *)
Theorem checkExpiredEscrows_sweep now st :
  (∀ eid, escrowAccounts (snd (checkExpiredEscrows now st)) !! eid
          = expire now <$> escrowAccounts st !! eid)
  ∧ (∀ eid, eid ∈ fst (checkExpiredEscrows now st)
            ↔ ∃ e, escrowAccounts st !! eid = Some e
                   ∧ status e = held ∧ expiresAt e < now)
  ∧ NoDup (fst (checkExpiredEscrows now st))
  ∧ activeEscrows (escrowMetrics (snd (checkExpiredEscrows now st)))
    = activeEscrows (escrowMetrics st)
      - Z.of_nat (length (fst (checkExpiredEscrows now st)))
  ∧ checkExpiredEscrows now (snd (checkExpiredEscrows now st))
    = ([], snd (checkExpiredEscrows now st)).
Proof.
  unfold checkExpiredEscrows. cbn [fst snd escrowAccounts escrowMetrics activeEscrows].
  split; [| split; [| split; [| split]]].
  - intros eid. by rewrite lookup_fmap.
  - intros eid. rewrite list_elem_of_fmap. split.
    + intros ([k e] & -> & Hin). apply list_elem_of_filter in Hin as [Ho Hin].
      apply elem_of_map_to_list in Hin. cbn in *.
      unfold overdue in Ho. apply andb_true_iff in Ho as [Hh Ht].
      apply bool_decide_eq_true in Hh. apply Z.ltb_lt in Ht. eauto.
    + intros (e & He & Hh & Ht). exists (eid, e). split; [done |].
      apply list_elem_of_filter. split; [| by apply elem_of_map_to_list].
      cbn. unfold overdue. rewrite (bool_decide_eq_true_2 _ Hh). cbn.
      by apply Z.ltb_lt.
  - eapply sublist_NoDup; [apply (NoDup_fst_map_to_list (escrowAccounts st)) |].
    apply fmap_sublist, sublist_filter.
  - done.
  - assert (Hnone : filter (fun kv => overdue now (snd kv) = true)
                      (map_to_list (expire now <$> escrowAccounts st)) = []).
    { apply elem_of_nil_inv. intros [k e] Hin.
      apply list_elem_of_filter in Hin as [Ho Hin]. cbn in Ho.
      apply elem_of_map_to_list in Hin. rewrite lookup_fmap in Hin.
      destruct (escrowAccounts st !! k) as [x|]; [| done].
      cbn in Hin. injection Hin as <-. unfold expire in Ho.
      destruct (overdue now x) eqn:Hx; [| congruence]. done. }
    fold (expire now). rewrite Hnone. cbn [fmap list_fmap length].
    f_equal. f_equal.
    + apply map_eq. intros k. rewrite !lookup_fmap.
      destruct (escrowAccounts st !! k) as [x|]; [| done]. cbn. f_equal.
      unfold expire. destruct (overdue now x) eqn:Hx; [done | by rewrite Hx].
    + f_equal. cbn. lia.
Qed.

(** Fees are collected by [releaseEscrow] alone: every other command,
    [resolveDispute] with resolution release included, leaves
    [totalFeesCollected] as it is. *)
Theorem fees_collected_only_on_release o now st :
  (∀ eid a, o ≠ ReleaseEscrow eid a) →
  totalFeesCollected (escrowMetrics (exec o now st))
  = totalFeesCollected (escrowMetrics st).
Proof.
  intros Hrel. destruct o; cbn [exec].
  - unfold createEscrow.
    destruct (_ || _); [done |]. destruct (_ || _); [done |].
    by destruct (bool_decide _).
  - by destruct (Hrel eid authorizedBy).
  - unfold refundEscrow.
    destruct (escrowAccounts st !! eid) as [x|]; [| done].
    by destruct (_ && _).
  - unfold initiateDispute.
    destruct (escrowAccounts st !! eid) as [x|]; [| done].
    destruct (negb _); [done |]. destruct (_ && _); [done |].
    by destruct (activeDisputes st !! eid).
  - unfold resolveDispute.
    destruct (activeDisputes st !! eid) as [d|]; [| done].
    destruct (escrowAccounts st !! eid) as [x|]; [| done].
    destruct (negb _); [done |]. by destruct res.
  - done.
  - unfold extendEscrowExpiry.
    destruct (escrowAccounts st !! eid) as [x|]; [| done].
    by destruct (negb _).
Qed.

Lemma fees_collected_only_on_release_witness :
  totalFeesCollected
    (escrowMetrics (exec (ResolveDispute EscrowSpec.demo_id release) 3000
                      EscrowSpec.disputed_demo))
  = totalFeesCollected (escrowMetrics EscrowSpec.disputed_demo).
Proof.
  apply (fees_collected_only_on_release (ResolveDispute EscrowSpec.demo_id release) 3000
           EscrowSpec.disputed_demo).
  discriminate.
Defined.

(** The counters that mirror the ledger. *)
Definition metrics_ok (st : state) : Prop :=
  activeEscrows (escrowMetrics st) = Z.of_nat (size (filter act (escrowAccounts st)))
  ∧ totalEscrows (escrowMetrics st) = Z.of_nat (size (escrowAccounts st)).

Lemma exec_metrics_ok o now st :
  fresh_id o now st → metrics_ok st → metrics_ok (exec o now st).
Proof.
  intros Hfresh [Ha Ht]. destruct o; cbn [exec fresh_id] in *.
  - unfold createEscrow.
    destruct (_ || _); [done |]. destruct (_ || _); [done |].
    destruct (bool_decide _); [done |].
    split; cbn [snd escrowAccounts escrowMetrics activeEscrows totalEscrows id].
    + rewrite size_filter_insert_fresh by done.
      rewrite is_active_status. cbn [status]. lia.
    + rewrite map_size_insert_None by done. lia.
  - unfold releaseEscrow.
    destruct (escrowAccounts st !! eid) as [x|] eqn:Hx; [| done].
    destruct (bool_decide_reflect (status x = held)) as [Hh |]; [| done]. cbn [negb].
    destruct (negb _); [done |].
    split; cbn [snd escrowAccounts escrowMetrics activeEscrows totalEscrows
                updateAverageHoldTime].
    + rewrite (size_filter_insert_stored _ _ x) by done.
      rewrite !is_active_status. cbn [status close_escrow set_status]. rewrite Hh. lia.
    + rewrite map_size_insert_Some by done. done.
  - unfold refundEscrow.
    destruct (escrowAccounts st !! eid) as [x|] eqn:Hx; [| done].
    destruct (negb (bool_decide (status x = held))
              && negb (bool_decide (status x = disputed))) eqn:Hc; [done |].
    split; cbn [snd escrowAccounts escrowMetrics activeEscrows totalEscrows
                updateAverageHoldTime].
    + rewrite (size_filter_insert_stored _ _ x) by done.
      replace (is_active x) with true.
      { rewrite is_active_status. cbn [status close_escrow]. lia. }
      unfold is_active. symmetry.
      apply andb_false_iff in Hc as [Hc | Hc]; apply negb_false_iff in Hc;
        rewrite Hc; by rewrite ?orb_true_r.
    + rewrite map_size_insert_Some by done. done.
  - unfold initiateDispute.
    destruct (escrowAccounts st !! eid) as [x|] eqn:Hx; [| done].
    destruct (bool_decide_reflect (status x = held)) as [Hh |]; [| done]. cbn [negb].
    destruct (_ && _); [done |].
    destruct (activeDisputes st !! eid); [done |].
    split; cbn [snd escrowAccounts escrowMetrics activeEscrows totalEscrows].
    + rewrite (size_filter_insert_stored _ _ x) by done.
      rewrite !is_active_status. cbn [status close_escrow set_status]. rewrite Hh. lia.
    + rewrite map_size_insert_Some by done. done.
  - unfold resolveDispute.
    destruct (activeDisputes st !! eid) as [d|]; [| done].
    destruct (escrowAccounts st !! eid) as [x|] eqn:Hx; [| done].
    destruct (bool_decide_reflect (status x = disputed)) as [Hd |]; [| done].
    cbn [negb].
    destruct res;
      (split; cbn [snd escrowAccounts escrowMetrics activeEscrows totalEscrows];
       [ rewrite (size_filter_insert_stored _ _ x) by done;
         rewrite !is_active_status; cbn [status close_escrow]; rewrite Hd; lia
       | rewrite map_size_insert_Some by done; done ]).
  - unfold checkExpiredEscrows.
    split; cbn [snd escrowAccounts escrowMetrics activeEscrows totalEscrows].
    + fold (expire now). rewrite sweep_count, length_fmap. lia.
    + by rewrite map_size_fmap.
  - unfold extendEscrowExpiry.
    destruct (escrowAccounts st !! eid) as [x|] eqn:Hx; [| done].
    destruct (negb _); [done |].
    split; cbn [snd escrowAccounts escrowMetrics activeEscrows totalEscrows].
    + rewrite (size_filter_insert_stored _ _ x) by done.
      rewrite !is_active_status. cbn [status set_expiresAt].
      destruct (status x); lia.
    + rewrite map_size_insert_Some by done. done.
Qed.

(** The counters of [getEscrowMetrics] mirror the ledger: in every state
    reached from the empty ledger (each created escrow receiving a fresh
    id), [totalEscrows] is the number of stored escrows and [activeEscrows]
    is the number of escrows [getActiveEscrows] returns, the held and the
    disputed ones. *)
Theorem metrics_mirror_ledger ops :
  fresh_run ops initial_state →
  totalEscrows (escrowMetrics (run ops initial_state))
  = Z.of_nat (size (escrowAccounts (run ops initial_state)))
  ∧ activeEscrows (escrowMetrics (run ops initial_state))
    = Z.of_nat (length (getActiveEscrows (run ops initial_state))).
Proof.
  intros Hfresh.
  assert (Hok : metrics_ok (run ops initial_state)).
  { assert (H0 : metrics_ok initial_state).
    { split; cbn; by rewrite ?map_filter_empty, map_size_empty. }
    revert H0 Hfresh. generalize initial_state.
    induction ops as [| [o now] rest IH]; intros st H0 Hf; [done |].
    destruct Hf as [Hf Hrest]. cbn [run].
    apply IH; [by apply exec_metrics_ok | done]. }
  destruct Hok as [Ha Ht]. split; [done |].
  unfold getActiveEscrows. by rewrite active_list_size.
Qed.

Lemma metrics_mirror_ledger_witness :
  totalEscrows (escrowMetrics (run disputed_ops initial_state))
  = Z.of_nat (size (escrowAccounts (run disputed_ops initial_state)))
  ∧ activeEscrows (escrowMetrics (run disputed_ops initial_state))
    = Z.of_nat (length (getActiveEscrows (run disputed_ops initial_state))).
Proof.
  apply (metrics_mirror_ledger disputed_ops).
  vm_compute. auto.
Defined.

(** Escrow ids do not collide: two ids built from random tokens of the
    same length (the hex rendering of 12 bytes always has 24 characters) are
    equal only for the same clock reading and the same token. *)
Theorem generateEscrowId_injective now token now' token' :
  String.length token = String.length token' →
  generateEscrowId now token = generateEscrowId now' token' →
  now = now' ∧ token = token'.
Proof.
  intros Hlen Heq. unfold generateEscrowId in Heq.
  apply (inj (String.app "x402_escrow_")) in Heq.
  assert (Htok : token = token').
  { rewrite <- !RateLimitSpec.append_assoc in Heq.
    by apply (RateLimitSpec.append_tail_inj token token' Hlen) in Heq. }
  subst token'. split; [| done].
  rewrite <- !RateLimitSpec.append_assoc in Heq.
  apply RateLimitSpec.append_head_inj in Heq.
  apply RateLimitSpec.append_head_inj in Heq.
  by apply (inj pretty) in Heq.
Qed.

Lemma generateEscrowId_injective_witness :
  (1000 : Z) = 1000 ∧ "00aa"%string = "00aa"%string.
Proof.
  apply (generateEscrowId_injective 1000 "00aa" 1000 "00aa"); reflexivity.
Defined.

(** *** The indexes by depositor and by beneficiary *)

(** An index agrees with the ledger on the party [f] of every escrow. *)
Definition index_ok (f : EscrowAccount → string)
    (accounts : gmap string EscrowAccount) (index : gmap string (list string)) : Prop :=
  (∀ d ids eid, index !! d = Some ids → eid ∈ ids →
     ∃ e, accounts !! eid = Some e ∧ f e = d)
  ∧ (∀ eid e, accounts !! eid = Some e →
       ∃ ids, index !! f e = Some ids ∧ eid ∈ ids).

Lemma index_ok_rewrite f accounts index eid x y :
  accounts !! eid = Some x → f y = f x →
  index_ok f accounts index → index_ok f (<[eid := y]> accounts) index.
Proof.
  intros Hx Hf [H1 H2]. split.
  - intros d ids k Hd Hk. destruct (H1 d ids k Hd Hk) as (e & He & Hfe).
    destruct (decide (eid = k)) as [<- | Hne].
    + rewrite lookup_insert_eq. exists y. split; [done |]. congruence.
    + rewrite lookup_insert_ne by done. eauto.
  - intros k e. destruct (decide (eid = k)) as [<- | Hne].
    + rewrite lookup_insert_eq. intros [= <-]. rewrite Hf. by apply H2.
    + rewrite lookup_insert_ne by done. apply H2.
Qed.

Lemma index_ok_fmap f g accounts index :
  (∀ e, f (g e) = f e) →
  index_ok f accounts index → index_ok f (g <$> accounts) index.
Proof.
  intros Hf [H1 H2]. split.
  - intros d ids k Hd Hk. destruct (H1 d ids k Hd Hk) as (e & He & Hfe).
    exists (g e). rewrite lookup_fmap, He. split; [done |]. by rewrite Hf.
  - intros k e'. rewrite lookup_fmap.
    destruct (accounts !! k) as [e|] eqn:He; [| done].
    intros [= <-]. rewrite Hf. by apply H2.
Qed.

Lemma index_ok_create f accounts index eid y :
  accounts !! eid = None →
  index_ok f accounts index →
  index_ok f (<[eid := y]> accounts) (index_add (f y) eid index).
Proof.
  intros Hfresh [H1 H2].
  assert (Hadd : ∀ d, index_add (f y) eid index !! d
            = if decide (d = f y)
              then Some (JsSet.set_add eid (default [] (index !! f y)))
              else index !! d).
  { intros d. unfold index_add.
    destruct (index !! f y) as [ids|] eqn:Hi; cbn;
      (destruct (decide (d = f y)) as [-> | Hne];
       [by rewrite lookup_insert_eq | by rewrite lookup_insert_ne]). }
  assert (Hmem : ∀ k l, k ∈ JsSet.set_add eid l ↔ k = eid ∨ k ∈ l).
  { intros k l. unfold JsSet.set_add. destruct (decide (eid ∈ l)).
    - split; [auto | intros [-> | ?]; done].
    - rewrite elem_of_app, list_elem_of_singleton. tauto. }
  split.
  - intros d ids k. rewrite Hadd. destruct (decide (d = f y)) as [-> | Hne].
    + intros [= <-]. rewrite Hmem. intros [-> | Hk].
      * rewrite lookup_insert_eq. eauto.
      * destruct (index !! f y) as [ids|] eqn:Hi; [| by apply elem_of_nil in Hk].
        destruct (H1 _ _ _ Hi Hk) as (e & He & Hfe).
        rewrite lookup_insert_ne by congruence. eauto.
    + intros Hd Hk. destruct (H1 _ _ _ Hd Hk) as (e & He & Hfe).
      rewrite lookup_insert_ne by congruence. eauto.
  - intros k e. rewrite Hadd. destruct (decide (eid = k)) as [<- | Hne].
    + rewrite lookup_insert_eq. intros [= <-]. rewrite decide_True by done.
      eexists. split; [done |]. apply Hmem. by left.
    + rewrite lookup_insert_ne by done. intros He.
      destruct (H2 k e He) as (ids & Hi & Hk).
      destruct (decide (f e = f y)) as [Heq | Hne'].
      * eexists. split; [done |]. apply Hmem. right. rewrite <- Heq, Hi. done.
      * eauto.
Qed.

Definition indexes_ok (st : state) : Prop :=
  index_ok depositor (escrowAccounts st) (escrowsByDepositor st)
  ∧ index_ok beneficiary (escrowAccounts st) (escrowsByBeneficiary st).

Lemma exec_indexes_ok o now st :
  fresh_id o now st → indexes_ok st → indexes_ok (exec o now st).
Proof.
  intros Hfresh [Hd Hb]. destruct o; cbn [exec fresh_id] in *.
  - unfold createEscrow.
    destruct (_ || _); [done |]. destruct (_ || _); [done |].
    destruct (bool_decide _); [done |].
    split; cbn [snd escrowAccounts escrowsByDepositor escrowsByBeneficiary id].
    + by apply (index_ok_create depositor _ _ _
                  (mkEscrow (generateEscrowId now token) dep ben amt
                     (calculateEscrowFee amt) held now (now + expiryMs) None cond meta)).
    + by apply (index_ok_create beneficiary _ _ _
                  (mkEscrow (generateEscrowId now token) dep ben amt
                     (calculateEscrowFee amt) held now (now + expiryMs) None cond meta)).
  - unfold releaseEscrow.
    destruct (escrowAccounts st !! eid) as [x|] eqn:Hx; [| done].
    destruct (negb _); [done |]. destruct (negb _); [done |].
    split; cbn [snd escrowAccounts escrowsByDepositor escrowsByBeneficiary];
      by eapply index_ok_rewrite.
  - unfold refundEscrow.
    destruct (escrowAccounts st !! eid) as [x|] eqn:Hx; [| done].
    destruct (_ && _); [done |].
    split; cbn [snd escrowAccounts escrowsByDepositor escrowsByBeneficiary];
      by eapply index_ok_rewrite.
  - unfold initiateDispute.
    destruct (escrowAccounts st !! eid) as [x|] eqn:Hx; [| done].
    destruct (negb _); [done |]. destruct (_ && _); [done |].
    destruct (activeDisputes st !! eid); [done |].
    split; cbn [snd escrowAccounts escrowsByDepositor escrowsByBeneficiary];
      by eapply index_ok_rewrite.
  - unfold resolveDispute.
    destruct (activeDisputes st !! eid) as [d|]; [| done].
    destruct (escrowAccounts st !! eid) as [x|] eqn:Hx; [| done].
    destruct (negb _); [done |].
    destruct res;
      (split; cbn [snd escrowAccounts escrowsByDepositor escrowsByBeneficiary];
       by eapply index_ok_rewrite).
  - unfold checkExpiredEscrows.
    split; cbn [snd escrowAccounts escrowsByDepositor escrowsByBeneficiary];
      (apply index_ok_fmap; [| done]); intros e; by destruct (overdue now e).
  - unfold extendEscrowExpiry.
    destruct (escrowAccounts st !! eid) as [x|] eqn:Hx; [| done].
    destruct (negb _); [done |].
    split; cbn [snd escrowAccounts escrowsByDepositor escrowsByBeneficiary];
      by eapply index_ok_rewrite.
Qed.

Lemma run_indexes_ok ops st :
  fresh_run ops st → indexes_ok st → indexes_ok (run ops st).
Proof.
  revert st. induction ops as [| [o now] rest IH]; intros st Hf Hok; [done |].
  destruct Hf as [Hf Hrest]. cbn [run].
  apply IH; [done | by apply exec_indexes_ok].
Qed.

Lemma elem_of_escrows_of e ids st :
  e ∈ escrows_of ids st ↔ ∃ eid, eid ∈ ids ∧ escrowAccounts st !! eid = Some e.
Proof. unfold escrows_of. apply list_elem_of_omap. Qed.

(** In every state reached from the empty ledger (each created escrow
    receiving a fresh id), [getDepositorEscrows] returns exactly the stored
    escrows whose depositor is the given address, and
    [getBeneficiaryEscrows] exactly those whose beneficiary it is. *)
Theorem party_indexes_complete ops who e :
  fresh_run ops initial_state →
  (e ∈ getDepositorEscrows who (run ops initial_state)
   ↔ ∃ eid, escrowAccounts (run ops initial_state) !! eid = Some e ∧ depositor e = who)
  ∧ (e ∈ getBeneficiaryEscrows who (run ops initial_state)
     ↔ ∃ eid, escrowAccounts (run ops initial_state) !! eid = Some e
              ∧ beneficiary e = who).
Proof.
  intros Hfresh.
  assert (Hok : indexes_ok (run ops initial_state)).
  { apply run_indexes_ok; [done |].
    split; (split; [intros d ids k Hd | intros k x Hk]); cbn in *;
      by rewrite lookup_empty in *. }
  set (st := run ops initial_state) in *.
  assert (Hgen : ∀ f index,
            index_ok f (escrowAccounts st) index →
            e ∈ match index !! who with
                | None => []
                | Some ids => escrows_of ids st
                end
            ↔ ∃ eid, escrowAccounts st !! eid = Some e ∧ f e = who).
  { intros f index [H1 H2]. split.
    - destruct (index !! who) as [ids|] eqn:Hi; [| by intros ?%elem_of_nil].
      intros (eid & Hin & He)%elem_of_escrows_of.
      destruct (H1 _ _ _ Hi Hin) as (e' & He' & Hf).
      exists eid. split; [done |]. congruence.
    - intros (eid & He & Hf). destruct (H2 _ _ He) as (ids & Hi & Hin).
      rewrite Hf in Hi. rewrite Hi. apply elem_of_escrows_of. eauto. }
  destruct Hok as [Hd Hb]. split; [apply (Hgen depositor), Hd |
                                   apply (Hgen beneficiary), Hb].
Qed.

Lemma party_indexes_complete_witness :
  (set_status disputed
     (mkEscrow EscrowSpec.demo_id EscrowSpec.addr_a EscrowSpec.addr_b
        (JsNum.ofZ 10) (JsNum.dec 5 2) held 1000 (1000 + ESCROW_EXPIRY_MS)
        None "cond" None)
   ∈ getDepositorEscrows EscrowSpec.addr_a (run disputed_ops initial_state)
   ↔ ∃ eid, escrowAccounts (run disputed_ops initial_state) !! eid
            = Some (set_status disputed
                      (mkEscrow EscrowSpec.demo_id EscrowSpec.addr_a EscrowSpec.addr_b
                         (JsNum.ofZ 10) (JsNum.dec 5 2) held 1000
                         (1000 + ESCROW_EXPIRY_MS) None "cond" None))
            ∧ depositor
                (set_status disputed
                   (mkEscrow EscrowSpec.demo_id EscrowSpec.addr_a EscrowSpec.addr_b
                      (JsNum.ofZ 10) (JsNum.dec 5 2) held 1000
                      (1000 + ESCROW_EXPIRY_MS) None "cond" None))
              = EscrowSpec.addr_a).
Proof.
  refine (proj1 (party_indexes_complete disputed_ops EscrowSpec.addr_a _ _)).
  vm_compute. auto.
Defined.

End EscrowMore.

(** ** Dynamic pricing: prices, discounts, history *)

Module PricingMore.
Import JsNum Pricing.

Lemma Math_max_zero_not_negative (y : number) :
  lt (Math_max (ofZ 0) y) (ofZ 0) = false.
Proof. destruct y as [[] | [] | | [] m e]; reflexivity. Qed.

(** [calculatePrice] never returns a negative price, for any agent, units,
    wallet, discount rules and clock (the price may be NaN, which is not
    below zero). *)
Theorem calculatePrice_not_negative agent units wallet now st :
  lt (qprice (calculatePrice agent units wallet now st)) (ofZ 0) = false.
Proof.
  unfold calculatePrice.
  destruct (agentPricing st !! agent) as [p|]; [| reflexivity].
  destruct (eq (tierMultipliers (tier p)) (ofZ 0)); [reflexivity |].
  destruct (dynamicPricing p);
    (destruct wallet as [w|];
     [ destruct (bool_decide (w = ""%string)); [| destruct (lt (ofZ 0) _)] |]);
    apply Math_max_zero_not_negative.
Qed.

(** The contribution of one rule to the discount of a wallet. *)
Definition rule_discount (baseAmount : number) (rule : DiscountRule) : number :=
  mul baseAmount (div (discountPercent rule) (ofZ 100)).

Lemma discount_loop_active rules wallet vol baseAmount now acc :
  discount_loop rules wallet vol baseAmount now acc
  = foldl (fun a rule => Math_max a (rule_discount baseAmount rule)) acc
      (filter (fun rule => active rule && negb (rule_lapsed rule now)
                           && rule_applies rule wallet vol = true) rules).
Proof.
  revert acc. induction rules as [| rule rest IH]; intros acc; [done |].
  cbn [discount_loop]. rewrite IH, filter_cons.
  destruct (active rule); cbn [negb andb]; [| by rewrite decide_False].
  destruct (rule_lapsed rule now); cbn [negb andb]; [by rewrite decide_False |].
  destruct (rule_applies rule wallet vol); [by rewrite decide_True |].
  by rewrite decide_False.
Qed.

(** [calculateWalletDiscount] and [getActiveDiscounts] agree on which rules
    count: the discount of a wallet is the largest contribution among the
    rules [getActiveDiscounts] returns for it (0 when it returns none), not
    their sum. *)
Theorem discount_is_max_over_active_rules wallet baseAmount now st :
  calculateWalletDiscount wallet baseAmount now st
  = foldl (fun a rule => Math_max a (rule_discount baseAmount rule)) (ofZ 0)
      (getActiveDiscounts wallet now st).
Proof. unfold calculateWalletDiscount, getActiveDiscounts. apply discount_loop_active. Qed.

Lemma rules_get_set k v l : rules_get k (rules_set k v l) = Some v.
Proof.
  induction l as [| [k' v'] rest IH]; cbn.
  - by rewrite bool_decide_eq_true_2.
  - destruct (bool_decide_reflect (k' = k)); cbn.
    + by rewrite bool_decide_eq_true_2.
    + by rewrite bool_decide_eq_false_2.
Qed.

Lemma rules_get_set_ne k k' v l :
  k ≠ k' → rules_get k' (rules_set k v l) = rules_get k' l.
Proof.
  intros Hne. induction l as [| [k0 v0] rest IH]; cbn.
  - by rewrite bool_decide_eq_false_2.
  - destruct (bool_decide_reflect (k0 = k)) as [-> |]; cbn.
    + by rewrite !bool_decide_eq_false_2.
    + by rewrite IH.
Qed.

Lemma rules_set_length k v l :
  length (rules_set k v l)
  = match rules_get k l with
    | Some _ => length l
    | None => S (length l)
    end.
Proof.
  induction l as [| [k' v'] rest IH]; cbn; [done |].
  destruct (bool_decide (k' = k)); cbn; [done |].
  rewrite IH. by destruct (rules_get k rest).
Qed.

(** The id of a discount rule is the clock reading alone: a rule created in
    the same millisecond as an earlier one takes its place (the earlier rule
    is gone and the number of rules does not grow), while rules created at
    different clock readings are both kept. *)
Theorem createDiscountRule_same_millisecond n1 t1 p1 o1 n2 t2 p2 o2 now now' st :
  rules_get (id (fst (createDiscountRule n1 t1 p1 o1 now st)))
    (discountRules
       (snd (createDiscountRule n2 t2 p2 o2 now
               (snd (createDiscountRule n1 t1 p1 o1 now st)))))
  = Some (fst (createDiscountRule n2 t2 p2 o2 now
                 (snd (createDiscountRule n1 t1 p1 o1 now st))))
  ∧ length (getDiscountRules
              (snd (createDiscountRule n2 t2 p2 o2 now
                      (snd (createDiscountRule n1 t1 p1 o1 now st)))))
    = length (getDiscountRules (snd (createDiscountRule n1 t1 p1 o1 now st)))
  ∧ (now' ≠ now →
     rules_get (id (fst (createDiscountRule n1 t1 p1 o1 now st)))
       (discountRules
          (snd (createDiscountRule n2 t2 p2 o2 now'
                  (snd (createDiscountRule n1 t1 p1 o1 now st)))))
     = Some (fst (createDiscountRule n1 t1 p1 o1 now st))).
Proof.
  unfold getDiscountRules. cbn [createDiscountRule fst snd id discountRules].
  split; [by rewrite rules_get_set |]. split.
  - rewrite !length_fmap, (rules_set_length _ _ (rules_set _ _ _)).
    by rewrite rules_get_set.
  - intros Hne. rewrite rules_get_set_ne; [by rewrite rules_get_set |].
    intros Heq. apply (inj (String.app "x402_discount_")) in Heq.
    apply (inj pretty) in Heq. done.
Qed.

(** [deactivateDiscountRule] on a stored rule returns true and only clears
    its [active] flag: the rule keeps its place and its other fields, every
    other rule is untouched; on an unknown id it returns false and changes
    nothing. *)
Theorem deactivateDiscountRule_clears_flag ruleId st :
  match rules_get ruleId (discountRules st) with
  | None => deactivateDiscountRule ruleId st = (false, st)
  | Some rule =>
      fst (deactivateDiscountRule ruleId st) = true
      ∧ rules_get ruleId (discountRules (snd (deactivateDiscountRule ruleId st)))
        = Some (mkRule (id rule) (name rule) (type rule) (discountPercent rule)
                  (minVolume rule) (walletAddresses rule) (validUntil rule) false)
      ∧ (∀ k, k ≠ ruleId →
           rules_get k (discountRules (snd (deactivateDiscountRule ruleId st)))
           = rules_get k (discountRules st))
      ∧ fst <$> discountRules (snd (deactivateDiscountRule ruleId st))
        = fst <$> discountRules st
  end.
Proof.
  unfold deactivateDiscountRule.
  destruct (rules_get ruleId (discountRules st)) as [rule|] eqn:Hr; [| done].
  cbn [fst snd discountRules]. split; [done |].
  split; [by rewrite rules_get_set |].
  split; [intros k Hk; by rewrite rules_get_set_ne |].
  clear -Hr. induction (discountRules st) as [| [k v] rest IH]; [done |].
  cbn in *. destruct (bool_decide_reflect (k = ruleId)) as [-> |]; cbn; [done |].
  f_equal. by apply IH.
Qed.

(** Histories are trimmed to their last 100 entries. *)
Definition history_ok (st : state) : Prop :=
  ∀ a h, pricingHistory st !! a = Some h → (length h <= 100)%nat.

Lemma push_history_length h l :
  (length l <= 100)%nat → (length (push_history h l) <= 100)%nat.
Proof.
  intros Hl. unfold push_history.
  assert (Hlen : length (l ++ [h]) = S (length l)) by (rewrite length_app; cbn; lia).
  destruct (Z.ltb_spec 100 (Z.of_nat (length (l ++ [h])))) as [Hlt | Hge].
  - destruct (l ++ [h]) as [| x rest]; cbn in *; lia.
  - lia.
Qed.

Lemma updateDynamicPricing_history_ok agent now st :
  history_ok st → history_ok (updateDynamicPricing agent now st).
Proof.
  intros Hok. unfold updateDynamicPricing.
  destruct (agentPricing st !! agent) as [pr|]; [| done].
  destruct (demandMetrics st !! agent) as [me|]; [| done].
  destruct (negb (dynamicPricing pr)); [done |].
  destruct (_ <? _); [done |].
  destruct (negb (eq _ _)); [| done].
  destruct (pricingHistory st !! agent) as [h|] eqn:Hh; [| done].
  intros a h'. cbn [pricingHistory].
  destruct (decide (agent = a)) as [<- | Hne].
  - rewrite lookup_insert_eq. intros [= <-].
    apply push_history_length. by apply (Hok agent).
  - rewrite lookup_insert_ne by done. apply Hok.
Qed.

Lemma exec_history_ok o now st : history_ok st → history_ok (exec o now st).
Proof.
  intros Hok. destruct o; cbn [exec].
  - intros a h. cbn [registerAgentPricing snd pricingHistory].
    destruct (decide (agent = a)) as [<- | Hne].
    + rewrite lookup_insert_eq. intros [= <-]. cbn. lia.
    + rewrite lookup_insert_ne by done. apply Hok.
  - unfold recordRequest.
    destruct (demandMetrics st !! agent) as [me|]; [| done].
    by apply updateDynamicPricing_history_ok.
  - unfold updateAgentPricing.
    by destruct (agentPricing st !! agent).
  - done.
  - unfold deactivateDiscountRule.
    by destruct (rules_get ruleId (discountRules st)).
Qed.

(** In every state reached from the empty stores, whatever the commands and
    the clock readings, the price history of an agent never holds more than
    100 entries. *)
Theorem pricing_history_bounded ops a h :
  pricingHistory (run ops initial_state) !! a = Some h → (length h <= 100)%nat.
Proof.
  assert (Hok : history_ok (run ops initial_state)).
  { assert (H0 : history_ok initial_state).
    { intros k l Hk. cbn in Hk. by rewrite lookup_empty in Hk. }
    revert H0. generalize initial_state.
    induction ops as [| [o now] rest IH]; intros st H0; [done |].
    cbn [run]. by apply IH, exec_history_ok. }
  apply Hok.
Qed.

Lemma pricing_history_bounded_witness :
  (length [mkHistory "agent-1" 300002
             (mul BASE_PRICE_LAMPORTS (mul (ofZ 1) UP_FACTOR))
             (mul (ofZ 1) UP_FACTOR) "high_demand"] <= 100)%nat.
Proof.
  apply (pricing_history_bounded PricingSpec.demand_demo "agent-1").
  vm_compute. reflexivity.
Defined.

Lemma SFleb_of_compare_Gt (m1 m2 : positive) (e1 e2 : Z) :
  SFcompare (S754_finite false m1 e1) (S754_finite false m2 e2) = Some Gt →
  SFleb (S754_finite false m2 e2) (S754_finite false m1 e1) = true.
Proof.
  unfold SFleb. rewrite !PricingSpec.SFcompare_finite_pos.
  rewrite (Z.compare_antisym e1 e2), (Z.compare_antisym (Zpos m1) (Zpos m2)).
  destruct (e1 ?= e2), (Zpos m1 ?= Zpos m2); cbn; congruence.
Qed.

Lemma clamp_percent_range (p : number) :
  p ≠ NaN →
  le (ofZ 0) (Math_min (ofZ 100) (Math_max (ofZ 0) p)) = true
  ∧ le (Math_min (ofZ 100) (Math_max (ofZ 0) p)) (ofZ 100) = true.
Proof.
  intros Hnan. destruct p as [[] | [] | | [] m e]; try done.
  change (Math_max (ofZ 0) (S754_finite false m e)) with (S754_finite false m e).
  unfold Math_min.
  assert (H100 : ofZ 100 = S754_finite false 7036874417766400 (-46))
    by (vm_compute; reflexivity).
  rewrite H100.
  destruct (SFcompare (S754_finite false 7036874417766400 (-46))
              (S754_finite false m e)) as [[] |] eqn:Hc; try done.
  split; [done |]. by apply SFleb_of_compare_Gt.
Qed.

Lemma SFcompare_finite_pos_Eq (m1 m2 : positive) (e1 e2 : Z) :
  SFcompare (S754_finite false m1 e1) (S754_finite false m2 e2) = Some Eq →
  S754_finite false m1 e1 = S754_finite false m2 e2.
Proof.
  rewrite PricingSpec.SFcompare_finite_pos.
  destruct (Z.compare_spec e1 e2) as [-> | |]; [| done | done].
  intros [= Hm]. apply Pos.compare_eq in Hm. by subst.
Qed.

(** [Math.min(100, Math.max(0, p))] by the position of [p]. *)
Lemma clamp_percent_cases (p : number) :
  (lt p (ofZ 0) = true → Math_min (ofZ 100) (Math_max (ofZ 0) p) = ofZ 0)
  ∧ (lt (ofZ 100) p = true → Math_min (ofZ 100) (Math_max (ofZ 0) p) = ofZ 100)
  ∧ (le (ofZ 0) p = true → le p (ofZ 100) = true →
     Math_min (ofZ 100) (Math_max (ofZ 0) p)
     = match p with S754_zero true => ofZ 0 | _ => p end).
Proof.
  assert (H100 : ofZ 100 = S754_finite false 7036874417766400 (-46))
    by (vm_compute; reflexivity).
  destruct p as [[] | [] | | [] m e]; try (repeat split; done).
  change (Math_max (ofZ 0) (S754_finite false m e)) with (S754_finite false m e).
  change (lt (S754_finite false m e) (ofZ 0)) with false.
  unfold Math_min, lt, le, SFltb, SFleb. rewrite H100.
  destruct (SFcompare (S754_finite false 7036874417766400 (-46))
              (S754_finite false m e)) as [[] |] eqn:Hc;
    rewrite ?(SFleb_of_compare_Gt _ _ _ _ Hc); try (repeat split; done).
  - apply SFcompare_finite_pos_Eq in Hc. rewrite <- Hc. repeat split; done.
  - repeat split; try done.
    rewrite PricingSpec.SFcompare_finite_pos in Hc |- *.
    rewrite (Z.compare_antisym (-46) e),
      (Z.compare_antisym 7036874417766400 (Zpos m)).
    destruct (-46 ?= e), (7036874417766400 ?= Zpos m); cbn in *; congruence.
Qed.

(** [createDiscountRule] stores an active rule whose percentage is the
    argument clamped to the range from 0 to 100: an argument from 0 to 100
    is stored as given (a negative zero as 0), an argument below 0 as 0 and
    an argument above 100 as 100; a NaN percentage is stored as NaN. *)
Theorem createDiscountRule_clamps_percent name_ type_ percent options now st :
  active (fst (createDiscountRule name_ type_ percent options now st)) = true
  ∧ rules_get (id (fst (createDiscountRule name_ type_ percent options now st)))
      (discountRules (snd (createDiscountRule name_ type_ percent options now st)))
    = Some (fst (createDiscountRule name_ type_ percent options now st))
  ∧ (percent = NaN →
     discountPercent (fst (createDiscountRule name_ type_ percent options now st)) = NaN)
  ∧ (percent ≠ NaN →
     le (ofZ 0)
        (discountPercent (fst (createDiscountRule name_ type_ percent options now st)))
     = true
     ∧ le (discountPercent (fst (createDiscountRule name_ type_ percent options now st)))
          (ofZ 100)
       = true)
  ∧ (le (ofZ 0) percent = true → le percent (ofZ 100) = true →
     discountPercent (fst (createDiscountRule name_ type_ percent options now st))
     = match percent with S754_zero true => ofZ 0 | _ => percent end)
  ∧ (lt percent (ofZ 0) = true →
     discountPercent (fst (createDiscountRule name_ type_ percent options now st))
     = ofZ 0)
  ∧ (lt (ofZ 100) percent = true →
     discountPercent (fst (createDiscountRule name_ type_ percent options now st))
     = ofZ 100).
Proof.
  cbn [createDiscountRule fst snd active id discountRules discountPercent].
  destruct (clamp_percent_cases percent) as (Hlow & Hhigh & Hmid).
  split; [done |]. split; [by rewrite rules_get_set |].
  split; [by intros -> |]. split; [apply clamp_percent_range |].
  split; [exact Hmid |]. split; [exact Hlow | exact Hhigh].
Qed.

Lemma updateDynamicPricing_other_stores agent now st :
  demandMetrics (updateDynamicPricing agent now st) = demandMetrics st
  ∧ walletVolume (updateDynamicPricing agent now st) = walletVolume st
  ∧ discountRules (updateDynamicPricing agent now st) = discountRules st.
Proof.
  unfold updateDynamicPricing.
  destruct (agentPricing st !! agent) as [pr|]; [| done].
  destruct (demandMetrics st !! agent) as [me|]; [| done].
  destruct (negb (dynamicPricing pr)); [done |].
  destruct (_ <? _); [done |].
  by destruct (negb (eq _ _)).
Qed.

(** [recordRequest] counts volume for registered agents only: for an agent
    without demand metrics it changes nothing at all; otherwise the volume
    read back for the wallet is the old reading plus the amount (read as 0
    when that sum is zero or NaN), and the volume of every other wallet
    stays. *)
Theorem recordRequest_counts_volume agent wallet amount now st :
  (demandMetrics st !! agent = None → recordRequest agent wallet amount now st = st)
  ∧ (is_Some (demandMetrics st !! agent) →
     getWalletVolume wallet (recordRequest agent wallet amount now st)
     = or_zero (Some (add (getWalletVolume wallet st) amount))
     ∧ ∀ w', w' ≠ wallet →
         getWalletVolume w' (recordRequest agent wallet amount now st)
         = getWalletVolume w' st).
Proof.
  unfold recordRequest, getWalletVolume. split.
  - by intros ->.
  - intros [me ->]. cbn zeta.
    match goal with
    | |- context [updateDynamicPricing agent now ?s] =>
        destruct (updateDynamicPricing_other_stores agent now s) as (_ & Hv & _)
    end.
    rewrite Hv. cbn [walletVolume].
    split; [by rewrite lookup_insert_eq |].
    intros w' Hw'. by rewrite lookup_insert_ne.
Qed.

Lemma recordRequest_counts_volume_witness :
  getWalletVolume "wallet-1" (run PricingSpec.demand_demo initial_state) = ofZ 10.
Proof.
  pose proof (proj2 (recordRequest_counts_volume "agent-1" "wallet-1" (ofZ 5) 300002
                       (run [ (RegisterAgentPricing "agent-1" no_options, 0);
                              (RecordRequest "agent-1" "wallet-1" (ofZ 5), 1) ]
                          initial_state))) as H.
  destruct H as [H _]; [vm_compute; eauto |].
  etransitivity; [exact H |]. vm_compute. reflexivity.
Defined.

(** Prices move at most once a minute, and only when dynamic pricing is on:
    a [recordRequest] for an agent whose dynamic pricing is off, or whose
    pricing record was updated less than 60000 ms before, leaves every
    pricing record and every price history as it is; since
    [updateAgentPricing] stamps the record, it postpones the next demand
    adjustment by a minute. *)
Theorem recordRequest_throttled agent wallet amount now st p :
  agentPricing st !! agent = Some p →
  dynamicPricing p = false ∨ now - lastUpdated p < PRICE_UPDATE_INTERVAL_MS →
  agentPricing (recordRequest agent wallet amount now st) = agentPricing st
  ∧ pricingHistory (recordRequest agent wallet amount now st) = pricingHistory st
  ∧ (∀ updates t0,
       now - t0 < PRICE_UPDATE_INTERVAL_MS →
       agentPricing (recordRequest agent wallet amount now
                       (snd (updateAgentPricing agent updates t0 st)))
       = agentPricing (snd (updateAgentPricing agent updates t0 st))).
Proof.
  intros Hp Hcase.
  assert (Hgen : ∀ st' p',
            agentPricing st' !! agent = Some p' →
            dynamicPricing p' = false ∨ now - lastUpdated p' < PRICE_UPDATE_INTERVAL_MS →
            agentPricing (recordRequest agent wallet amount now st') = agentPricing st'
            ∧ pricingHistory (recordRequest agent wallet amount now st')
              = pricingHistory st').
  { intros st' p' Hp' Hc. unfold recordRequest.
    destruct (demandMetrics st' !! agent) as [me|]; [| done].
    unfold updateDynamicPricing. cbn [agentPricing demandMetrics pricingHistory].
    rewrite Hp', lookup_insert_eq.
    destruct Hc as [-> | Hc]; [done |].
    apply Z.ltb_lt in Hc. rewrite Hc. by destruct (negb (dynamicPricing p')). }
  destruct (Hgen st p Hp Hcase) as [H1 H2]. split; [done |]. split; [done |].
  intros updates t0 Ht0. unfold updateAgentPricing. rewrite Hp. cbn [snd].
  eapply Hgen; [cbn [agentPricing]; apply lookup_insert_eq |].
  right. cbn [lastUpdated]. done.
Qed.

Lemma recordRequest_throttled_witness :
  agentPricing (recordRequest "agent-1" "wallet-1" (ofZ 5) 300010
                  (run PricingSpec.demand_demo initial_state))
  = agentPricing (run PricingSpec.demand_demo initial_state).
Proof.
  refine (proj1 (recordRequest_throttled "agent-1" "wallet-1" (ofZ 5) 300010
                   (run PricingSpec.demand_demo initial_state)
                   PricingSpec.demo_pricing _ _)).
  - vm_compute. reflexivity.
  - right. vm_compute. reflexivity.
Defined.

End PricingMore.

(** ** Transaction states *)

Module TransactionMore.
Import Transaction.

Lemma clearCompletedTransactions_fold m :
  (∀ k, snd (clearCompletedTransactions m) !! k
        = match m !! k with
          | Some t => if completed t then None else Some t
          | None => None
          end)
  ∧ fst (clearCompletedTransactions m)
    = Z.of_nat (size (filter (fun kv => completed (snd kv) = true) m)).
Proof.
  unfold clearCompletedTransactions.
  assert (H : ∀ m0 : store,
    (∀ k, snd (map_fold clear_entry (0, m0) m) !! k
          = match m !! k with
            | Some t => if completed t then None else m0 !! k
            | None => m0 !! k
            end)
    ∧ fst (map_fold clear_entry (0, m0) m)
      = Z.of_nat (size (filter (fun kv => completed (snd kv) = true) m))).
  { intros m0.
    apply (map_fold_weak_ind
             (fun (acc : Z * store) (m' : gmap string TransactionState) =>
                (∀ k, snd acc !! k
                      = match m' !! k with
                        | Some t => if completed t then None else m0 !! k
                        | None => m0 !! k
                        end)
                ∧ fst acc
                  = Z.of_nat (size (filter (fun kv => completed (snd kv) = true) m')))).
    - split; [done |]. by rewrite map_filter_empty, map_size_empty.
    - intros i x m' [c acc] Hi [IHl IHc]. cbn [fst snd] in *.
      unfold clear_entry. destruct (completed x) eqn:Hx; cbn [fst snd].
      + split.
        * intros k. destruct (decide (i = k)) as [-> | Hne].
          -- by rewrite lookup_delete_eq, lookup_insert_eq, Hx.
          -- rewrite lookup_delete_ne, lookup_insert_ne by done. apply IHl.
        * rewrite map_filter_insert_True by done.
          rewrite map_size_insert_None; [lia |].
          apply map_lookup_filter_None. by left.
      + split.
        * intros k. destruct (decide (i = k)) as [-> | Hne].
          -- rewrite lookup_insert_eq, Hx. rewrite IHl, Hi. done.
          -- rewrite lookup_insert_ne by done. apply IHl.
        * rewrite map_filter_insert_False by (cbn; congruence).
          by rewrite delete_id. }
  destruct (H m) as [Hl Hc]. split; [| exact Hc].
  intros k. rewrite Hl. by destruct (m !! k) as [t|] eqn:Hk; [rewrite ?Hk |].
Qed.

Lemma completed_not_pending t : completed t = negb (bool_decide (status t = pending)).
Proof. unfold completed. by destruct (status t). Qed.




(** [confirmTransaction] does not read the expiry: a pending transaction
    older than [TRANSACTION_EXPIRY_MS] is confirmed like any other as long
    as no sweep has stored it as expired; once [checkExpiredTransactions]
    has run at that time it is expired and can no longer be confirmed. *)
Theorem confirmTransaction_ignores_expiry k height now m t :
  m !! k = Some t →
  status t = pending →
  TRANSACTION_EXPIRY_MS < now - createdAt t →
  fst (confirmTransaction k height now m) = true
  ∧ (status <$> snd (confirmTransaction k height now m) !! k) = Some confirmed
  ∧ k ∈ fst (checkExpiredTransactions now m)
  ∧ confirmTransaction k height now (snd (checkExpiredTransactions now m))
    = (false, snd (checkExpiredTransactions now m)).
Proof.
  intros Hk Hp Hlate.
  assert (Hl : lapsed now t = true).
  { unfold lapsed. rewrite (bool_decide_eq_true_2 _ Hp). cbn. by apply Z.ltb_lt. }
  split; [| split; [| split]].
  - unfold confirmTransaction. by rewrite Hk, (bool_decide_eq_true_2 _ Hp).
  - unfold confirmTransaction. rewrite Hk, (bool_decide_eq_true_2 _ Hp).
    cbn [negb snd]. by rewrite lookup_insert_eq.
  - unfold checkExpiredTransactions. cbn [fst].
    apply list_elem_of_fmap. exists (k, t). split; [done |].
    apply list_elem_of_filter. split; [done | by apply elem_of_map_to_list].
  - unfold checkExpiredTransactions, confirmTransaction. cbn [snd].
    rewrite lookup_fmap, Hk. cbn. by rewrite Hl.
Qed.

Lemma confirmTransaction_ignores_expiry_witness :
  fst (confirmTransaction "tx-1" 250 200000 (exec (Create "tx-1") 1000 ∅)) = true
  ∧ (status <$> snd (confirmTransaction "tx-1" 250 200000
                       (exec (Create "tx-1") 1000 ∅)) !! "tx-1") = Some confirmed
  ∧ "tx-1" ∈ fst (checkExpiredTransactions 200000 (exec (Create "tx-1") 1000 ∅))
  ∧ confirmTransaction "tx-1" 250 200000
      (snd (checkExpiredTransactions 200000 (exec (Create "tx-1") 1000 ∅)))
    = (false, snd (checkExpiredTransactions 200000 (exec (Create "tx-1") 1000 ∅))).
Proof.
  refine (confirmTransaction_ignores_expiry "tx-1" 250 200000
            (exec (Create "tx-1") 1000 ∅)
            (mkTransaction "tx-1" pending 1000 None None 0) _ _ _).
  - vm_compute. reflexivity.
  - reflexivity.
  - vm_compute. reflexivity.
Defined.

(** [clearCompletedTransactions] deletes exactly the transactions that are
    not pending, whatever their order in the map, and returns how many it
    deleted; the pending ones stay as they are, and a second call deletes
    nothing. *)
Theorem clearCompletedTransactions_keeps_pending m :
  snd (clearCompletedTransactions m)
  = filter (fun kv => status (snd kv) = pending) m
  ∧ fst (clearCompletedTransactions m)
    = Z.of_nat (size m) - Z.of_nat (size (snd (clearCompletedTransactions m)))
  ∧ clearCompletedTransactions (snd (clearCompletedTransactions m))
    = (0, snd (clearCompletedTransactions m)).
Proof.
  destruct (clearCompletedTransactions_fold m) as [Hl Hc].
  assert (Heq : snd (clearCompletedTransactions m)
                = filter (fun kv => status (snd kv) = pending) m).
  { apply map_eq. intros k. rewrite Hl.
    destruct (m !! k) as [t|] eqn:Hk.
    - rewrite completed_not_pending.
      destruct (decide (status t = pending)) as [Hp | Hnp]; symmetry.
      + rewrite (bool_decide_eq_true_2 _ Hp). cbn.
        by apply map_lookup_filter_Some.
      + rewrite (bool_decide_eq_false_2 _ Hnp). cbn.
        apply map_lookup_filter_None. right. intros t' Ht'. cbn. congruence.
    - symmetry. apply map_lookup_filter_None. by left. }
  split; [exact Heq | split].
  - rewrite Hc, Heq.
    assert (Hsplit : size m
              = (size (filter (fun kv => status (snd kv) = pending) m)
                 + size (filter (fun kv => completed (snd kv) = true) m))%nat).
    { rewrite <- (map_filter_union_complement
                    (fun kv : string * TransactionState => status (snd kv) = pending) m)
        at 1.
      rewrite map_size_disj_union by apply map_disjoint_filter_complement.
      f_equal. f_equal. apply map_filter_ext. intros k t Hk. cbn.
      rewrite completed_not_pending.
      destruct (decide (status t = pending)) as [Hp | Hnp].
      - rewrite (bool_decide_eq_true_2 _ Hp). cbn. split; [done | congruence].
      - rewrite (bool_decide_eq_false_2 _ Hnp). cbn. done. }
    lia.
  - destruct (clearCompletedTransactions_fold (snd (clearCompletedTransactions m)))
      as [Hl2 Hc2].
    apply injective_projections; cbn [fst snd].
    + rewrite Hc2. replace (filter _ _) with (∅ : store); [by rewrite map_size_empty |].
      symmetry. apply map_empty. intros k. apply map_lookup_filter_None.
      right. intros t Ht. cbn. rewrite Heq in Ht.
      apply map_lookup_filter_Some in Ht as [_ Hp]. cbn in Hp.
      rewrite completed_not_pending, (bool_decide_eq_true_2 _ Hp). done.
    + apply map_eq. intros k. rewrite Hl2.
      destruct (snd (clearCompletedTransactions m) !! k) as [t|] eqn:Ht; [| done].
      rewrite Heq in Ht. apply map_lookup_filter_Some in Ht as [_ Hp]. cbn in Hp.
      by rewrite completed_not_pending, (bool_decide_eq_true_2 _ Hp).
Qed.

End TransactionMore.
